(** * A shallow embedding of sympy's DPLL solver (logic/algorithms/dpll2.py)

    The file follows the Python source function by function.  Python values
    are represented as follows.

    - Literals are [Z]; clause indices and list positions are [nat].
    - [set] objects are [gset]; the order in which Python iterates over a set
      is left open: the two places where the solver iterates over a set
      ([_assign_literal], [_undo]) go through an enumeration that is a
      parameter of the development, constrained only to list the elements of
      the set once each.
    - [defaultdict(set)] and [defaultdict(int)] are [gmap]s read with a
      default; [dict] is a [gmap] whose missing keys raise [KeyError].
    - Python lists used as stacks ([_unit_prop_queue], [levels]) are kept
      most-recent-first: [append] is a cons, [pop()] and [[-1]] take the head,
      [levels[0]] is the last element.
    - The [heapq] heap of [(score, literal)] pairs is kept as the sorted list
      of its entries: [heappush] inserts in order, [lit_heap[0]] is the head
      and [heappop] removes it.
    - VSIDS scores are the floats [-float(count)]; they are integer valued
      throughout (the decay hook is never registered), so they are kept in [Z].
    - A raised exception aborts the call: fallible functions return a
      [result].  Loops that Python runs with [while] take a fuel argument. *)

From stdpp Require Import gmap strings list fin_maps fin_sets sorting.

Local Open Scope Z_scope.

(** ** Exceptions and results *)

Inductive exn :=
| IndexError
| KeyError
| AttributeError
| NotImplementedError
| ZeroDivisionError
| TypeError.

Inductive result (A : Type) : Type :=
| Ok (a : A)
| Raise (e : exn)
| OutOfFuel.

Arguments Ok {A} a.
Arguments Raise {A} e.
Arguments OutOfFuel {A}.

#[global] Instance result_ret : MRet result := @Ok.

#[global] Instance result_bind : MBind result :=
  λ A B f m, match m with
             | Ok a => f a
             | Raise e => Raise e
             | OutOfFuel => OutOfFuel
             end.

(** [for x in l: s = body(s, x)] with exceptions. *)
Fixpoint for_each {S A : Type} (body : S → A → result S) (s : S) (l : list A)
  : result S :=
  match l with
  | [] => Ok s
  | x :: l' => s' ← body s x; for_each body s' l'
  end.

(** ** Decision levels *)

Module Level.

Record t := mk {
  decision : Z;
  var_settings : gset Z;
  flipped : bool;
  (** Python objects accept new attributes: [SATSolver.__init__] stores the
      initial assignment under the name [varsettings], which the class
      [Level] does not define and nothing reads. *)
  varsettings : option (gset Z)
}.

Definition __init__ (decision : Z) (flipped : bool) : t :=
  mk decision ∅ flipped None.

Definition add (lit : Z) (l : t) : t :=
  mk (decision l) ({[lit]} ∪ var_settings l) (flipped l) (varsettings l).

Definition set_varsettings (v : gset Z) (l : t) : t :=
  mk (decision l) (var_settings l) (flipped l) (Some v).

End Level.

(** ** The solver object *)

(** The methods that [class SATSolver] defines, by name. *)
Inductive method :=
| m_find_model
| m_clause_sat
| m_is_sentinel
| m_assign_literal
| m_undo
| m_simplify
| m_unit_prop
| m_pure_literal
| m_vsids_init
| m_vsids_decay
| m_vsids_calculate
| m_vsids_lit_assigned
| m_vsids_lit_unset
| m_vsids_clause_added
| m_simple_add_learned_clause
| m_simple_compute_conflict
| m_simple_clean_clauses
| m_initialize_variables
| m_initialize_clauses.

Definition SATSolver_methods : list (string * method) :=
  [ ("_initialize_variables", m_initialize_variables);
    ("_initialize_clauses", m_initialize_clauses);
    ("_find_model", m_find_model);
    ("_clause_sat", m_clause_sat);
    ("_is_sentinel", m_is_sentinel);
    ("_assign_literal", m_assign_literal);
    ("_undo", m_undo);
    ("_simplify", m_simplify);
    ("_unit_prop", m_unit_prop);
    ("_pure_literal", m_pure_literal);
    ("_vsids_init", m_vsids_init);
    ("_vsids_decay", m_vsids_decay);
    ("_vsids_calculate", m_vsids_calculate);
    ("_vsids_lit_assigned", m_vsids_lit_assigned);
    ("_vsids_lit_unset", m_vsids_lit_unset);
    ("_vsids_clause_added", m_vsids_clause_added);
    ("_simple_add_learned_clause", m_simple_add_learned_clause);
    ("_simple_compute_conflict", m_simple_compute_conflict);
    ("_simple_clean_clauses", m_simple_clean_clauses) ]%string.

Fixpoint assoc_find (name : string) (l : list (string * method)) : option method :=
  match l with
  | [] => None
  | (k, m) :: l' => if String.eqb name k then Some m else assoc_find name l'
  end.

(** [self.<name>] for a method name. *)
Definition getattr (name : string) : result method :=
  match assoc_find name SATSolver_methods with
  | Some m => Ok m
  | None => Raise AttributeError
  end.

Record SATSolver := mkSATSolver {
  var_settings : gset Z;
  heuristic : string;
  is_unsatisfied : bool;
  _unit_prop_queue : list Z;
  update_functions : list method;
  INTERVAL : Z;
  sentinels : gmap Z (gset nat);
  occurrence_count : gmap Z Z;
  variable_set : list bool;
  clauses : list (list Z);
  lit_heap : list (Z * Z);
  lit_scores : gmap Z Z;
  (** [None] stands for the [lambda] bound under ['none']. *)
  add_learned_clause : option method;
  compute_conflict : option method;
  levels : list Level.t;
  num_decisions : Z;
  num_learned_clauses : Z;
  original_num_clauses : nat
}.

(** Attribute assignment, one setter per attribute that is reassigned. *)

Definition set_var_settings (v : gset Z) (s : SATSolver) : SATSolver :=
  mkSATSolver v (heuristic s) (is_unsatisfied s) (_unit_prop_queue s)
    (update_functions s) (INTERVAL s) (sentinels s) (occurrence_count s)
    (variable_set s) (clauses s) (lit_heap s) (lit_scores s)
    (add_learned_clause s) (compute_conflict s) (levels s) (num_decisions s)
    (num_learned_clauses s) (original_num_clauses s).

Definition set_is_unsatisfied (v : bool) (s : SATSolver) : SATSolver :=
  mkSATSolver (var_settings s) (heuristic s) v (_unit_prop_queue s)
    (update_functions s) (INTERVAL s) (sentinels s) (occurrence_count s)
    (variable_set s) (clauses s) (lit_heap s) (lit_scores s)
    (add_learned_clause s) (compute_conflict s) (levels s) (num_decisions s)
    (num_learned_clauses s) (original_num_clauses s).

Definition set_unit_prop_queue (v : list Z) (s : SATSolver) : SATSolver :=
  mkSATSolver (var_settings s) (heuristic s) (is_unsatisfied s) v
    (update_functions s) (INTERVAL s) (sentinels s) (occurrence_count s)
    (variable_set s) (clauses s) (lit_heap s) (lit_scores s)
    (add_learned_clause s) (compute_conflict s) (levels s) (num_decisions s)
    (num_learned_clauses s) (original_num_clauses s).

Definition set_update_functions (v : list method) (s : SATSolver) : SATSolver :=
  mkSATSolver (var_settings s) (heuristic s) (is_unsatisfied s)
    (_unit_prop_queue s) v (INTERVAL s) (sentinels s) (occurrence_count s)
    (variable_set s) (clauses s) (lit_heap s) (lit_scores s)
    (add_learned_clause s) (compute_conflict s) (levels s) (num_decisions s)
    (num_learned_clauses s) (original_num_clauses s).

Definition set_sentinels (v : gmap Z (gset nat)) (s : SATSolver) : SATSolver :=
  mkSATSolver (var_settings s) (heuristic s) (is_unsatisfied s)
    (_unit_prop_queue s) (update_functions s) (INTERVAL s) v
    (occurrence_count s) (variable_set s) (clauses s) (lit_heap s)
    (lit_scores s) (add_learned_clause s) (compute_conflict s) (levels s)
    (num_decisions s) (num_learned_clauses s) (original_num_clauses s).

Definition set_occurrence_count (v : gmap Z Z) (s : SATSolver) : SATSolver :=
  mkSATSolver (var_settings s) (heuristic s) (is_unsatisfied s)
    (_unit_prop_queue s) (update_functions s) (INTERVAL s) (sentinels s) v
    (variable_set s) (clauses s) (lit_heap s) (lit_scores s)
    (add_learned_clause s) (compute_conflict s) (levels s) (num_decisions s)
    (num_learned_clauses s) (original_num_clauses s).

Definition set_variable_set (v : list bool) (s : SATSolver) : SATSolver :=
  mkSATSolver (var_settings s) (heuristic s) (is_unsatisfied s)
    (_unit_prop_queue s) (update_functions s) (INTERVAL s) (sentinels s)
    (occurrence_count s) v (clauses s) (lit_heap s) (lit_scores s)
    (add_learned_clause s) (compute_conflict s) (levels s) (num_decisions s)
    (num_learned_clauses s) (original_num_clauses s).

Definition set_clauses (v : list (list Z)) (s : SATSolver) : SATSolver :=
  mkSATSolver (var_settings s) (heuristic s) (is_unsatisfied s)
    (_unit_prop_queue s) (update_functions s) (INTERVAL s) (sentinels s)
    (occurrence_count s) (variable_set s) v (lit_heap s) (lit_scores s)
    (add_learned_clause s) (compute_conflict s) (levels s) (num_decisions s)
    (num_learned_clauses s) (original_num_clauses s).

Definition set_lit_heap (v : list (Z * Z)) (s : SATSolver) : SATSolver :=
  mkSATSolver (var_settings s) (heuristic s) (is_unsatisfied s)
    (_unit_prop_queue s) (update_functions s) (INTERVAL s) (sentinels s)
    (occurrence_count s) (variable_set s) (clauses s) v (lit_scores s)
    (add_learned_clause s) (compute_conflict s) (levels s) (num_decisions s)
    (num_learned_clauses s) (original_num_clauses s).

Definition set_lit_scores (v : gmap Z Z) (s : SATSolver) : SATSolver :=
  mkSATSolver (var_settings s) (heuristic s) (is_unsatisfied s)
    (_unit_prop_queue s) (update_functions s) (INTERVAL s) (sentinels s)
    (occurrence_count s) (variable_set s) (clauses s) (lit_heap s) v
    (add_learned_clause s) (compute_conflict s) (levels s) (num_decisions s)
    (num_learned_clauses s) (original_num_clauses s).

Definition set_learning (a c : option method) (s : SATSolver) : SATSolver :=
  mkSATSolver (var_settings s) (heuristic s) (is_unsatisfied s)
    (_unit_prop_queue s) (update_functions s) (INTERVAL s) (sentinels s)
    (occurrence_count s) (variable_set s) (clauses s) (lit_heap s)
    (lit_scores s) a c (levels s) (num_decisions s) (num_learned_clauses s)
    (original_num_clauses s).

Definition set_levels (v : list Level.t) (s : SATSolver) : SATSolver :=
  mkSATSolver (var_settings s) (heuristic s) (is_unsatisfied s)
    (_unit_prop_queue s) (update_functions s) (INTERVAL s) (sentinels s)
    (occurrence_count s) (variable_set s) (clauses s) (lit_heap s)
    (lit_scores s) (add_learned_clause s) (compute_conflict s) v
    (num_decisions s) (num_learned_clauses s) (original_num_clauses s).

Definition set_num_decisions (v : Z) (s : SATSolver) : SATSolver :=
  mkSATSolver (var_settings s) (heuristic s) (is_unsatisfied s)
    (_unit_prop_queue s) (update_functions s) (INTERVAL s) (sentinels s)
    (occurrence_count s) (variable_set s) (clauses s) (lit_heap s)
    (lit_scores s) (add_learned_clause s) (compute_conflict s) (levels s) v
    (num_learned_clauses s) (original_num_clauses s).

Definition set_num_learned_clauses (v : Z) (s : SATSolver) : SATSolver :=
  mkSATSolver (var_settings s) (heuristic s) (is_unsatisfied s)
    (_unit_prop_queue s) (update_functions s) (INTERVAL s) (sentinels s)
    (occurrence_count s) (variable_set s) (clauses s) (lit_heap s)
    (lit_scores s) (add_learned_clause s) (compute_conflict s) (levels s)
    (num_decisions s) v (original_num_clauses s).

Definition set_original_num_clauses (v : nat) (s : SATSolver) : SATSolver :=
  mkSATSolver (var_settings s) (heuristic s) (is_unsatisfied s)
    (_unit_prop_queue s) (update_functions s) (INTERVAL s) (sentinels s)
    (occurrence_count s) (variable_set s) (clauses s) (lit_heap s)
    (lit_scores s) (add_learned_clause s) (compute_conflict s) (levels s)
    (num_decisions s) (num_learned_clauses s) v.

(** ** Reading the containers *)

(** [self.sentinels[lit]] on the [defaultdict(set)]. *)
Definition watchers (s : SATSolver) (lit : Z) : gset nat :=
  default ∅ (sentinels s !! lit).

(** [self.occurrence_count[lit]] on the [defaultdict(int)]. *)
Definition occurrences (s : SATSolver) (lit : Z) : Z :=
  default 0 (occurrence_count s !! lit).

(** [abs(lit)] used as a list index. *)
Definition var_index (lit : Z) : nat := Z.to_nat (Z.abs lit).

(** [self.sentinels[lit].add(cls)] *)
Definition sentinel_add (lit : Z) (cls : nat) (s : SATSolver) : SATSolver :=
  set_sentinels (<[lit := {[cls]} ∪ watchers s lit]> (sentinels s)) s.

(** [self.sentinels[lit].remove(cls)], which raises on a missing element. *)
Definition sentinel_remove (lit : Z) (cls : nat) (s : SATSolver)
  : result SATSolver :=
  if decide (cls ∈ watchers s lit)
  then Ok (set_sentinels (<[lit := watchers s lit ∖ {[cls]}]> (sentinels s)) s)
  else Raise KeyError.

(** [self.occurrence_count[lit] += 1] *)
Definition count_occurrence (s : SATSolver) (lit : Z) : SATSolver :=
  set_occurrence_count (<[lit := occurrences s lit + 1]> (occurrence_count s)) s.

(** [self.variable_set[abs(lit)] = b] *)
Definition mark_variable (lit : Z) (b : bool) (s : SATSolver)
  : result SATSolver :=
  if decide (var_index lit < length (variable_set s))%nat
  then Ok (set_variable_set (<[var_index lit := b]> (variable_set s)) s)
  else Raise IndexError.

(** ** The heap of [(score, literal)] pairs *)

Definition entry_lt (a b : Z * Z) : bool :=
  (a.1 <? b.1) || ((a.1 =? b.1) && (a.2 <? b.2)).

Fixpoint heappush (h : list (Z * Z)) (x : Z * Z) : list (Z * Z) :=
  match h with
  | [] => [x]
  | y :: h' => if entry_lt y x then y :: heappush h' x else x :: h
  end.

(** ** Initialisation *)

(** [_initialize_variables]; only [len(variables)] is read. *)
Definition _initialize_variables (variables : gset Z) (s : SATSolver)
  : SATSolver :=
  set_variable_set (replicate (S (size variables)) false)
    (set_occurrence_count ∅ (set_sentinels ∅ s)).

(** The body of the loop of [_initialize_clauses] for the clause [c] stored
    at index [i]. *)
Definition initialize_clause (s : SATSolver) (ic : nat * list Z)
  : result SATSolver :=
  let '(i, c) := ic in
  match c with
  | [lit] => Ok (set_unit_prop_queue (lit :: _unit_prop_queue s) s)
  | [] => Raise IndexError
  | first :: _ =>
      let s1 := sentinel_add first i s in
      let s2 := sentinel_add (List.last c 0) i s1 in
      Ok (foldl count_occurrence s2 c)
  end.

(** [_initialize_clauses]; [clauses] gives each clause as the list that
    [list(cls)] produces. *)
Definition _initialize_clauses (clauses : list (list Z)) (s : SATSolver)
  : result SATSolver :=
  for_each initialize_clause (set_clauses clauses s) (imap pair clauses).

(** [_vsids_init]: the float [-float(a)], or [0.0] for a zero count. *)
Definition _nfloat (a : Z) : Z := if decide (a = 0) then 0 else - a.

Definition vsids_init_var (s : SATSolver) (var : Z) : SATSolver :=
  let s1 := set_lit_scores (<[var := _nfloat (occurrences s var)]> (lit_scores s)) s in
  let s2 := set_lit_scores (<[- var := _nfloat (occurrences s1 (- var))]> (lit_scores s1)) s1 in
  let s3 := set_lit_heap (heappush (lit_heap s2) (_nfloat (occurrences s2 var), var)) s2 in
  set_lit_heap (heappush (lit_heap s3) (_nfloat (occurrences s3 (- var)), - var)) s3.

Definition _vsids_init (s : SATSolver) : SATSolver :=
  foldl vsids_init_var (set_lit_scores ∅ (set_lit_heap [] s))
    (seqZ 1 (Z.of_nat (length (variable_set s)) - 1)).

(** [SATSolver.__init__]; the arguments carry a prime where the name is also
    an attribute. *)
Definition SATSolver__init__ (clauses' : list (list Z)) (variables : gset Z)
    (var_settings' : gset Z) (heuristic' clause_learning : string)
    (INTERVAL' : Z) : result SATSolver :=
  let s := mkSATSolver var_settings' heuristic' false [] [] INTERVAL'
             ∅ ∅ [] [] [] ∅ None None [] 0 0 0 in
  let s := _initialize_variables variables s in
  s ← _initialize_clauses clauses' s;
  s ← (if String.eqb "vsids" heuristic'
       then Ok (_vsids_init s)
       else Raise NotImplementedError);
  s ← (if String.eqb "simple" clause_learning then
         add ← getattr "_simple_add_learned_clause";
         s ← Ok (set_learning (Some add) (compute_conflict s) s);
         conflict ← getattr "simple_compute_conflict";
         s ← Ok (set_learning (add_learned_clause s) (Some conflict) s);
         clean ← getattr "simple_clean_clauses";
         Ok (set_update_functions (update_functions s ++ [clean]) s)
       else if String.eqb "none" clause_learning then
         Ok (set_learning None None s)
       else Raise NotImplementedError);
  let root := Level.__init__ 0 false in
  let s := set_levels [root] s in
  let s := set_levels [Level.set_varsettings var_settings' root] s in
  Ok (set_original_num_clauses (length (clauses s))
        (set_num_learned_clauses 0 (set_num_decisions 0 s))).

(** ** Helper methods *)

(** [self._current_level], i.e. [self.levels[-1]]. *)
Definition _current_level (s : SATSolver) : result Level.t :=
  match levels s with
  | top :: _ => Ok top
  | [] => Raise IndexError
  end.

(** [self.clauses[cls]] *)
Definition clause_at (s : SATSolver) (cls : nat) : result (list Z) :=
  match clauses s !! cls with
  | Some c => Ok c
  | None => Raise IndexError
  end.

Definition _clause_sat (s : SATSolver) (cls : nat) : result bool :=
  c ← clause_at s cls;
  Ok (existsb (λ lit, bool_decide (lit ∈ var_settings s)) c).

Definition _is_sentinel (s : SATSolver) (lit : Z) (cls : nat) : bool :=
  bool_decide (cls ∈ watchers s lit).

(** ** The VSIDS heuristic *)

(** [_vsids_calculate]: the loop discards heap entries whose variable is set;
    it returns the chosen literal ([0] when the heap runs out) and the heap
    that is left. *)
Fixpoint vsids_pop (variable_set : list bool) (heap : list (Z * Z))
  : result (Z * list (Z * Z)) :=
  match heap with
  | [] => Ok (0, [])
  | (_, lit) :: heap' =>
      match variable_set !! var_index lit with
      | None => Raise IndexError
      | Some true => vsids_pop variable_set heap'
      | Some false => Ok (lit, heap')
      end
  end.

Definition _vsids_calculate (s : SATSolver) : result (Z * SATSolver) :=
  '(lit, heap) ← vsids_pop (variable_set s) (lit_heap s);
  Ok (lit, set_lit_heap heap s).

Definition _vsids_lit_assigned (s : SATSolver) (lit : Z) : SATSolver := s.

(** [self.lit_scores[lit]] *)
Definition score_at (s : SATSolver) (lit : Z) : result Z :=
  match lit_scores s !! lit with
  | Some x => Ok x
  | None => Raise KeyError
  end.

Definition _vsids_lit_unset (s : SATSolver) (lit : Z) : result SATSolver :=
  let var := Z.abs lit in
  x ← score_at s var;
  let s := set_lit_heap (heappush (lit_heap s) (x, var)) s in
  y ← score_at s (- var);
  Ok (set_lit_heap (heappush (lit_heap s) (y, - var)) s).

Definition vsids_bump (s : SATSolver) (lit : Z) : result SATSolver :=
  x ← score_at s lit;
  Ok (set_lit_scores (<[lit := x + 1]> (lit_scores s)) s).

Definition _vsids_clause_added (s : SATSolver) (cls : list Z)
  : result SATSolver :=
  for_each vsids_bump
    (set_num_learned_clauses (num_learned_clauses s + 1) s) cls.

(** ** Clause learning *)

Definition _simple_add_learned_clause (s : SATSolver) (cls : list Z)
  : result SATSolver :=
  let cls_num := length (clauses s) in
  let s := set_clauses (clauses s ++ [cls]) s in
  let s := foldl count_occurrence s cls in
  match cls with
  | [] => Raise IndexError
  | first :: _ =>
      let s := sentinel_add first cls_num s in
      let s := sentinel_add (List.last cls 0) cls_num s in
      _vsids_clause_added s cls
  end.

(** [levels[1:]] are the levels above the root, oldest first. *)
Definition _simple_compute_conflict (s : SATSolver) : list Z :=
  (λ level, - Level.decision level) <$> reverse (removelast (levels s)).

Definition _simple_clean_clauses (s : SATSolver) : SATSolver := s.

(** Calling the hooks that [__init__] bound. *)
Definition call_compute_conflict (s : SATSolver) : result (option (list Z)) :=
  match compute_conflict s with
  | None => Ok None
  | Some m_simple_compute_conflict => Ok (Some (_simple_compute_conflict s))
  | Some _ => Raise TypeError
  end.

Definition call_add_learned_clause (s : SATSolver) (x : option (list Z))
  : result SATSolver :=
  match add_learned_clause s with
  | None => Ok s
  | Some m_simple_add_learned_clause =>
      match x with
      | Some cls => _simple_add_learned_clause s cls
      | None => Raise TypeError
      end
  | Some _ => Raise TypeError
  end.

Definition call_update (s : SATSolver) (m : method) : result SATSolver :=
  match m with
  | m_simple_clean_clauses => Ok (_simple_clean_clauses s)
  | _ => Raise TypeError
  end.

Section Solver.

(** How Python enumerates a set of clause indices and a set of literals. *)
Context (iter_clauses : gset nat → list nat) (iter_literals : gset Z → list Z).

(** ** Assigning and undoing *)

(** The inner loop of [_assign_literal] over the literals of clause [cls]:
    it returns [other_sentinel] as it stands when the loop ends. *)
Fixpoint seek_sentinel (lit : Z) (cls : nat) (lits : list Z)
    (other_sentinel : option Z) (s : SATSolver)
  : result (option Z * SATSolver) :=
  match lits with
  | [] => Ok (other_sentinel, s)
  | newlit :: lits' =>
      if decide (newlit ≠ - lit) then
        if _is_sentinel s newlit cls then
          seek_sentinel lit cls lits' (Some newlit) s
        else
          match variable_set s !! var_index newlit with
          | None => Raise IndexError
          | Some false =>
              s ← sentinel_remove (- lit) cls s;
              Ok (None, sentinel_add newlit cls s)
          | Some true => seek_sentinel lit cls lits' other_sentinel s
          end
      else seek_sentinel lit cls lits' other_sentinel s
  end.

(** The body of the loop of [_assign_literal] over [sentinel_list]. *)
Definition visit_sentinel (lit : Z) (s : SATSolver) (cls : nat)
  : result SATSolver :=
  sat ← _clause_sat s cls;
  if (sat : bool) then Ok s else
    (c ← clause_at s cls;
     '(other_sentinel, s) ← seek_sentinel lit cls c None s;
     match other_sentinel with
     | Some o =>
         if decide (o ≠ 0)
         then Ok (set_unit_prop_queue (o :: _unit_prop_queue s) s)
         else Ok s
     | None => Ok s
     end).

Definition _assign_literal (s : SATSolver) (lit : Z) : result SATSolver :=
  let s := set_var_settings ({[lit]} ∪ var_settings s) s in
  top ← _current_level s;
  let s := set_levels (Level.add lit top :: tail (levels s)) s in
  s ← mark_variable lit true s;
  let s := _vsids_lit_assigned s lit in
  let sentinel_list := iter_clauses (watchers s (- lit)) in
  for_each (visit_sentinel lit) s sentinel_list.

(** The body of the loop of [_undo]. *)
Definition unset_literal (s : SATSolver) (lit : Z) : result SATSolver :=
  if decide (lit ∈ var_settings s) then
    let s := set_var_settings (var_settings s ∖ {[lit]}) s in
    s ← _vsids_lit_unset s lit;
    mark_variable lit false s
  else Raise KeyError.

Definition _undo (s : SATSolver) : result SATSolver :=
  top ← _current_level s;
  s ← for_each unset_literal s (iter_literals (Level.var_settings top));
  match levels s with
  | _ :: rest => Ok (set_levels rest s)
  | [] => Raise IndexError
  end.

(** ** Propagation *)

(** The [while] loop of [_unit_prop]. *)
Fixpoint unit_prop_loop (fuel : nat) (result' : bool) (s : SATSolver)
  : result (bool * SATSolver) :=
  match _unit_prop_queue s with
  | [] => Ok (result', s)
  | next_lit :: queue =>
      match fuel with
      | O => OutOfFuel
      | S fuel' =>
          let s := set_unit_prop_queue queue s in
          if decide (- next_lit ∈ var_settings s) then
            Ok (false, set_unit_prop_queue [] (set_is_unsatisfied true s))
          else
            s ← _assign_literal s next_lit;
            unit_prop_loop fuel' result' s
      end
  end.

Definition _unit_prop (fuel : nat) (s : SATSolver) : result (bool * SATSolver) :=
  unit_prop_loop fuel (bool_decide (0 < length (_unit_prop_queue s))%nat) s.

Definition _pure_literal (s : SATSolver) : bool * SATSolver := (false, s).

(** [_simplify]: [rounds] bounds the iterations of its [while] loop. *)
Fixpoint simplify_loop (rounds fuel : nat) (s : SATSolver) : result SATSolver :=
  match rounds with
  | O => OutOfFuel
  | S rounds' =>
      '(c1, s) ← _unit_prop fuel s;
      let '(c2, s) := _pure_literal s in
      if false || c1 || c2 then simplify_loop rounds' fuel s else Ok s
  end.

Definition _simplify (fuel : nat) (s : SATSolver) : result SATSolver :=
  simplify_loop fuel fuel s.

(** ** The main loop *)

(** The periodic maintenance at the top of the loop of [_find_model]. *)
Definition run_updates (s : SATSolver) : result SATSolver :=
  if decide (INTERVAL s = 0) then Raise ZeroDivisionError
  else if decide (num_decisions s `mod` INTERVAL s = 0)
       then for_each call_update s (update_functions s)
       else Ok s.

(** The choice of the literal to assign: [None] stands for the [return True]
    taken when the heuristic answers [0]. *)
Definition choose_literal (flip_var : bool) (s : SATSolver)
  : result (option Z * SATSolver) :=
  if flip_var then
    top ← _current_level s;
    Ok (Some (Level.decision top), s)
  else
    '(lit, s) ← _vsids_calculate s;
    let s := set_num_decisions (num_decisions s + 1) s in
    if decide (0 = lit) then Ok (None, s)
    else Ok (Some lit, set_levels (Level.__init__ lit false :: levels s) s).

(** The loop [while self._current_level.flipped]; the boolean tells that
    [_find_model] returned [False] from inside it. *)
Fixpoint unroll_flipped (fuel : nat) (s : SATSolver)
  : result (bool * SATSolver) :=
  top ← _current_level s;
  if Level.flipped top then
    match fuel with
    | O => OutOfFuel
    | S fuel' =>
        s ← _undo s;
        if decide (1 = length (levels s))%nat then Ok (true, s)
        else unroll_flipped fuel' s
    end
  else Ok (false, s).

(** The conflict branch of the loop of [_find_model]: the boolean tells that
    it ended in [return False]; otherwise the loop goes on with
    [flip_var = True]. *)
Definition backtrack (fuel : nat) (s : SATSolver) : result (bool * SATSolver) :=
  let s := set_is_unsatisfied false s in
  '(exhausted, s) ← unroll_flipped fuel s;
  if (exhausted : bool) then Ok (true, s) else
    (c ← call_compute_conflict s;
     s ← call_add_learned_clause s c;
     top ← _current_level s;
     let flip_lit := - Level.decision top in
     s ← _undo s;
     Ok (false, set_levels (Level.__init__ flip_lit true :: levels s) s)).

(** One pass through the body of [while True] in [_find_model]: it either
    returns from [_find_model] or reaches the top of the loop again. *)
Inductive pass :=
| Return (answer : bool) (s : SATSolver)
| Continue (flip_var : bool) (s : SATSolver).

Definition loop_body (fuel : nat) (flip_var : bool) (s : SATSolver)
  : result pass :=
  s ← run_updates s;
  '(choice, s) ← choose_literal flip_var s;
  match choice with
  | None => Ok (Return true s)
  | Some lit =>
      s ← _assign_literal s lit;
      s ← _simplify fuel s;
      if is_unsatisfied s then
        '(exhausted, s) ← backtrack fuel s;
        if (exhausted : bool) then Ok (Return false s)
        else Ok (Continue true s)
      else Ok (Continue false s)
  end.

Fixpoint find_model_loop (rounds fuel : nat) (flip_var : bool) (s : SATSolver)
  : result (bool * SATSolver) :=
  match rounds with
  | O => OutOfFuel
  | S rounds' =>
      p ← loop_body fuel flip_var s;
      match p with
      | Return answer s => Ok (answer, s)
      | Continue flip_var s => find_model_loop rounds' fuel flip_var s
      end
  end.

Definition _find_model (fuel : nat) (s : SATSolver) : result (bool * SATSolver) :=
  s ← _simplify fuel s;
  if is_unsatisfied s then Ok (false, s)
  else find_model_loop fuel fuel false s.

End Solver.

(** * Notions used by the statements *)

(** The number of clauses of [cls] that contain [l]. *)
Definition containing (l : Z) (cls : list (list Z)) : nat :=
  length (filter (λ c, l ∈ c) cls).

(** The clauses that [_initialize_clauses] does not treat as unit clauses. *)
Definition non_unit (cls : list (list Z)) : list (list Z) :=
  filter (λ c, length c ≠ 1%nat) cls.

(** The state in which clause [cls] stops watching [old] and watches [new]. *)
Definition move_watch (old new : Z) (cls : nat) (s : SATSolver) : SATSolver :=
  sentinel_add new cls
    (set_sentinels (<[old := watchers s old ∖ {[cls]}]> (sentinels s)) s).

(** Whether a variable is marked as set. *)
Definition marked (s : SATSolver) (lit : Z) : Prop :=
  variable_set s !! var_index lit = Some true.

Definition unmarked (s : SATSolver) (lit : Z) : Prop :=
  variable_set s !! var_index lit = Some false.

(** Whether some literal of [c] is assigned. *)
Definition satisfied_by (A : gset Z) (c : list Z) : Prop := ∃ t, t ∈ c ∧ t ∈ A.

(** What one round of the loop of [_assign_literal] does to clause [cls]. *)
Inductive visit_effect (lit : Z) (cls : nat) (s : SATSolver) : SATSolver → Prop :=
| visit_satisfied c :
    clauses s !! cls = Some c →
    satisfied_by (var_settings s) c →
    visit_effect lit cls s s
| visit_moved c new :
    clauses s !! cls = Some c →
    ¬ satisfied_by (var_settings s) c →
    new ∈ c → new ≠ - lit → cls ∉ watchers s new → unmarked s new →
    cls ∈ watchers s (- lit) →
    visit_effect lit cls s (move_watch (- lit) new cls s)
| visit_unit c o :
    clauses s !! cls = Some c →
    ¬ satisfied_by (var_settings s) c →
    (∀ x, x ∈ c → x ≠ - lit → cls ∈ watchers s x ∨ marked s x) →
    o ∈ c → o ≠ - lit → cls ∈ watchers s o → o ≠ 0 →
    visit_effect lit cls s (set_unit_prop_queue (o :: _unit_prop_queue s) s)
| visit_stuck c :
    clauses s !! cls = Some c →
    ¬ satisfied_by (var_settings s) c →
    (∀ x, x ∈ c → x ≠ - lit → cls ∈ watchers s x ∨ marked s x) →
    (∀ x, x ∈ c → x ≠ - lit → cls ∉ watchers s x) ∨ (0 ∈ c ∧ cls ∈ watchers s 0) →
    visit_effect lit cls s s.

(** Every clause with two literals or more is watched by exactly two distinct
    literals of its own. *)
Definition two_watches (s : SATSolver) : Prop :=
  ∀ cls c, clauses s !! cls = Some c → (2 ≤ length c)%nat →
    ∃ w1 w2, w1 ≠ w2 ∧ w1 ∈ c ∧ w2 ∈ c
             ∧ ∀ l, cls ∈ watchers s l ↔ l = w1 ∨ l = w2.

(** Watch sets only hold indices of stored clauses, under their own literals. *)
Definition watch_sound (s : SATSolver) : Prop :=
  ∀ l cls, cls ∈ watchers s l → ∃ c, clauses s !! cls = Some c ∧ l ∈ c.

Definition watch_inv (s : SATSolver) : Prop := two_watches s ∧ watch_sound s.

(** The bookkeeping with which [_assign_literal] starts. *)
Definition record_literal (lit : Z) (top : Level.t) (s : SATSolver) : SATSolver :=
  set_variable_set (<[var_index lit := true]> (variable_set s))
    (set_levels (Level.add lit top :: tail (levels s))
       (set_var_settings ({[lit]} ∪ var_settings s) s)).

(** What the loop of [_undo] has done after the literals [done]. *)
Record undone (ls : list Z) (s s' : SATSolver) : Prop := {
  undone_var_settings : var_settings s' = var_settings s ∖ list_to_set ls;
  undone_subset : ∀ l, l ∈ ls → l ∈ var_settings s;
  undone_length : length (variable_set s') = length (variable_set s);
  undone_variable_set : ∀ i,
    variable_set s' !! i
    = if decide (i ∈ var_index <$> ls)
      then (if decide (i < length (variable_set s))%nat then Some false else None)
      else variable_set s !! i;
  undone_range : ∀ l, l ∈ ls → (var_index l < length (variable_set s))%nat;
  undone_heap_old : ∀ e, e ∈ lit_heap s → e ∈ lit_heap s';
  undone_heap_new : ∀ e, e ∈ lit_heap s' →
    e ∈ lit_heap s ∨ ∃ l, l ∈ ls ∧ (e.2 = Z.abs l ∨ e.2 = - Z.abs l);
  undone_heap_pushed : ∀ l, l ∈ ls →
    ∃ x y, (x, Z.abs l) ∈ lit_heap s' ∧ (y, - Z.abs l) ∈ lit_heap s';
  undone_frame :
    s' = set_variable_set (variable_set s')
           (set_lit_heap (lit_heap s') (set_var_settings (var_settings s') s))
}.

(** The literals of the unit clauses of [cls], in order. *)
Definition unit_literals (cls : list (list Z)) : list Z :=
  concat (filter (λ c, length c = 1%nat) cls).

(** [l] is the first or the last literal of [c]. *)
Definition ends (c : list Z) (l : Z) : Prop :=
  head c = Some l ∨ (c ≠ [] ∧ List.last c 0 = l).

(** What the loop of [_initialize_clauses] has done after the clauses [cls],
    stored from index [k] on. *)
Record initialized (k : nat) (cls : list (list Z)) (s s' : SATSolver) : Prop := {
  initialized_nonempty : Forall (λ c, c ≠ []) cls;
  initialized_queue :
    _unit_prop_queue s' = reverse (unit_literals cls) ++ _unit_prop_queue s;
  initialized_watchers : ∀ l i,
    i ∈ watchers s' l
    ↔ i ∈ watchers s l
      ∨ ∃ c, (k ≤ i)%nat ∧ cls !! (i - k)%nat = Some c ∧ length c ≠ 1%nat ∧ ends c l;
  initialized_frame :
    s' = set_occurrence_count (occurrence_count s')
           (set_sentinels (sentinels s')
              (set_unit_prop_queue (_unit_prop_queue s') s))
}.

(** ** Formulas and their models *)

(** The literals of the variables [1..N]. *)
Definition in_range (N : nat) (l : Z) : Prop := l ≠ 0 ∧ Z.abs l ≤ Z.of_nat N.

(** The input contract on the clauses: each clause is non-empty, lists its
    literals once, takes them from the variables [1..N] and does not hold a
    literal together with its negation. *)
Definition well_formed (N : nat) (F : list (list Z)) : Prop :=
  Forall (λ c, c ≠ [] ∧ NoDup c ∧ Forall (in_range N) c
               ∧ ∀ l, l ∈ c → - l ∉ c) F.

(** The set [{1..N}] passed as [variables]. *)
Definition variables_upto (N : nat) : gset Z :=
  list_to_set (seqZ 1 (Z.of_nat N)).

(** A valuation of the variables makes a literal true. *)
Definition lit_true (M : Z → bool) (l : Z) : Prop :=
  if decide (0 < l) then M l = true else M (- l) = false.

Definition clause_true (M : Z → bool) (c : list Z) : Prop :=
  ∃ l, l ∈ c ∧ lit_true M l.

Definition models (M : Z → bool) (F : list (list Z)) : Prop :=
  ∀ c, c ∈ F → clause_true M c.

Definition satisfiable (F : list (list Z)) : Prop := ∃ M, models M F.

(** ** The assignment held by the decision levels *)

Definition assigned (lv : list Level.t) : gset Z :=
  ⋃ (Level.var_settings <$> lv).

Definition consistent (A : gset Z) : Prop := ∀ l, l ∈ A → - l ∉ A.

(** The valuation agrees with the first-attempt decisions of the levels. *)
Definition agrees (M : Z → bool) (lv : list Level.t) : Prop :=
  ∀ L, L ∈ lv → Level.flipped L = false → Level.decision L ≠ 0 →
       lit_true M (Level.decision L).

(** Every model that agrees with the decisions makes the literals of the
    levels true. *)
Definition implied (F : list (list Z)) (lv : list Level.t) : Prop :=
  ∀ M, models M F → agrees M lv → ∀ l, l ∈ assigned lv → lit_true M l.

(** No model agrees with the decisions. *)
Definition refuted (F : list (list Z)) (lv : list Level.t) : Prop :=
  ∀ M, models M F → ¬ agrees M lv.

(** A clause is satisfied, or one of its literals waits in the queue. *)
Definition covered (A : gset Z) (Q : list Z) (c : list Z) : Prop :=
  satisfied_by A c ∨ ∃ o, o ∈ Q ∧ o ∈ c.

(** Under the literals [U], every unit clause is satisfied and so is every
    clause that watches a literal made false. *)
Definition closed (s : SATSolver) (U : gset Z) : Prop :=
  ∀ i c, clauses s !! i = Some c →
    (length c = 1%nat → satisfied_by U c)
    ∧ ∀ w, i ∈ watchers s w → - w ∈ U → satisfied_by U c.

(** The level [low] starts with has its decision among its literals, unless
    it is the root. *)
Definition settled (low : list Level.t) : Prop :=
  match low with
  | L :: low' => low' = [] ∨ Level.decision L ∈ Level.var_settings L
  | [] => True
  end.

(** What holds of a level [top] that sits on the levels [low]. *)
Definition level_inv (N : nat) (F : list (list Z)) (s : SATSolver)
    (top : Level.t) (low : list Level.t) : Prop :=
  Level.var_settings top ## assigned low
  ∧ (low = [] → Level.decision top = 0 ∧ Level.flipped top = false)
  ∧ (low ≠ [] →
       in_range N (Level.decision top)
       ∧ Level.decision top ∉ assigned low
       ∧ - Level.decision top ∉ assigned low
       ∧ settled low
       ∧ closed s (assigned low)
       ∧ implied F low
       ∧ (Level.flipped top = true →
            ∀ M, models M F → agrees M low → lit_true M (Level.decision top))).

Fixpoint stack_inv (N : nat) (F : list (list Z)) (s : SATSolver)
    (lv : list Level.t) : Prop :=
  match lv with
  | [] => True
  | top :: low => level_inv N F s top low ∧ stack_inv N F s low
  end.

(** The invariant of the solver that does not depend on the queue being
    worked off: it holds from construction on, also when a conflict has been
    found. *)
Record base_inv (N : nat) (F : list (list Z)) (s : SATSolver) : Prop := {
  inv_clauses : clauses s = F;
  inv_formula : well_formed N F;
  inv_variable_set : length (variable_set s) = S N;
  inv_scores : ∀ l, in_range N l → is_Some (lit_scores s !! l);
  inv_add_learned : add_learned_clause s = None;
  inv_compute_conflict : compute_conflict s = None;
  inv_update_functions : update_functions s = [];
  inv_interval : INTERVAL s ≠ 0;
  inv_heap_range : ∀ e, e ∈ lit_heap s → in_range N e.2;
  inv_two_watches : two_watches s;
  inv_watch_sound : ∀ l i, i ∈ watchers s l →
    ∃ c, F !! i = Some c ∧ l ∈ c ∧ (2 ≤ length c)%nat;
  inv_levels : levels s ≠ [];
  inv_stack : stack_inv N F s (levels s);
  inv_assigned : var_settings s = assigned (levels s);
  inv_range : ∀ l, l ∈ var_settings s → in_range N l;
  inv_consistent : consistent (var_settings s);
  inv_marked : ∀ l, in_range N l →
    (marked s l ↔ l ∈ var_settings s ∨ - l ∈ var_settings s);
  inv_implied : implied F (levels s)
}.

(** Every variable that is not set has an entry in the heap, except for the
    variable of [lit]. *)
Definition heap_cover_but (N : nat) (lit : Z) (s : SATSolver) : Prop :=
  ∀ l, in_range N l → unmarked s l → Z.abs l ≠ Z.abs lit →
    ∃ e, e ∈ lit_heap s ∧ Z.abs e.2 = Z.abs l.

Definition heap_cover (N : nat) (s : SATSolver) : Prop := heap_cover_but N 0 s.

(** The invariant while the queue is worked off. *)
Record queue_inv (N : nat) (F : list (list Z)) (s : SATSolver) : Prop := {
  inv_queue_range : ∀ q, q ∈ _unit_prop_queue s → in_range N q;
  inv_queue_fresh : ∀ q, q ∈ _unit_prop_queue s →
    q ∉ assigned (tail (levels s));
  inv_queue_implied : ∀ q, q ∈ _unit_prop_queue s →
    ∀ M, models M F → agrees M (levels s) → lit_true M q;
  inv_covered : ∀ i c, F !! i = Some c →
    (length c = 1%nat → covered (var_settings s) (_unit_prop_queue s) c)
    ∧ ∀ w, i ∈ watchers s w → - w ∈ var_settings s →
           covered (var_settings s) (_unit_prop_queue s) c
}.

(** Watched clauses are stored, hold two literals or more, and are watched
    under their own literals. *)
Definition watches_stored (s : SATSolver) : Prop :=
  ∀ l i, i ∈ watchers s l →
    ∃ c, clauses s !! i = Some c ∧ l ∈ c ∧ (2 ≤ length c)%nat.

(** The literals of the stored clauses are not zero and index
    [variable_set]. *)
Definition literals_indexed (s : SATSolver) : Prop :=
  ∀ i c x, clauses s !! i = Some c → x ∈ c →
    x ≠ 0 ∧ (var_index x < length (variable_set s))%nat.

(** What a successful call of [_assign_literal] has done. *)
Record assign_post (lit : Z) (top : Level.t) (s s' : SATSolver) : Prop := {
  assign_frame :
    s' = set_sentinels (sentinels s')
           (set_unit_prop_queue (_unit_prop_queue s') (record_literal lit top s));
  assign_queue : ∃ new,
    _unit_prop_queue s' = new ++ _unit_prop_queue s
    ∧ ∀ o, o ∈ new →
        ∃ i c, clauses s !! i = Some c
          ∧ i ∈ watchers s' (- lit) ∧ i ∈ watchers s' o ∧ o ≠ - lit ∧ o ∈ c
          ∧ ¬ satisfied_by ({[lit]} ∪ var_settings s) c
          ∧ ∀ x, x ∈ c → x ≠ - lit →
                 i ∈ watchers s' x ∨ marked (record_literal lit top s) x;
  assign_watch_new : ∀ i l,
    i ∈ watchers s' l →
    i ∈ watchers s l
    ∨ (unmarked (record_literal lit top s) l ∧ l ≠ - lit
       ∧ ∃ c, clauses s !! i = Some c ∧ l ∈ c);
  assign_watch_old : ∀ i l,
    i ∈ watchers s l → l ≠ - lit → i ∈ watchers s' l;
  assign_watch_lit : ∀ i,
    i ∈ watchers s' (- lit) →
    i ∈ watchers s (- lit)
    ∧ ∃ c, clauses s !! i = Some c
        ∧ covered ({[lit]} ∪ var_settings s) (_unit_prop_queue s') c;
  assign_two_watches : two_watches s';
  assign_stored : watches_stored s'
}.

(** What the loop of [_assign_literal] has done after the clauses [ls]. *)
Record visited (lit : Z) (ls : list nat) (s s' : SATSolver) : Prop := {
  visited_frame :
    s' = set_sentinels (sentinels s')
           (set_unit_prop_queue (_unit_prop_queue s') s);
  visited_queue : ∃ new,
    _unit_prop_queue s' = new ++ _unit_prop_queue s
    ∧ ∀ o, o ∈ new →
        ∃ i c, i ∈ ls ∧ clauses s !! i = Some c
          ∧ i ∈ watchers s' (- lit) ∧ i ∈ watchers s' o ∧ o ≠ - lit ∧ o ∈ c
          ∧ ¬ satisfied_by (var_settings s) c
          ∧ ∀ x, x ∈ c → x ≠ - lit → i ∈ watchers s' x ∨ marked s x;
  visited_other : ∀ i, i ∉ ls → ∀ x, i ∈ watchers s' x ↔ i ∈ watchers s x;
  visited_new : ∀ i l,
    i ∈ watchers s' l →
    i ∈ watchers s l
    ∨ (unmarked s l ∧ l ≠ - lit ∧ ∃ c, clauses s !! i = Some c ∧ l ∈ c);
  visited_old : ∀ i l, i ∈ watchers s l → l ≠ - lit → i ∈ watchers s' l;
  visited_lit : ∀ i,
    i ∈ ls → i ∈ watchers s' (- lit) →
    ∃ c, clauses s !! i = Some c
      ∧ covered (var_settings s) (_unit_prop_queue s') c;
  visited_lit_old : ∀ i, i ∈ watchers s' (- lit) → i ∈ watchers s (- lit);
  visited_two_watches : two_watches s';
  visited_stored : watches_stored s'
}.

(** The literals of the variables [1..N], as a set. *)
Definition literals (N : nat) : gset Z :=
  list_to_set (seqZ 1 (Z.of_nat N)) ∪ list_to_set (Z.opp <$> seqZ 1 (Z.of_nat N)).

(** What [_unit_prop] and [_simplify] leave behind: [conflict] tells whether
    a conflict was found. *)
Record propagated (N : nat) (F : list (list Z)) (conflict : bool)
    (s s' : SATSolver) : Prop := {
  propagated_base : base_inv N F s';
  propagated_heap : heap_cover N s';
  propagated_settled : settled (levels s');
  propagated_queue : _unit_prop_queue s' = [];
  propagated_flags : Level.flipped <$> levels s' = Level.flipped <$> levels s;
  propagated_num_decisions : num_decisions s' = num_decisions s;
  propagated_outcome :
    if conflict
    then is_unsatisfied s' = true ∧ refuted F (levels s')
    else is_unsatisfied s' = is_unsatisfied s ∧ queue_inv N F s'
}.

(** The invariant at the top of the loop of [_find_model]: with [flip_var]
    set, the top level is the flipped one that the conflict branch has just
    pushed. *)
Definition top_inv (N : nat) (F : list (list Z)) (flip_var : bool)
    (s : SATSolver) : Prop :=
  base_inv N F s ∧ heap_cover N s ∧ queue_inv N F s
  ∧ _unit_prop_queue s = [] ∧ is_unsatisfied s = false
  ∧ if flip_var
    then ∃ top low, levels s = top :: low ∧ low ≠ []
                    ∧ Level.flipped top = true ∧ Level.var_settings top = ∅
    else settled (levels s).

(** The decision stack read as a number in base three, the root last: a first
    attempt counts one, a flipped level two.  It grows with every pass through
    the loop, which bounds the search. *)
Fixpoint weight (B : nat) (flags : list bool) : nat :=
  match flags with
  | [] => 0
  | f :: low =>
      match low with
      | [] => 0
      | _ => (if f then 2 else 1) * 3 ^ (B - length low)
      end + weight B low
  end.

(** The bound on the depth of the stack used by [weight]. *)
Definition depth_bound (N : nat) : nat := S (size (literals N)).

Definition search_measure (N : nat) (flip_var : bool) (s : SATSolver) : nat :=
  2 * (3 ^ depth_bound N - weight (depth_bound N) (Level.flipped <$> levels s))
  + (if flip_var then 1 else 0).

(** The final assignment of a run that answers [True]: it satisfies every
    clause and holds exactly one literal of each variable. *)
Definition is_model (N : nat) (F : list (list Z)) (A : gset Z) : Prop :=
  (∀ c, c ∈ F → satisfied_by A c)
  ∧ ∀ v, 1 ≤ v ≤ Z.of_nat N → (v ∈ A ∧ - v ∉ A) ∨ (- v ∈ A ∧ v ∉ A).

(** With enough fuel the loop of [_unit_prop] ends, in a state that is
    propagated. *)
Definition unit_prop_ends (iter_clauses : gset nat → list nat) (N : nat)
    (F : list (list Z)) (s : SATSolver) : Prop :=
  ∃ n s' conflict, ∀ fuel, (n ≤ fuel)%nat → ∀ res,
    unit_prop_loop iter_clauses fuel res s
    = Ok (if conflict : bool then false else res, s')
    ∧ propagated N F conflict s s'.

(** What the loop over the flipped levels leaves behind. *)
Definition unrolled (N : nat) (F : list (list Z)) (s : SATSolver)
    (exhausted : bool) (s' : SATSolver) : Prop :=
  if exhausted then ¬ satisfiable F
  else base_inv N F s' ∧ heap_cover N s'
       ∧ _unit_prop_queue s' = [] ∧ is_unsatisfied s' = false
       ∧ refuted F (levels s')
       ∧ (∃ top low, levels s' = top :: low ∧ low ≠ [] ∧ Level.flipped top = false)
       ∧ ∃ ups, Level.flipped <$> levels s = ups ++ (Level.flipped <$> levels s')
                ∧ Forall (λ f, f = true) ups.

(** What a pass through the loop establishes. *)
Definition pass_ok (N : nat) (F : list (list Z)) (flip_var : bool)
    (s : SATSolver) (p : pass) : Prop :=
  match p with
  | Return true s' => is_model N F (var_settings s')
  | Return false s' => ¬ satisfiable F
  | Continue flip_var' s' =>
      top_inv N F flip_var' s'
      ∧ (search_measure N flip_var' s' < search_measure N flip_var s)%nat
  end.

(** The watch invariant in a solver that learns no clause, which is how
    every solver that [__init__] returns is set up. *)
Definition guarded (s : SATSolver) : Prop :=
  watch_inv s ∧ add_learned_clause s = None.

Section Reachable.

Context (iter_clauses : gset nat → list nat) (iter_literals : gset Z → list Z).

(** The states in which [_find_model], called on [s0], stands at the top of
    its [while True] loop, with the value of [flip_var] there. *)
Inductive top_of_loop (s0 : SATSolver) : bool → SATSolver → Prop :=
| top_first fuel s :
    _simplify iter_clauses fuel s0 = Ok s →
    is_unsatisfied s = false →
    top_of_loop s0 false s
| top_again fuel flip_var s flip_var' s' :
    top_of_loop s0 flip_var s →
    loop_body iter_clauses iter_literals fuel flip_var s
    = Ok (Continue flip_var' s') →
    top_of_loop s0 flip_var' s'.

End Reachable.

(** The order of the heap entries: Python's order of [(score, literal)]
    tuples. *)
Definition entry_le (a b : Z * Z) : Prop :=
  a.1 < b.1 ∨ (a.1 = b.1 ∧ a.2 ≤ b.2).

(** The heap gives its entries in ascending order. *)
Definition heap_sorted (s : SATSolver) : Prop :=
  StronglySorted entry_le (lit_heap s).

(** Every heap entry carries the score of its literal. *)
Definition heap_scored (s : SATSolver) : Prop :=
  ∀ x l, (x, l) ∈ lit_heap s → lit_scores s !! l = Some x.

(** The state a pass through the loop of [_find_model] ends in. *)
Definition pass_state (p : pass) : SATSolver :=
  match p with
  | Return _ s => s
  | Continue _ s => s
  end.

(** What the search leaves as it is in a solver that learns no clause. *)
Definition search_frame (s s1 : SATSolver) : Prop :=
  add_learned_clause s1 = None
  ∧ clauses s1 = clauses s
  ∧ lit_scores s1 = lit_scores s
  ∧ occurrence_count s1 = occurrence_count s
  ∧ length (variable_set s1) = length (variable_set s)
  ∧ INTERVAL s1 = INTERVAL s
  ∧ update_functions s1 = update_functions s
  ∧ num_learned_clauses s1 = num_learned_clauses s
  ∧ original_num_clauses s1 = original_num_clauses s.

(** The heap as the search keeps it. *)
Definition heap_kept (s : SATSolver) : Prop :=
  add_learned_clause s = None ∧ heap_sorted s ∧ heap_scored s.

(** How often the literal [l] occurs in the clause [c]. *)
Definition times (l : Z) (c : list Z) : Z :=
  Z.of_nat (length (filter (λ x, x = l) c)).

(** * Properties *)

(** * Reasoning about results *)

Lemma bind_Ok {A B : Type} (m : result A) (f : A → result B) (b : B) :
  (m ≫= f) = Ok b → ∃ a, m = Ok a ∧ f a = Ok b.
Proof. destruct m as [a| |]; simpl; [eauto | discriminate | discriminate]. Qed.

Ltac inv_bind H :=
  let a := fresh "a" in
  let Ha := fresh "Ha" in
  apply bind_Ok in H; destruct H as (a & Ha & H).

Lemma for_each_app {S A : Type} (body : S → A → result S) s l1 l2 :
  for_each body s (l1 ++ l2) = (for_each body s l1 ≫= λ s', for_each body s' l2).
Proof.
  revert s; induction l1 as [|x l1 IH]; intros s; simpl; [done|].
  destruct (body s x) as [s'| |]; simpl; [apply IH | done | done].
Qed.

Lemma for_each_invariant {S A : Type} (P : S → Prop) (body : S → A → result S) l :
  (∀ s x s', x ∈ l → P s → body s x = Ok s' → P s') →
  ∀ s s', P s → for_each body s l = Ok s' → P s'.
Proof.
  induction l as [|x l IH]; intros Hbody s s' HP Hrun; simpl in Hrun.
  - by inversion Hrun; subst.
  - inv_bind Hrun. eapply IH; [| |exact Hrun].
    + intros; eapply Hbody; eauto. by right.
    + eapply Hbody; eauto. by left.
Qed.

Lemma for_each_total {S A : Type} (P : S → Prop) (body : S → A → result S) l :
  (∀ s x, x ∈ l → P s → ∃ s', body s x = Ok s' ∧ P s') →
  ∀ s, P s → ∃ s', for_each body s l = Ok s' ∧ P s'.
Proof.
  induction l as [|x l IH]; intros Hbody s HP; simpl.
  - eauto.
  - destruct (Hbody s x) as (s1 & -> & HP1); [by left | done |]. simpl.
    apply IH; [|done]. intros; apply Hbody; [by right | done].
Qed.

(** * Construction *)

Lemma getattr_simple_compute_conflict :
  getattr "simple_compute_conflict" = Raise AttributeError.
Proof. reflexivity. Qed.

Lemma initialize_clause_total s i c :
  c ≠ [] → ∃ s', initialize_clause s (i, c) = Ok s'.
Proof. destruct c as [|x [|y c]]; simpl; eauto. done. Qed.

Lemma initialize_clauses_total cls s :
  Forall (λ c, c ≠ []) cls → ∃ s', _initialize_clauses cls s = Ok s'.
Proof.
  intros Hne. unfold _initialize_clauses.
  destruct (for_each_total (λ _, True) initialize_clause (imap pair cls))
    with (s := set_clauses cls s) as (s' & Hs' & _); [|done|eauto].
  intros s1 [i c] Hin _.
  apply elem_of_lookup_imap_1 in Hin as (k & c' & [= -> ->] & Hk).
  destruct (initialize_clause_total s1 k c') as [s2 Hs2]; [|eauto].
  eapply Forall_lookup_1 in Hne; eauto.
Qed.

Lemma init_simple_learning_raises cls vars S I :
  Forall (λ c, c ≠ []) cls →
  SATSolver__init__ cls vars S "vsids" "simple" I = Raise AttributeError.
Proof.
  intros Hne. unfold SATSolver__init__.
  destruct (initialize_clauses_total cls
    (_initialize_variables vars
       (mkSATSolver S "vsids" false [] [] I ∅ ∅ [] [] [] ∅ None None [] 0 0 0)) Hne)
    as [s' ->].
  reflexivity.
Qed.

Lemma foldl_invariant {S A : Type} (P : S → Prop) (f : S → A → S) l :
  (∀ s x, x ∈ l → P s → P (f s x)) → ∀ s, P s → P (foldl f s l).
Proof.
  induction l as [|x l IH]; intros Hf s HP; simpl; [done|].
  apply IH; [intros; apply Hf; [by right | done]|].
  apply Hf; [by left | done].
Qed.

Lemma occurrences_count s lit l :
  occurrences (count_occurrence s lit) l
  = if decide (l = lit) then occurrences s l + 1 else occurrences s l.
Proof.
  unfold occurrences, count_occurrence; simpl.
  case_decide as Hl; [subst; by rewrite lookup_insert_eq | by rewrite lookup_insert_ne].
Qed.

Lemma occurrences_foldl c s l :
  occurrences (foldl count_occurrence s c) l
  = occurrences s l + Z.of_nat (length (filter (λ x, x = l) c)).
Proof.
  revert s; induction c as [|x c IH]; intros s; simpl; [lia|].
  rewrite IH, occurrences_count, filter_cons.
  repeat case_decide; simpl; try congruence; lia.
Qed.

Lemma occurrences_sentinel_add lit i s l :
  occurrences (sentinel_add lit i s) l = occurrences s l.
Proof. reflexivity. Qed.

Lemma filter_eq_NoDup (c : list Z) l :
  NoDup c → length (filter (λ x, x = l) c) = if decide (l ∈ c) then 1%nat else 0%nat.
Proof.
  induction 1 as [|x c Hx Hc IH].
  - rewrite filter_nil. destruct (decide (l ∈ [])) as [H|H]; [by apply elem_of_nil in H | done].
  - rewrite filter_cons.
    destruct (decide (x = l)) as [->|Hne]; simpl; rewrite IH;
      destruct (decide (l ∈ c)); destruct (decide (l ∈ _ :: c));
      try done; exfalso; set_solver.
Qed.

Lemma initialize_clause_occurrences s i c s' l :
  NoDup c →
  initialize_clause s (i, c) = Ok s' →
  occurrences s' l
  = occurrences s l + Z.of_nat (containing l (non_unit [c])).
Proof.
  intros Hnd Hrun. unfold containing, non_unit.
  destruct c as [|x [|y c]]; simpl in Hrun; [done| |].
  - inversion Hrun; subst. rewrite filter_cons, decide_False by (simpl; lia).
    simpl. unfold occurrences; simpl. lia.
  - inversion Hrun; subst. clear Hrun.
    rewrite filter_cons, decide_True by (simpl; lia).
    rewrite filter_nil, filter_cons, filter_nil.
    change (foldl count_occurrence _ c) with
      (foldl count_occurrence
         (sentinel_add (List.last (x :: y :: c) 0) i (sentinel_add x i s))
         (x :: y :: c)) at 1.
    rewrite occurrences_foldl, !occurrences_sentinel_add.
    rewrite filter_eq_NoDup by done.
    destruct (decide (l ∈ x :: y :: c)); simpl; lia.
Qed.

Lemma containing_cons l c cls :
  containing l (non_unit (c :: cls))
  = (containing l (non_unit [c]) + containing l (non_unit cls))%nat.
Proof.
  unfold containing, non_unit. rewrite !filter_cons.
  destruct (decide (length c ≠ 1%nat)); simpl; rewrite ?filter_nil; [|done].
  rewrite !filter_cons. destruct (decide (l ∈ c)); simpl; rewrite ?filter_nil; done.
Qed.

Lemma initialize_loop_occurrences cls (f : nat → nat) s s' l :
  Forall NoDup cls →
  for_each initialize_clause s (imap (λ i c, (f i, c)) cls) = Ok s' →
  occurrences s' l = occurrences s l + Z.of_nat (containing l (non_unit cls)).
Proof.
  revert f s; induction cls as [|c cls IH]; intros f s Hnd Hrun.
  - inversion Hrun; subst. unfold containing, non_unit. simpl. lia.
  - apply Forall_cons in Hnd as [Hc Hnd]. simpl in Hrun. inv_bind Hrun.
    eapply (IH (f ∘ S)) in Hrun; [|done].
    rewrite Hrun, (initialize_clause_occurrences _ _ _ _ _ Hc Ha).
    rewrite (containing_cons l c cls). lia.
Qed.

Lemma vsids_init_var_occurrence_count s var :
  occurrence_count (vsids_init_var s var) = occurrence_count s.
Proof. reflexivity. Qed.

Lemma vsids_init_occurrence_count s :
  occurrence_count (_vsids_init s) = occurrence_count s.
Proof.
  unfold _vsids_init.
  apply (foldl_invariant (λ s', occurrence_count s' = occurrence_count s)); [|done].
  intros s1 x _ H. by rewrite vsids_init_var_occurrence_count.
Qed.

(** C8, as the code has it.  After the constructor, for clauses without a
    repeated literal, [occurrence_count[l]] is the number of input clauses
    that contain [l] and are not unit clauses: [_initialize_clauses] queues
    a one-literal clause and goes on to the next one before any counting. *)
Theorem init_occurrence_count cls vars S I s :
  Forall NoDup cls →
  SATSolver__init__ cls vars S "vsids" "none" I = Ok s →
  ∀ l, occurrences s l = Z.of_nat (containing l (non_unit cls)).
Proof.
  intros Hnd Hinit l. unfold SATSolver__init__ in Hinit.
  inv_bind Hinit. simpl in Hinit. inversion Hinit; subst; clear Hinit.
  unfold _initialize_clauses in Ha.
  eapply (initialize_loop_occurrences cls id) with (l := l) in Ha; [|done].
  unfold occurrences in *; simpl in *.
  rewrite vsids_init_occurrence_count. rewrite Ha. rewrite lookup_empty. simpl. lia.
Qed.

Lemma init_occurrence_count_witness :
  ∃ s, SATSolver__init__ [[1; 2]; [1]; [-2; 1]] {[1; 2]} ∅ "vsids" "none" 500 = Ok s
       ∧ occurrences s 1 = 2.
Proof.
  eexists; split; [reflexivity|].
  apply (init_occurrence_count [[1; 2]; [1]; [-2; 1]] {[1; 2]} ∅ 500).
  - repeat constructor; set_solver.
  - reflexivity.
Defined.

(** The single clause [[1]]: it contains [1], and [occurrence_count[1]] is
    not one. *)
Lemma init_occurrence_count_unit_clause :
  ∃ s, SATSolver__init__ [[1]] {[1]} ∅ "vsids" "none" 500 = Ok s
       ∧ occurrences s 1 ≠ Z.of_nat (containing 1 [[1]]).
Proof. eexists; split; [reflexivity|]. vm_compute. discriminate. Qed.

(** * Watch sets *)

Lemma watchers_set_sentinels W s l :
  watchers (set_sentinels W s) l = default ∅ (W !! l).
Proof. reflexivity. Qed.

Lemma watchers_sentinel_add lit i s l :
  watchers (sentinel_add lit i s) l
  = if decide (l = lit) then {[i]} ∪ watchers s lit else watchers s l.
Proof.
  unfold sentinel_add. rewrite watchers_set_sentinels.
  case_decide; [subst; by rewrite lookup_insert_eq | by rewrite lookup_insert_ne].
Qed.

Lemma sentinel_remove_Ok lit i s s' :
  sentinel_remove lit i s = Ok s' →
  i ∈ watchers s lit
  ∧ s' = set_sentinels (<[lit := watchers s lit ∖ {[i]}]> (sentinels s)) s.
Proof. unfold sentinel_remove. case_decide; [|done]. by intros [= <-]. Qed.

Lemma watchers_removed lit i s l :
  watchers (set_sentinels (<[lit := watchers s lit ∖ {[i]}]> (sentinels s)) s) l
  = if decide (l = lit) then (watchers s lit ∖ {[i]}) else watchers s l.
Proof.
  rewrite watchers_set_sentinels.
  case_decide; [subst; by rewrite lookup_insert_eq | by rewrite lookup_insert_ne].
Qed.

Lemma watchers_move_watch old new cls s l :
  watchers (move_watch old new cls s) l
  = if decide (l = new)
    then {[cls]} ∪ (if decide (new = old) then (watchers s old ∖ {[cls]})
                    else watchers s new)
    else (if decide (l = old) then (watchers s old ∖ {[cls]}) else watchers s l).
Proof.
  unfold move_watch. rewrite watchers_sentinel_add, !watchers_removed.
  repeat case_decide; congruence.
Qed.

(** What the inner loop of [_assign_literal] does on the literals [lits]. *)
Lemma seek_sentinel_Ok lit cls lits other s r s' :
  seek_sentinel lit cls lits other s = Ok (r, s') →
  (∃ new, new ∈ lits ∧ new ≠ - lit ∧ cls ∉ watchers s new ∧ unmarked s new
          ∧ cls ∈ watchers s (- lit) ∧ r = None ∧ s' = move_watch (- lit) new cls s)
  ∨ (s' = s
     ∧ (∀ x, x ∈ lits → x ≠ - lit → cls ∈ watchers s x ∨ marked s x)
     ∧ ((r = other ∧ ∀ x, x ∈ lits → x ≠ - lit → cls ∉ watchers s x)
        ∨ (∃ o, r = Some o ∧ o ∈ lits ∧ o ≠ - lit ∧ cls ∈ watchers s o))).
Proof.
  revert other; induction lits as [|x lits IH]; intros other Hrun; simpl in Hrun.
  - inversion Hrun; subst. right. split; [done|]. split; [|left; split; [done|]];
      intros x Hx; by apply elem_of_nil in Hx.
  - destruct (decide (x ≠ - lit)) as [Hx|Hx].
    + unfold _is_sentinel in Hrun.
      destruct (bool_decide (cls ∈ watchers s x)) eqn:Hw.
      * apply bool_decide_eq_true in Hw.
        apply IH in Hrun as [(new & ? & ? & ? & ? & ? & ? & ?)|(-> & Hall & Hr)].
        { left. exists new. split_and!; try done. by right. }
        right. split; [done|]. split.
        { intros y [->|Hy]%elem_of_cons ?; [by left | by apply Hall]. }
        right. destruct Hr as [[-> _]|(o & -> & ? & ? & ?)].
        -- exists x. split_and!; [done | by left | done | done].
        -- exists o. split_and!; [done | by right | done | done].
      * apply bool_decide_eq_false in Hw.
        destruct (variable_set s !! var_index x) as [[|]|] eqn:Hv; [| |done].
        -- apply IH in Hrun as [(new & ? & ? & ? & ? & ? & ? & ?)|(-> & Hall & Hr)].
           { left. exists new. split_and!; try done. by right. }
           right. split; [done|]. split.
           { intros y [->|Hy]%elem_of_cons ?; [by right | by apply Hall]. }
           destruct Hr as [[-> Hno]|(o & -> & ? & ? & ?)].
           ++ left. split; [done|].
              intros y [->|Hy]%elem_of_cons ?; [done | by apply Hno].
           ++ right. exists o. split_and!; [done | by right | done | done].
        -- inv_bind Hrun. apply sentinel_remove_Ok in Ha as [Hin ->].
           inversion Hrun; subst. left. exists x.
           split_and!; try done. by left.
    + apply dec_stable in Hx. subst x.
      apply IH in Hrun as [(new & ? & ? & ? & ? & ? & ? & ?)|(-> & Hall & Hr)].
      { left. exists new. split_and!; try done. by right. }
      right. split; [done|]. split.
      { intros y [->|Hy]%elem_of_cons ?; [done | by apply Hall]. }
      destruct Hr as [[-> Hno]|(o & -> & ? & ? & ?)].
      * left. split; [done|].
        intros y [->|Hy]%elem_of_cons ?; [done | by apply Hno].
      * right. exists o. split_and!; [done | by right | done | done].
Qed.

Lemma clause_sat_Ok s cls b :
  _clause_sat s cls = Ok b →
  ∃ c, clauses s !! cls = Some c
       ∧ (b = true ↔ satisfied_by (var_settings s) c).
Proof.
  unfold _clause_sat, clause_at. destruct (clauses s !! cls) as [c|]; [|done].
  simpl. intros [= <-]. exists c. split; [done|].
  rewrite existsb_exists. unfold satisfied_by. split.
  - intros (t & Ht & Hb). exists t. split; [by apply list_elem_of_In|].
    by apply bool_decide_eq_true in Hb.
  - intros (t & Ht & HA). exists t. split; [by apply list_elem_of_In|].
    by apply bool_decide_eq_true.
Qed.

Lemma visit_sentinel_Ok lit s cls s' :
  visit_sentinel lit s cls = Ok s' → visit_effect lit cls s s'.
Proof.
  unfold visit_sentinel. intros Hrun. inv_bind Hrun.
  apply clause_sat_Ok in Ha as (c & Hc & Hsat).
  destruct a.
  - inversion Hrun; subst. eapply visit_satisfied; [done|]. by apply Hsat.
  - assert (¬ satisfied_by (var_settings s) c) as Hunsat by (intros H; by apply Hsat in H).
    unfold clause_at in Hrun. rewrite Hc in Hrun. simpl in Hrun.
    inv_bind Hrun. destruct a as [r s1].
    apply seek_sentinel_Ok in Ha
      as [(new & ? & ? & ? & ? & ? & -> & ->)|(-> & Hall & Hr)].
    + inversion Hrun; subst. by eapply visit_moved.
    + destruct Hr as [[-> Hno]|(o & -> & ? & ? & ?)].
      * inversion Hrun; subst. eapply visit_stuck; [done..|]. by left.
      * destruct (decide (o ≠ 0)) as [Ho|Ho]; inversion Hrun; subst.
        -- by eapply visit_unit.
        -- apply dec_stable in Ho. subst o.
           eapply visit_stuck; [done..|]. by right.
Qed.

(** * The watch invariant *)

Lemma visit_effect_clauses lit cls s s' :
  visit_effect lit cls s s' → clauses s' = clauses s.
Proof. by destruct 1. Qed.

Lemma visit_effect_grows lit cls s s' l :
  visit_effect lit cls s s' → l ≠ - lit → watchers s l ⊆ watchers s' l.
Proof.
  destruct 1; intros Hl; try done.
  rewrite watchers_move_watch. repeat case_decide; set_solver.
Qed.

Lemma visit_effect_watch_inv lit cls s s' :
  visit_effect lit cls s s' → watch_inv s → watch_inv s'.
Proof.
  destruct 1 as [| c new Hc Hunsat Hnew Hne Hnw Hun Hw | |]; try done.
  intros [Htwo Hsound]. split.
  - intros j cj Hj Hlen. simpl in Hj.
    destruct (Htwo j cj Hj Hlen) as (w1 & w2 & Hw12 & Hw1 & Hw2 & Hiff).
    destruct (decide (j = cls)) as [->|Hj'].
    + assert (cj = c) as -> by congruence.
      apply Hiff in Hw as Hw'.
      assert (new ≠ w1 ∧ new ≠ w2) as [??].
      { split; intros ->; apply Hnw, Hiff; auto. }
      destruct Hw' as [Heq|Heq].
      * exists new, w2. split_and!; try done.
        intros l. rewrite watchers_move_watch.
        specialize (Hiff l). repeat case_decide; set_solver.
      * exists w1, new. split_and!; try done.
        intros l. rewrite watchers_move_watch.
        specialize (Hiff l). repeat case_decide; set_solver.
    + exists w1, w2. split_and!; try done.
      intros l. rewrite watchers_move_watch.
      specialize (Hiff l). repeat case_decide; set_solver.
  - intros l j. rewrite watchers_move_watch. simpl.
    repeat case_decide; subst; intros Hin.
    + apply elem_of_union in Hin as [->%elem_of_singleton|Hin]; [eauto|].
      apply Hsound. set_solver.
    + apply elem_of_union in Hin as [->%elem_of_singleton|Hin]; [eauto|].
      by apply Hsound.
    + apply Hsound. set_solver.
    + by apply Hsound.
Qed.

Section Assign.

Context (iter_clauses : gset nat → list nat) (iter_literals : gset Z → list Z).

Lemma assign_literal_Ok s lit s' :
  _assign_literal iter_clauses s lit = Ok s' →
  ∃ top rest, levels s = top :: rest
    ∧ (var_index lit < length (variable_set s))%nat
    ∧ for_each (visit_sentinel lit) (record_literal lit top s)
        (iter_clauses (watchers s (- lit))) = Ok s'.
Proof.
  unfold _assign_literal, _current_level, mark_variable. simpl.
  destruct (levels s) as [|top rest] eqn:Hl; [done|]. simpl.
  case_decide as Hlt; [|done]. simpl. intros Hrun.
  exists top, rest. split_and!; [done | done |].
  unfold record_literal. by rewrite Hl.
Qed.

Lemma assign_literal_watch_inv s lit s' :
  watch_inv s → _assign_literal iter_clauses s lit = Ok s' → watch_inv s'.
Proof.
  intros Hinv (top & rest & _ & _ & Hrun)%assign_literal_Ok.
  eapply (for_each_invariant watch_inv); [| |exact Hrun]; [|done].
  intros s1 cls s2 _ H1 Hv. apply visit_sentinel_Ok in Hv.
  by eapply visit_effect_watch_inv.
Qed.

(** C9.  A call of [_assign_literal] that returns leaves the clause store as
    it was, and the watch set of every literal other than [-lit] holds all it
    held before: clause indices leave the watch set of [-lit] only. *)
Theorem assign_literal_frame s lit s' :
  _assign_literal iter_clauses s lit = Ok s' →
  clauses s' = clauses s
  ∧ ∀ l, l ≠ - lit → watchers s l ⊆ watchers s' l.
Proof.
  intros (top & rest & _ & _ & Hrun)%assign_literal_Ok.
  eapply (for_each_invariant
            (λ s1, clauses s1 = clauses s
                   ∧ ∀ l, l ≠ - lit → watchers s l ⊆ watchers s1 l));
    [| |exact Hrun]; [|done].
  intros s1 cls s2 _ [Hc Hw] Hv. apply visit_sentinel_Ok in Hv. split.
  - by rewrite (visit_effect_clauses _ _ _ _ Hv).
  - intros l Hl. etrans; [by apply Hw|]. by eapply visit_effect_grows.
Qed.

End Assign.

(** * The heap *)

Lemma elem_of_heappush h x e : e ∈ heappush h x ↔ e = x ∨ e ∈ h.
Proof.
  induction h as [|y h IH]; simpl.
  - rewrite list_elem_of_singleton. set_solver.
  - destruct (entry_lt y x); rewrite !elem_of_cons, ?IH; naive_solver.
Qed.

(** * Undoing a level *)

Lemma mark_variable_Ok lit b s s' :
  mark_variable lit b s = Ok s' →
  (var_index lit < length (variable_set s))%nat
  ∧ s' = set_variable_set (<[var_index lit := b]> (variable_set s)) s.
Proof. unfold mark_variable. case_decide; [|done]. by intros [= <-]. Qed.

Lemma vsids_lit_unset_Ok s lit s' :
  _vsids_lit_unset s lit = Ok s' →
  ∃ x y, lit_scores s !! Z.abs lit = Some x ∧ lit_scores s !! (- Z.abs lit) = Some y
    ∧ s' = set_lit_heap (heappush (heappush (lit_heap s) (x, Z.abs lit)) (y, - Z.abs lit)) s.
Proof.
  unfold _vsids_lit_unset, score_at. simpl.
  destruct (lit_scores s !! Z.abs lit) as [x|]; [|done]. simpl.
  destruct (lit_scores s !! (- Z.abs lit)) as [y|]; [|done]. simpl.
  intros [= <-]. by exists x, y.
Qed.

Lemma undone_nil s : undone [] s s.
Proof.
  split.
  - simpl. set_solver.
  - intros l Hl; by apply elem_of_nil in Hl.
  - done.
  - intros i. destruct (decide _) as [Hl|]; [|done]. by apply elem_of_nil in Hl.
  - intros l Hl; by apply elem_of_nil in Hl.
  - done.
  - auto.
  - intros l Hl; by apply elem_of_nil in Hl.
  - by destruct s.
Qed.

Lemma unset_literal_undone s lit s' : unset_literal s lit = Ok s' → undone [lit] s s'.
Proof.
  unfold unset_literal. case_decide as Hin; [|done]. intros Hrun.
  inv_bind Hrun. apply vsids_lit_unset_Ok in Ha as (x & y & Hx & Hy & ->).
  apply mark_variable_Ok in Hrun as [Hlt ->]. simpl in *.
  split; simpl.
  - set_solver.
  - intros l ->%list_elem_of_singleton. done.
  - by rewrite length_insert.
  - intros i. destruct (decide (var_index lit = i)) as [<-|Hne].
    + destruct (decide _) as [_|Hno]; [|by destruct Hno; left].
      rewrite decide_True by done. by apply list_lookup_insert_eq.
    + destruct (decide _) as [Hl|_]; [|by apply list_lookup_insert_ne].
      by apply list_elem_of_singleton in Hl.
  - intros l ->%list_elem_of_singleton. done.
  - intros e He. rewrite !elem_of_heappush. auto.
  - intros e. rewrite !elem_of_heappush. intros [->|[->|He]]; simpl.
    + right. exists lit. split; [by left | by right].
    + right. exists lit. split; [by left | by left].
    + by left.
  - intros l ->%list_elem_of_singleton. exists x, y.
    rewrite !elem_of_heappush. auto.
  - done.
Qed.

Lemma undone_app l1 l2 s1 s2 s3 :
  undone l1 s1 s2 → undone l2 s2 s3 → undone (l1 ++ l2) s1 s3.
Proof.
  intros H1 H2. split.
  - rewrite (undone_var_settings _ _ _ H2), (undone_var_settings _ _ _ H1).
    rewrite list_to_set_app_L. set_solver.
  - intros l [Hl|Hl]%elem_of_app; [by eapply undone_subset|].
    eapply undone_subset in Hl; [|done].
    rewrite (undone_var_settings _ _ _ H1) in Hl. set_solver.
  - rewrite (undone_length _ _ _ H2). by eapply undone_length.
  - intros i. rewrite (undone_variable_set _ _ _ H2), (undone_variable_set _ _ _ H1).
    rewrite (undone_length _ _ _ H1).
    rewrite fmap_app.
    destruct (decide (i ∈ var_index <$> l2)) as [Hi2|Hno2];
      destruct (decide (i ∈ var_index <$> l1)) as [Hi1|Hno1];
      destruct (decide (i ∈ _ ++ _)) as [Hi|Hno]; try done.
    + destruct Hno. apply elem_of_app; auto.
    + destruct Hno. apply elem_of_app; auto.
    + destruct Hno. apply elem_of_app; auto.
    + apply elem_of_app in Hi as [?|?]; done.
  - intros l [Hl|Hl]%elem_of_app; [by eapply undone_range|].
    rewrite <- (undone_length _ _ _ H1). by eapply undone_range.
  - intros e He. eapply undone_heap_old; [done|]. by eapply undone_heap_old.
  - intros e He. eapply undone_heap_new in He as [He|(l & Hl & He)]; [| |done].
    + eapply undone_heap_new in He as [He|(l & Hl & He)]; [by left| |done].
      right. exists l. split; [|done]. apply elem_of_app; auto.
    + right. exists l. split; [|done]. apply elem_of_app; auto.
  - intros l [Hl|Hl]%elem_of_app.
    + destruct (undone_heap_pushed _ _ _ H1 l Hl) as (x & y & Hx & Hy).
      exists x, y. split; by eapply undone_heap_old.
    + by eapply undone_heap_pushed.
  - rewrite (undone_frame _ _ _ H2) at 1. rewrite (undone_frame _ _ _ H1) at 1. done.
Qed.

Lemma for_each_unset_undone ls s s' :
  for_each unset_literal s ls = Ok s' → undone ls s s'.
Proof.
  revert s; induction ls as [|l ls IH]; intros s Hrun; simpl in Hrun.
  - inversion Hrun; subst. apply undone_nil.
  - inv_bind Hrun. apply unset_literal_undone in Ha. apply IH in Hrun.
    by apply (undone_app [l] ls s a s').
Qed.

Section Undo.

Context (iter_literals : gset Z → list Z).

Lemma undo_Ok s s' :
  _undo iter_literals s = Ok s' →
  ∃ top rest s1, levels s = top :: rest
    ∧ undone (iter_literals (Level.var_settings top)) s s1
    ∧ s' = set_levels rest s1.
Proof.
  unfold _undo, _current_level.
  destruct (levels s) as [|top rest] eqn:Hl; [done|]. simpl. intros Hrun.
  inv_bind Hrun. apply for_each_unset_undone in Ha.
  exists top, rest, a. split_and!; [done | done |].
  assert (levels a = levels s) as Hla by (by rewrite (undone_frame _ _ _ Ha)).
  rewrite Hla, Hl in Hrun. by inversion Hrun.
Qed.

Lemma undone_watch_inv ls s s' : undone ls s s' → watch_inv s → watch_inv s'.
Proof. intros H. rewrite (undone_frame _ _ _ H). done. Qed.

Lemma undo_watch_inv s s' :
  watch_inv s → _undo iter_literals s = Ok s' → watch_inv s'.
Proof.
  intros Hinv (top & rest & s1 & _ & Hun & ->)%undo_Ok.
  by eapply (undone_watch_inv _ s s1).
Qed.

End Undo.

(** * Learned clauses *)

Lemma count_occurrence_frame s lit :
  count_occurrence s lit = set_occurrence_count (occurrence_count (count_occurrence s lit)) s.
Proof. reflexivity. Qed.

Lemma foldl_count_frame c s :
  foldl count_occurrence s c
  = set_occurrence_count (occurrence_count (foldl count_occurrence s c)) s.
Proof.
  revert s; induction c as [|x c IH]; intros s; simpl; [by destruct s|].
  rewrite IH at 1. by destruct s.
Qed.

Lemma vsids_clause_added_frame s cls s' :
  _vsids_clause_added s cls = Ok s' →
  s' = set_lit_scores (lit_scores s')
         (set_num_learned_clauses (num_learned_clauses s') s).
Proof.
  unfold _vsids_clause_added. intros Hrun.
  eapply (for_each_invariant
            (λ s1, s1 = set_lit_scores (lit_scores s1)
                          (set_num_learned_clauses (num_learned_clauses s1) s)));
    [| |exact Hrun]; [|by destruct s].
  intros s1 x s2 _ Hs1 Hb. unfold vsids_bump, score_at in Hb.
  destruct (lit_scores s1 !! x); [|done]. simpl in Hb. inversion Hb; subst.
  rewrite Hs1 at 2. done.
Qed.

(** The state of the watch sets and of the store after a clause is learned. *)
Lemma watchers_ext s1 s2 l : sentinels s1 = sentinels s2 → watchers s1 l = watchers s2 l.
Proof. unfold watchers. by intros ->. Qed.

Lemma simple_add_learned_clause_Ok s cls s' :
  _simple_add_learned_clause s cls = Ok s' →
  ∃ first, head cls = Some first
    ∧ clauses s' = clauses s ++ [cls]
    ∧ _unit_prop_queue s' = _unit_prop_queue s
    ∧ ∀ l, watchers s' l
           = if decide (l = first ∨ l = List.last cls 0)
             then {[length (clauses s)]} ∪ watchers s l else watchers s l.
Proof.
  unfold _simple_add_learned_clause.
  destruct cls as [|first rest] eqn:Hcls; [done|]. rewrite <- Hcls.
  set (s0 := foldl count_occurrence (set_clauses (clauses s ++ [cls]) s) cls).
  set (s1 := sentinel_add first (length (clauses s)) s0).
  set (s2 := sentinel_add (List.last cls 0) (length (clauses s)) s1).
  intros Hrun. apply vsids_clause_added_frame in Hrun.
  assert (s0 = set_occurrence_count (occurrence_count s0)
                 (set_clauses (clauses s ++ [cls]) s)) as Hs0
    by apply foldl_count_frame.
  exists first. split; [by rewrite Hcls|].
  rewrite Hrun. simpl. rewrite Hs0. simpl.
  split_and!; [done | done |].
  intros l. rewrite (watchers_ext _ s2) by done.
  unfold s2, s1. rewrite !watchers_sentinel_add.
  rewrite !(watchers_ext s0 s) by (by rewrite Hs0).
  clear Hrun Hs0. clearbody s0. clear s1 s2.
  generalize (List.last cls 0). intros z.
  repeat case_decide; try done; try (exfalso; naive_solver);
    repeat match goal with H : _ = _ |- _ => rewrite H end; set_solver.
Qed.

Lemma last_singleton (x d : Z) : List.last [x] d = x.
Proof. reflexivity. Qed.

(** C10.  [_simple_add_learned_clause] called with a one-literal clause
    [[x]] appends it to the clause store; its index enters the watch set of
    [x] and of no other literal; the unit-propagation queue is left as it
    was.  [_initialize_clauses], by contrast, queues the literal of a
    one-literal clause and installs no watch. *)
Theorem learned_unit_clause_not_queued s x s' :
  _simple_add_learned_clause s [x] = Ok s' →
  clauses s' = clauses s ++ [[x]]
  ∧ (∀ l, length (clauses s) ∈ watchers s' l
          ↔ l = x ∨ length (clauses s) ∈ watchers s l)
  ∧ watchers s' x = {[length (clauses s)]} ∪ watchers s x
  ∧ (∀ l, l ≠ x → watchers s' l = watchers s l)
  ∧ _unit_prop_queue s' = _unit_prop_queue s
  ∧ ∀ s0 i, ∃ s1, initialize_clause s0 (i, [x]) = Ok s1
                  ∧ _unit_prop_queue s1 = x :: _unit_prop_queue s0
                  ∧ sentinels s1 = sentinels s0.
Proof.
  intros (first & Hfirst & Hc & Hq & Hw)%simple_add_learned_clause_Ok.
  simpl in Hfirst. inversion Hfirst; subst first. rewrite last_singleton in Hw.
  split_and!; [done | | | | done |].
  - intros l. rewrite Hw. case_decide; set_solver.
  - rewrite Hw. by rewrite decide_True by auto.
  - intros l Hl. rewrite Hw. rewrite decide_False; [done|]. naive_solver.
  - intros s0 i. eexists. split; [reflexivity|]. done.
Qed.

(** * Initialisation of the clause store *)

Lemma initialized_nil k s : initialized k [] s s.
Proof.
  split.
  - constructor.
  - done.
  - intros l i. split; [auto|]. intros [?|(c & _ & Hc & _)]; [done|].
    by rewrite lookup_nil in Hc.
  - by destruct s.
Qed.

Lemma initialize_clause_initialized s k c s' :
  initialize_clause s (k, c) = Ok s' → initialized k [c] s s'.
Proof.
  destruct c as [|x [|y c]]; simpl; [done| |]; intros [= <-].
  - split.
    + by repeat constructor.
    + done.
    + intros l i. split; [auto|]. intros [?|(c & Hk & Hc & Hlen & _)]; [done|].
      apply list_lookup_singleton_Some in Hc as [_ <-]. done.
    + done.
  - set (c' := x :: y :: c).
    set (s1 := sentinel_add (List.last c' 0) k (sentinel_add x k s)).
    assert (foldl count_occurrence s1 c'
            = set_occurrence_count (occurrence_count (foldl count_occurrence s1 c')) s1)
      as Hf by apply foldl_count_frame.
    change (foldl count_occurrence _ c) with (foldl count_occurrence s1 c').
    split.
    + by repeat constructor.
    + rewrite Hf. done.
    + intros l i. rewrite (watchers_ext _ s1) by (by rewrite Hf).
      unfold s1. rewrite !watchers_sentinel_add.
      assert ((∃ c0, (k ≤ i)%nat ∧ [c'] !! (i - k)%nat = Some c0
                     ∧ length c0 ≠ 1%nat ∧ ends c0 l)
              ↔ i = k ∧ (l = x ∨ l = List.last c' 0)) as ->.
      { split.
        - intros (c0 & Hk & Hc & _ & He).
          apply list_lookup_singleton_Some in Hc as [Hik <-].
          split; [lia|]. destruct He as [[= <-]|[_ <-]]; auto.
        - intros [-> Hl]. exists c'. rewrite Nat.sub_diag.
          split_and!; [done | done | done |].
          destruct Hl as [->| ->]; [by left | by right]. }
      generalize (List.last c' 0). intros z. clear.
      repeat case_decide; rewrite ?elem_of_union, ?elem_of_singleton;
        try naive_solver.
    + rewrite Hf. done.
Qed.

Lemma unit_literals_cons c cls :
  unit_literals (c :: cls)
  = (if decide (length c = 1%nat) then c else []) ++ unit_literals cls.
Proof. unfold unit_literals. rewrite filter_cons. by case_decide. Qed.

Lemma initialized_cons k c cls s1 s2 s3 :
  initialized k [c] s1 s2 → initialized (S k) cls s2 s3 →
  initialized k (c :: cls) s1 s3.
Proof.
  intros H1 H2. split.
  - constructor; [|by eapply initialized_nonempty].
    pose proof (initialized_nonempty _ _ _ _ H1) as Hc.
    by apply Forall_cons in Hc as [Hc _].
  - rewrite (initialized_queue _ _ _ _ H2), (initialized_queue _ _ _ _ H1).
    rewrite !unit_literals_cons. unfold unit_literals at 2. simpl.
    rewrite app_nil_r, reverse_app, app_assoc. done.
  - intros l i.
    rewrite (initialized_watchers _ _ _ _ H2), (initialized_watchers _ _ _ _ H1).
    split.
    + intros [[?|(c0 & Hk & Hc & ? & ?)]|(c0 & Hk & Hc & ? & ?)]; [by left| |].
      * apply list_lookup_singleton_Some in Hc as [Hik <-].
        right. exists c. replace (i - k)%nat with 0%nat by lia. by split_and!; [lia|..].
      * right. exists c0. replace (i - k)%nat with (S (i - S k)) by lia.
        by split_and!; [lia|..].
    + intros [?|(c0 & Hk & Hc & ? & ?)]; [by left; left|].
      destruct (i - k)%nat as [|n] eqn:Hn; simpl in Hc.
      * inversion Hc; subst c0. left. right. exists c. by split_and!.
      * right. exists c0. replace (i - S k)%nat with n by lia. by split_and!; [lia|..].
  - rewrite (initialized_frame _ _ _ _ H2) at 1.
    rewrite (initialized_frame _ _ _ _ H1) at 1. done.
Qed.

Lemma initialize_loop_initialized cls k s s' :
  for_each initialize_clause s (imap (λ i c, ((k + i)%nat, c)) cls) = Ok s' →
  initialized k cls s s'.
Proof.
  revert k s; induction cls as [|c cls IH]; intros k s Hrun.
  - inversion Hrun; subst. apply initialized_nil.
  - simpl in Hrun. inv_bind Hrun. rewrite Nat.add_0_r in Ha.
    apply initialize_clause_initialized in Ha.
    eapply initialized_cons; [done|]. apply IH.
    erewrite imap_ext; [exact Hrun|]. intros i x _. simpl. f_equal. lia.
Qed.

Lemma initialize_clauses_Ok cls s s' :
  _initialize_clauses cls s = Ok s' → initialized 0 cls (set_clauses cls s) s'.
Proof. intros Hrun. by apply (initialize_loop_initialized cls 0). Qed.

(** The fields that [_vsids_init] leaves alone. *)
Lemma vsids_init_frame s :
  _vsids_init s = set_lit_scores (lit_scores (_vsids_init s))
                    (set_lit_heap (lit_heap (_vsids_init s)) s).
Proof.
  unfold _vsids_init.
  apply (foldl_invariant
           (λ s1, s1 = set_lit_scores (lit_scores s1) (set_lit_heap (lit_heap s1) s)));
    [|by destruct s].
  intros s1 x _ H.
  assert (vsids_init_var s1 x
          = set_lit_scores (lit_scores (vsids_init_var s1 x))
              (set_lit_heap (lit_heap (vsids_init_var s1 x)) s1)) as Hv by done.
  rewrite Hv at 1.
  generalize (lit_scores (vsids_init_var s1 x)) (lit_heap (vsids_init_var s1 x)).
  intros sc hp. rewrite H. done.
Qed.

(** The state in which [__init__] leaves the solver. *)
Lemma init_Ok cls vars S I s :
  SATSolver__init__ cls vars S "vsids" "none" I = Ok s →
  ∃ s1, initialized 0 cls
          (set_clauses cls
             (_initialize_variables vars
                (mkSATSolver S "vsids" false [] [] I ∅ ∅ [] [] [] ∅ None None [] 0 0 0)))
          s1
    ∧ s = set_original_num_clauses (length cls)
            (set_levels [Level.mk 0 ∅ false (Some S)]
               (set_learning None None (_vsids_init s1))).
Proof.
  unfold SATSolver__init__. intros Hrun. inv_bind Hrun.
  apply initialize_clauses_Ok in Ha. exists a. split; [done|].
  change (String.eqb "vsids" "vsids") with true in Hrun.
  change (String.eqb "simple" "none") with false in Hrun.
  change (String.eqb "none" "none") with true in Hrun.
  cbv beta iota delta [mbind result_bind] in Hrun.
  inversion Hrun; subst; clear Hrun.
  assert (clauses (_vsids_init a) = cls
          ∧ num_decisions (_vsids_init a) = 0
          ∧ num_learned_clauses (_vsids_init a) = 0) as (Hc & Hd & Hn).
  { rewrite vsids_init_frame, (initialized_frame _ _ _ _ Ha). done. }
  destruct (_vsids_init a). simpl in *. by subst.
Qed.

(** * The loop of [_assign_literal] *)

Lemma watches_stored_sound s : watches_stored s → watch_sound s.
Proof. intros H l i Hi. destruct (H l i Hi) as (c & ? & ? & _). eauto. Qed.

Lemma seek_sentinel_total lit cls lits other s :
  (∀ x, x ∈ lits → (var_index x < length (variable_set s))%nat) →
  cls ∈ watchers s (- lit) →
  ∃ r s', seek_sentinel lit cls lits other s = Ok (r, s').
Proof.
  intros Hidx Hw. revert other.
  induction lits as [|x lits IH]; intros other; simpl; [eauto|].
  assert (∀ other, ∃ r s', seek_sentinel lit cls lits other s = Ok (r, s')) as IH'.
  { apply IH. intros y Hy. apply Hidx. by right. }
  case_decide; [|done].
  destruct (_is_sentinel s x cls); [done|].
  destruct (lookup_lt_is_Some_2 (variable_set s) (var_index x)) as [b Hb].
  { apply Hidx. by left. }
  rewrite Hb. destruct b; [done|].
  unfold sentinel_remove. rewrite decide_True by done. simpl. eauto.
Qed.

Lemma visit_sentinel_total lit s cls :
  watches_stored s → literals_indexed s → cls ∈ watchers s (- lit) →
  ∃ s', visit_sentinel lit s cls = Ok s'.
Proof.
  intros Hst Hidx Hw. destruct (Hst _ _ Hw) as (c & Hc & _ & _).
  unfold visit_sentinel, _clause_sat, clause_at. rewrite Hc. simpl.
  destruct (existsb _ c); [eauto|].
  destruct (seek_sentinel_total lit cls c None s) as (r & s' & ->); [|done|].
  { intros x Hx. by eapply Hidx. }
  simpl. destruct r as [o|]; [|eauto]. case_decide; eauto.
Qed.

Lemma visit_step lit s cls :
  two_watches s → watches_stored s → literals_indexed s →
  cls ∈ watchers s (- lit) →
  ∃ s', visit_sentinel lit s cls = Ok s' ∧ visited lit [cls] s s'.
Proof.
  intros Htwo Hst Hidx Hw.
  destruct (visit_sentinel_total lit s cls) as [s' Hrun]; [done..|].
  exists s'. split; [done|]. apply visit_sentinel_Ok in Hrun as Heff.
  assert (watch_inv s') as [Htwo' _].
  { eapply visit_effect_watch_inv; [done|]. split; [done|]. by apply watches_stored_sound. }
  destruct Heff as [c Hc Hsat|c new Hc Hunsat Hnew Hne Hnw Hun _
                    |c o Hc Hunsat Hall Ho Hone Hwo Ho0|c Hc Hunsat Hall Hno].
  - (* satisfied *)
    split.
    + by destruct s.
    + exists []. split; [done|]. intros o Ho. by apply elem_of_nil in Ho.
    + done.
    + auto.
    + done.
    + intros i ->%list_elem_of_singleton _. exists c. split; [done|]. by left.
    + done.
    + done.
    + done.
  - (* moved *)
    split.
    + done.
    + exists []. split; [done|]. intros o Ho. by apply elem_of_nil in Ho.
    + intros i Hi x. rewrite watchers_move_watch.
      assert (i ≠ cls) by (intros ->; apply Hi; by left).
      repeat case_decide; set_solver.
    + intros i l. rewrite watchers_move_watch.
      repeat case_decide; subst; set_solver.
    + intros i l Hi Hl. rewrite watchers_move_watch. repeat case_decide; set_solver.
    + intros i ->%list_elem_of_singleton. rewrite watchers_move_watch.
      repeat case_decide; set_solver.
    + intros i. rewrite watchers_move_watch. repeat case_decide; set_solver.
    + done.
    + intros l i. rewrite watchers_move_watch.
      destruct (Hst _ _ Hw) as (c' & Hc' & _ & Hlen).
      assert (c' = c) as -> by congruence.
      repeat case_decide; subst.
      * intros [->%elem_of_singleton|Hi]%elem_of_union; [by exists c|].
        apply Hst. set_solver.
      * intros [->%elem_of_singleton|Hi]%elem_of_union; [by exists c|].
        by apply Hst.
      * intros Hi. apply Hst. set_solver.
      * apply Hst.
  - (* the other watch is queued *)
    split.
    + done.
    + exists [o]. split; [done|].
      intros o' ->%list_elem_of_singleton. exists cls, c.
      split_and!; try done. by left.
    + done.
    + auto.
    + done.
    + intros i ->%list_elem_of_singleton _. exists c. split; [done|].
      right. exists o. split; [by left | done].
    + done.
    + done.
    + done.
  - (* no other watch: excluded by the watch invariant *)
    exfalso. destruct (Hst _ _ Hw) as (c' & Hc' & _ & Hlen).
    assert (c' = c) as -> by congruence.
    destruct (Htwo cls c Hc Hlen) as (w1 & w2 & Hw12 & Hw1 & Hw2 & Hiff).
    destruct Hno as [Hno|[H0 _]]; [|by destruct (Hidx cls c 0 Hc H0)].
    destruct (decide (w1 = - lit)) as [->|Hne1].
    + apply (Hno w2); [done | congruence | apply Hiff; auto].
    + apply (Hno w1); [done | done | apply Hiff; auto].
Qed.

Lemma visited_nil lit s :
  two_watches s → watches_stored s → visited lit [] s s.
Proof.
  intros Htwo Hst. split.
  - by destruct s.
  - exists []. split; [done|]. intros o Ho. by apply elem_of_nil in Ho.
  - done.
  - auto.
  - done.
  - intros i Hi. by apply elem_of_nil in Hi.
  - done.
  - done.
  - done.
Qed.

Lemma visited_fields lit ls s s' :
  visited lit ls s s' →
  clauses s' = clauses s ∧ var_settings s' = var_settings s
  ∧ variable_set s' = variable_set s.
Proof. intros H. rewrite (visited_frame _ _ _ _ H). done. Qed.

Lemma visited_cons lit cls ls s s1 s' :
  visited lit [cls] s s1 → visited lit ls s1 s' → cls ∉ ls →
  visited lit (cls :: ls) s s'.
Proof.
  intros H1 H2 Hcls.
  destruct (visited_fields _ _ _ _ H1) as (Hc1 & HA1 & HV1).
  assert (∀ x, marked s1 x ↔ marked s x) as Hm by (intros x; unfold marked; by rewrite HV1).
  assert (∀ x, unmarked s1 x ↔ unmarked s x) as Hum
    by (intros x; unfold unmarked; by rewrite HV1).
  split.
  - rewrite (visited_frame _ _ _ _ H2) at 1.
    rewrite (visited_frame _ _ _ _ H1) at 1. done.
  - destruct (visited_queue _ _ _ _ H1) as (new1 & Hq1 & Hn1).
    destruct (visited_queue _ _ _ _ H2) as (new2 & Hq2 & Hn2).
    exists (new2 ++ new1). split; [by rewrite Hq2, Hq1, app_assoc|].
    intros o [Ho|Ho]%elem_of_app.
    + destruct (Hn2 o Ho) as (i & c & Hi & Hc & Hw & Hwo & ? & ? & Hunsat & Hall).
      exists i, c. rewrite <- HA1, <- Hc1. split_and!; try done; [by right|].
      intros x Hx Hne. destruct (Hall x Hx Hne) as [?|?]; [by left|right; by apply Hm].
    + destruct (Hn1 o Ho) as (i & c & Hi & Hc & Hw & Hwo & ? & ? & Hunsat & Hall).
      apply list_elem_of_singleton in Hi as ->.
      exists cls, c. split_and!; try done; [by left | | |].
      * by apply (visited_other _ _ _ _ H2).
      * by apply (visited_other _ _ _ _ H2).
      * intros x Hx Hne. destruct (Hall x Hx Hne) as [?|?]; [left|by right].
        by apply (visited_other _ _ _ _ H2).
  - intros i Hi x. rewrite (visited_other _ _ _ _ H2), (visited_other _ _ _ _ H1); [done| |].
    + intros ->%list_elem_of_singleton. apply Hi. by left.
    + intros ?. apply Hi. by right.
  - intros i l Hi. apply (visited_new _ _ _ _ H2) in Hi as [Hi|(Hu & Hne & c & Hc & Hl)].
    + by apply (visited_new _ _ _ _ H1).
    + right. split_and!; [by apply Hum | done |]. exists c. by rewrite <- Hc1.
  - intros i l Hi Hl. apply (visited_old _ _ _ _ H2); [|done].
    by apply (visited_old _ _ _ _ H1).
  - intros i Hi Hw. destruct (decide (i ∈ ls)) as [Hin|Hnin].
    + destruct (visited_lit _ _ _ _ H2 i Hin Hw) as (c & Hc & Hcov).
      exists c. by rewrite <- Hc1, <- HA1.
    + assert (i = cls) as -> by set_solver.
      apply (visited_other _ _ _ _ H2) in Hw; [|done].
      destruct (visited_lit _ _ _ _ H1 cls) as (c & Hc & Hcov); [by left | done |].
      exists c. split; [done|].
      destruct (visited_queue _ _ _ _ H2) as (new2 & Hq2 & _).
      destruct Hcov as [?|(o & Ho & Hoc)]; [by left|].
      right. exists o. split; [|done]. rewrite Hq2. apply elem_of_app. by right.
  - intros i Hi. apply (visited_lit_old _ _ _ _ H1).
    by apply (visited_lit_old _ _ _ _ H2).
  - apply (visited_two_watches _ _ _ _ H2).
  - apply (visited_stored _ _ _ _ H2).
Qed.

Lemma visit_loop lit ls s :
  NoDup ls → two_watches s → watches_stored s → literals_indexed s →
  (∀ i, i ∈ ls → i ∈ watchers s (- lit)) →
  ∃ s', for_each (visit_sentinel lit) s ls = Ok s' ∧ visited lit ls s s'.
Proof.
  intros Hnd. revert s. induction Hnd as [|cls ls Hcls Hnd IH];
    intros s Htwo Hst Hidx Hw.
  - exists s. split; [done|]. by apply visited_nil.
  - destruct (visit_step lit s cls) as (s1 & Hrun & H1); [done..| |].
    { apply Hw. by left. }
    destruct (visited_fields _ _ _ _ H1) as (Hc1 & HA1 & HV1).
    destruct (IH s1) as (s' & Hrun' & H2).
    + apply (visited_two_watches _ _ _ _ H1).
    + apply (visited_stored _ _ _ _ H1).
    + intros i c x. rewrite Hc1, HV1. apply Hidx.
    + intros i Hi. apply (visited_other _ _ _ _ H1).
      * intros ->%list_elem_of_singleton. done.
      * apply Hw. by right.
    + exists s'. split; [simpl; by rewrite Hrun|]. by eapply visited_cons.
Qed.

(** * Literals, valuations and assignments *)

Lemma var_index_eq l l' : var_index l = var_index l' ↔ l = l' ∨ l = - l'.
Proof. unfold var_index. lia. Qed.

Lemma in_range_neg N l : in_range N l ↔ in_range N (- l).
Proof. unfold in_range. lia. Qed.

Lemma in_range_index N l : in_range N l → (var_index l < S N)%nat.
Proof. unfold in_range, var_index. lia. Qed.

Lemma lit_true_neg M l : l ≠ 0 → lit_true M (- l) ↔ ¬ lit_true M l.
Proof.
  intros Hl. unfold lit_true.
  destruct (decide (0 < - l)), (decide (0 < l)); try lia.
  - destruct (M (- l)); naive_solver.
  - rewrite Z.opp_involutive. destruct (M l); naive_solver.
Qed.

Lemma lit_true_dec M l : Decision (lit_true M l).
Proof. unfold lit_true. case_decide; apply _. Qed.

Lemma assigned_cons top low :
  assigned (top :: low) = Level.var_settings top ∪ assigned low.
Proof. reflexivity. Qed.

Lemma assigned_nil : assigned [] = ∅.
Proof. reflexivity. Qed.

Lemma agrees_cons M top low :
  agrees M (top :: low)
  ↔ (Level.flipped top = false → Level.decision top ≠ 0 →
     lit_true M (Level.decision top))
    ∧ agrees M low.
Proof.
  unfold agrees. split.
  - intros H. split; [apply H; by left|]. intros L HL. apply H. by right.
  - intros [H1 H2] L [->|HL]%elem_of_cons; [done | by apply H2].
Qed.

Lemma well_formed_lookup N F i c :
  well_formed N F → F !! i = Some c →
  c ≠ [] ∧ NoDup c ∧ ∀ x, x ∈ c → in_range N x.
Proof.
  intros Hwf Hc. eapply Forall_lookup_1 in Hwf as (? & ? & Hr & _); [|done].
  split_and!; [done | done |]. by apply Forall_forall.
Qed.

(** * [_assign_literal] as a whole *)

Section AssignPost.

Context (iter_clauses : gset nat → list nat).
Hypothesis iter_clauses_permutation : ∀ X, iter_clauses X ≡ₚ elements X.

Lemma assign_literal_post s lit top rest :
  levels s = top :: rest →
  two_watches s → watches_stored s → literals_indexed s →
  (var_index lit < length (variable_set s))%nat →
  ∃ s', _assign_literal iter_clauses s lit = Ok s' ∧ assign_post lit top s s'.
Proof.
  intros Hl Htwo Hst Hidx Hlt.
  set (s1 := record_literal lit top s).
  destruct (visit_loop lit (iter_clauses (watchers s (- lit))) s1)
    as (s' & Hrun & Hv).
  - rewrite iter_clauses_permutation. apply NoDup_elements.
  - done.
  - done.
  - intros i c x. unfold s1. simpl. rewrite length_insert. apply Hidx.
  - intros i. rewrite iter_clauses_permutation, elem_of_elements. done.
  - exists s'. split.
    + unfold _assign_literal, _current_level, mark_variable. simpl. rewrite Hl. simpl.
      rewrite decide_True by done. simpl.
      unfold s1, record_literal in Hrun. rewrite Hl in Hrun. exact Hrun.
    + split.
      * apply (visited_frame _ _ _ _ Hv).
      * destruct (visited_queue _ _ _ _ Hv) as (new & Hq & Hn).
        exists new. split; [done|]. intros o Ho.
        destruct (Hn o Ho) as (i & c & _ & ? & ? & ? & ? & ? & ? & ?).
        exists i, c. by split_and!.
      * apply (visited_new _ _ _ _ Hv).
      * apply (visited_old _ _ _ _ Hv).
      * intros i Hi. apply (visited_lit_old _ _ _ _ Hv) in Hi as Hi'.
        split; [done|]. apply (visited_lit _ _ _ _ Hv); [|done].
        rewrite iter_clauses_permutation, elem_of_elements. done.
      * apply (visited_two_watches _ _ _ _ Hv).
      * apply (visited_stored _ _ _ _ Hv).
Qed.

End AssignPost.

(** * The invariant and [_assign_literal] *)

Lemma base_watches_stored N F s : base_inv N F s → watches_stored s.
Proof.
  intros Hb l i Hi. rewrite (inv_clauses _ _ _ Hb).
  by apply (inv_watch_sound _ _ _ Hb).
Qed.

Lemma base_literals_indexed N F s : base_inv N F s → literals_indexed s.
Proof.
  intros Hb i c x Hc Hx. rewrite (inv_clauses _ _ _ Hb) in Hc.
  destruct (well_formed_lookup N F i c (inv_formula _ _ _ Hb) Hc) as (_ & _ & Hr).
  destruct (Hr x Hx) as [H0 Habs]. split; [done|].
  rewrite (inv_variable_set _ _ _ Hb). by apply (in_range_index N).
Qed.

Lemma closed_mono s s' U :
  clauses s' = clauses s →
  (∀ i w, i ∈ watchers s' w → i ∈ watchers s w ∨ - w ∉ U) →
  closed s U → closed s' U.
Proof.
  intros Hc Hw Hcl i c Hi. rewrite Hc in Hi. destruct (Hcl i c Hi) as [H1 H2].
  split; [done|]. intros w Hw' HU. destruct (Hw i w Hw') as [?|?]; [eauto|done].
Qed.

Lemma assigned_suffix_subseteq top low : assigned low ⊆ assigned (top :: low).
Proof. rewrite assigned_cons. set_solver. Qed.

Lemma stack_inv_mono N F s s' lv :
  (∀ U, U ⊆ assigned lv → closed s U → closed s' U) →
  stack_inv N F s lv → stack_inv N F s' lv.
Proof.
  induction lv as [|top low IH]; intros Hmono; simpl; [done|].
  pose proof (assigned_suffix_subseteq top low) as Hsub.
  intros [Hlevel Hstack]. split.
  - destruct Hlevel as (Hdisj & Hroot & Hup). split_and!; [done | done |].
    intros Hne. destruct (Hup Hne) as (? & ? & ? & ? & Hcl & ? & ?).
    split_and!; try done. by apply Hmono.
  - apply IH; [|done]. intros U HU. apply Hmono. set_solver.
Qed.

Lemma marked_record N F s lit top l :
  base_inv N F s → in_range N lit → in_range N l →
  marked (record_literal lit top s) l
  ↔ l ∈ {[lit]} ∪ var_settings s ∨ - l ∈ {[lit]} ∪ var_settings s.
Proof.
  intros Hb Hlit Hl. unfold marked, record_literal. simpl.
  pose proof (inv_marked _ _ _ Hb l Hl) as Hm. unfold marked in Hm.
  pose proof (in_range_index N lit Hlit) as Hi.
  rewrite <- (inv_variable_set _ _ _ Hb) in Hi.
  destruct (decide (var_index lit = var_index l)) as [Heq|Hne].
  - rewrite Heq, list_lookup_insert_eq by (by rewrite <- Heq).
    apply var_index_eq in Heq. split; [|done]. intros _.
    destruct Heq as [->| ->]; [left|right]; set_solver.
  - rewrite list_lookup_insert_ne by done. rewrite Hm.
    assert (l ≠ lit ∧ - l ≠ lit) as [??].
    { split; intros <-; apply Hne, var_index_eq; [by left|right; lia]. }
    set_solver.
Qed.

Lemma unmarked_record N F s lit top l :
  base_inv N F s → in_range N lit → in_range N l →
  unmarked (record_literal lit top s) l →
  l ∉ {[lit]} ∪ var_settings s ∧ - l ∉ {[lit]} ∪ var_settings s.
Proof.
  intros Hb Hlit Hl Hun.
  assert (¬ marked (record_literal lit top s) l) as Hnm.
  { unfold marked, unmarked in *. by rewrite Hun. }
  rewrite (marked_record N F) in Hnm by done. naive_solver.
Qed.

(** A literal queued by [_assign_literal] holds in every model that makes
    the assignment true. *)
Lemma queued_literal_implied N F s lit top s' M i c o :
  base_inv N F s → in_range N lit → assign_post lit top s s' →
  models M F →
  (∀ l, l ∈ {[lit]} ∪ var_settings s → lit_true M l) →
  clauses s !! i = Some c →
  i ∈ watchers s' (- lit) → i ∈ watchers s' o → o ≠ - lit → o ∈ c →
  ¬ satisfied_by ({[lit]} ∪ var_settings s) c →
  (∀ x, x ∈ c → x ≠ - lit → i ∈ watchers s' x ∨ marked (record_literal lit top s) x) →
  lit_true M o.
Proof.
  intros Hb Hlit Hpost HM HA Hc Hwl Hwo Hone Hoc Hunsat Hall.
  assert (clauses s' = clauses s) as Hcs by (rewrite (assign_frame _ _ _ _ Hpost); done).
  rewrite (inv_clauses _ _ _ Hb) in Hc.
  destruct (well_formed_lookup N F i c (inv_formula _ _ _ Hb) Hc) as (_ & _ & Hr).
  destruct (HM c) as (t & Ht & Htrue); [by eapply list_elem_of_lookup_2|].
  destruct (decide (t = - lit)) as [->|Hne].
  { apply lit_true_neg in Htrue; [|by destruct Hlit]. destruct Htrue. apply HA. set_solver. }
  destruct (Hall t Ht Hne) as [Hwt|Hmt].
  - (* [t] is the other watch *)
    destruct (assign_stored _ _ _ _ Hpost _ _ Hwo) as (c' & Hc' & _ & Hlen).
    rewrite Hcs, (inv_clauses _ _ _ Hb) in Hc'. assert (c' = c) as -> by congruence.
    destruct (assign_two_watches _ _ _ _ Hpost i c) as (w1 & w2 & Hw12 & _ & _ & Hiff);
      [by rewrite Hcs, (inv_clauses _ _ _ Hb) | done |].
    apply Hiff in Hwl, Hwo, Hwt.
    assert (t = o) as -> by (destruct Hwl, Hwo, Hwt; congruence). done.
  - (* [t] is assigned, hence false *)
    apply (marked_record N F) in Hmt; [|done|done|by apply Hr].
    destruct Hmt as [Hin|Hin].
    + destruct Hunsat. by exists t.
    + apply HA in Hin. apply lit_true_neg in Hin; [done|]. by destruct (Hr t Ht).
Qed.

Lemma covered_step A lit Q new c :
  covered A (lit :: Q) c → covered ({[lit]} ∪ A) (new ++ Q) c.
Proof.
  intros [(t & Ht & HA)|(o & [->|Ho]%elem_of_cons & Hoc)].
  - left. exists t. set_solver.
  - left. exists lit. set_solver.
  - right. exists o. split; [|done]. apply elem_of_app. by right.
Qed.

Lemma assign_post_fields lit top s s' :
  assign_post lit top s s' →
  clauses s' = clauses s
  ∧ var_settings s' = {[lit]} ∪ var_settings s
  ∧ levels s' = Level.add lit top :: tail (levels s)
  ∧ variable_set s' = <[var_index lit := true]> (variable_set s)
  ∧ lit_heap s' = lit_heap s ∧ lit_scores s' = lit_scores s
  ∧ add_learned_clause s' = add_learned_clause s
  ∧ compute_conflict s' = compute_conflict s
  ∧ update_functions s' = update_functions s
  ∧ INTERVAL s' = INTERVAL s
  ∧ is_unsatisfied s' = is_unsatisfied s
  ∧ num_decisions s' = num_decisions s.
Proof. intros H. rewrite (assign_frame _ _ _ _ H). done. Qed.

Section Preserve.

Context (iter_clauses : gset nat → list nat).
Hypothesis iter_clauses_permutation : ∀ X, iter_clauses X ≡ₚ elements X.

Lemma assign_preserves N F s lit top rest :
  base_inv N F s →
  levels s = top :: rest →
  in_range N lit →
  - lit ∉ var_settings s →
  lit ∉ assigned rest →
  (∀ M, models M F → agrees M (levels s) → lit_true M lit) →
  (∀ q, q ∈ _unit_prop_queue s → in_range N q) →
  (∀ q, q ∈ _unit_prop_queue s → q ∉ assigned rest) →
  (∀ q, q ∈ _unit_prop_queue s →
        ∀ M, models M F → agrees M (levels s) → lit_true M q) →
  (∀ i c, F !! i = Some c →
     (length c = 1%nat → covered (var_settings s) (lit :: _unit_prop_queue s) c)
     ∧ ∀ w, i ∈ watchers s w → - w ∈ var_settings s →
            covered (var_settings s) (lit :: _unit_prop_queue s) c) →
  ∃ s', _assign_literal iter_clauses s lit = Ok s'
        ∧ assign_post lit top s s'
        ∧ base_inv N F s' ∧ queue_inv N F s'.
Proof.
  intros Hb Hl Hlit Hneg Hfresh Himp HQr HQf HQi Hcov.
  destruct (assign_literal_post iter_clauses iter_clauses_permutation s lit top rest)
    as (s' & Hrun & Hpost); [done | apply (inv_two_watches _ _ _ Hb)
                            | by eapply base_watches_stored
                            | by eapply base_literals_indexed | |].
  { rewrite (inv_variable_set _ _ _ Hb). by apply (in_range_index N). }
  exists s'. split; [done|]. split; [done|].
  destruct (assign_post_fields _ _ _ _ Hpost)
    as (Hc' & HA' & Hl' & HV' & Hh' & Hs' & Ha' & Hcc' & Hu' & HI' & _ & _).
  rewrite Hl in Hl'. simpl in Hl'.
  pose proof (inv_clauses _ _ _ Hb) as HF.
  pose proof (inv_assigned _ _ _ Hb) as HA. rewrite Hl, assigned_cons in HA.
  destruct (assign_queue _ _ _ _ Hpost) as (new & Hq' & Hnew).
  (* new watches sit on literals that are not assigned *)
  assert (∀ i w, i ∈ watchers s' w → i ∈ watchers s w ∨ - w ∉ var_settings s') as Hwnew.
  { intros i w Hw. apply (assign_watch_new _ _ _ _ Hpost) in Hw
      as [?|(Hun & _ & c & Hc & Hwc)]; [by left|right].
    rewrite HF in Hc.
    destruct (well_formed_lookup N F i c (inv_formula _ _ _ Hb) Hc) as (_ & _ & Hr).
    rewrite HA'. by apply (unmarked_record N F s lit top w Hb Hlit (Hr w Hwc)). }
  assert (agrees_same : ∀ M, agrees M (levels s') ↔ agrees M (levels s)).
  { intros M. rewrite Hl', Hl, !agrees_cons. done. }
  assert (∀ M, models M F → agrees M (levels s) →
               ∀ l, l ∈ {[lit]} ∪ var_settings s → lit_true M l) as Hall.
  { intros M HM Hag l [->%elem_of_singleton|Hin]%elem_of_union; [by apply Himp|].
    apply (inv_implied _ _ _ Hb M HM Hag). by rewrite <- (inv_assigned _ _ _ Hb). }
  split.
  - (* base_inv *)
    split.
    + by rewrite Hc'.
    + apply (inv_formula _ _ _ Hb).
    + rewrite HV', length_insert. apply (inv_variable_set _ _ _ Hb).
    + rewrite Hs'. apply (inv_scores _ _ _ Hb).
    + rewrite Ha'. apply (inv_add_learned _ _ _ Hb).
    + rewrite Hcc'. apply (inv_compute_conflict _ _ _ Hb).
    + rewrite Hu'. apply (inv_update_functions _ _ _ Hb).
    + rewrite HI'. apply (inv_interval _ _ _ Hb).
    + rewrite Hh'. apply (inv_heap_range _ _ _ Hb).
    + apply (assign_two_watches _ _ _ _ Hpost).
    + intros l i Hi. rewrite <- HF, <- Hc'. by apply (assign_stored _ _ _ _ Hpost).
    + by rewrite Hl'.
    + rewrite Hl'. pose proof (inv_stack _ _ _ Hb) as Hst. rewrite Hl in Hst.
      destruct Hst as [Hlevel Hstack]. split.
      * destruct Hlevel as (Hdisj & Hroot & Hup). split_and!.
        -- simpl. set_solver.
        -- done.
        -- intros Hne. destruct (Hup Hne) as (? & ? & ? & ? & Hcl & ? & ?).
           split_and!; try done.
           eapply closed_mono; [done| |done].
           intros i w Hw. destruct (Hwnew i w Hw) as [?|Hno]; [by left|right].
           rewrite HA', HA in Hno. set_solver.
      * eapply stack_inv_mono; [|done]. intros U HU.
        apply closed_mono; [done|].
        intros i w Hw. destruct (Hwnew i w Hw) as [?|Hno]; [by left|right].
        rewrite HA', HA in Hno. set_solver.
    + rewrite HA', Hl', assigned_cons, HA. simpl. set_solver.
    + rewrite HA'. intros l [->%elem_of_singleton|Hin]%elem_of_union; [done|].
      by apply (inv_range _ _ _ Hb).
    + rewrite HA'. intros l [->%elem_of_singleton|Hin]%elem_of_union.
      * destruct Hlit. set_solver by lia.
      * pose proof (inv_consistent _ _ _ Hb l Hin).
        assert (- l ≠ lit) by (intros <-; by rewrite Z.opp_involutive in Hneg).
        set_solver.
    + intros l Hlr. rewrite HA'. rewrite <- (marked_record N F s lit top l Hb Hlit Hlr).
      unfold marked, record_literal. simpl. by rewrite HV'.
    + intros M HM Hag l Hin. apply agrees_same in Hag.
      apply (Hall M HM Hag). rewrite Hl', assigned_cons in Hin. simpl in Hin.
      rewrite HA. set_solver.
  - (* queue_inv *)
    assert (∀ o, o ∈ new → in_range N o ∧ o ∉ {[lit]} ∪ var_settings s) as Hnew'.
    { intros o Ho.
      destruct (Hnew o Ho) as (i & c & Hc & _ & _ & _ & Hoc & Hunsat & _).
      rewrite HF in Hc.
      destruct (well_formed_lookup N F i c (inv_formula _ _ _ Hb) Hc) as (_ & _ & Hr).
      split; [by apply Hr|]. intros Hin. apply Hunsat. by exists o. }
    split.
    + intros q. rewrite Hq'. intros [Ho|Ho]%elem_of_app; [by apply Hnew'|by apply HQr].
    + intros q. rewrite Hq', Hl'. simpl. intros [Ho|Ho]%elem_of_app; [|by apply HQf].
      destruct (Hnew' q Ho) as [_ Hno]. rewrite HA in Hno. set_solver.
    + intros q. rewrite Hq'. intros [Ho|Ho]%elem_of_app M HM Hag;
        apply agrees_same in Hag; [|by apply HQi].
      destruct (Hnew q Ho) as (i & c & Hc & Hw & Hwo & Hone & Hoc & Hunsat & Hallc).
      by eapply (queued_literal_implied N F s lit top s' M i c q); eauto.
    + intros i c Hc. rewrite HA', Hq'. destruct (Hcov i c Hc) as [Hunit Hwatch].
      split; [intros Hlen; by apply covered_step, Hunit|].
      intros w Hw Hin.
      destruct (decide (w = - lit)) as [->|Hne].
      * destruct (assign_watch_lit _ _ _ _ Hpost i Hw) as (_ & c' & Hci & Hcv).
        rewrite HF in Hci. assert (c' = c) as -> by congruence. by rewrite <- Hq'.
      * apply (assign_watch_new _ _ _ _ Hpost) in Hw as [Hw|(Hun & _ & c' & Hci & Hwc)].
        -- apply covered_step, (Hwatch w Hw).
           apply elem_of_union in Hin as [Hin%elem_of_singleton|Hin]; [|done].
           destruct Hne. lia.
        -- exfalso. rewrite HF in Hci.
           destruct (well_formed_lookup N F i c' (inv_formula _ _ _ Hb) Hci) as (_ & _ & Hr).
           by destruct (unmarked_record N F s lit top w Hb Hlit (Hr w Hwc)).
Qed.

End Preserve.

(** * Unit propagation *)

Lemma elem_of_literals N l : l ∈ literals N ↔ in_range N l.
Proof.
  unfold literals, in_range.
  rewrite elem_of_union, !elem_of_list_to_set, list_elem_of_fmap.
  setoid_rewrite elem_of_seqZ. split.
  - intros [?|(y & -> & ?)]; lia.
  - intros [? ?]. destruct (decide (0 < l)); [left; lia|].
    right. exists (- l). lia.
Qed.

Lemma heap_cover_assign N lit top s s' :
  in_range N lit → length (variable_set s) = S N →
  heap_cover_but N lit s → assign_post lit top s s' →
  heap_cover N s'.
Proof.
  intros Hlit Hlen Hcov Hpost l Hl Hun _.
  destruct (assign_post_fields _ _ _ _ Hpost) as (_ & _ & _ & HV & Hh & _).
  rewrite Hh. unfold unmarked in Hun. rewrite HV in Hun.
  pose proof (in_range_index N lit Hlit) as Hi. rewrite <- Hlen in Hi.
  destruct (decide (var_index lit = var_index l)) as [Heq|Hne].
  - rewrite <- Heq in Hun. by rewrite list_lookup_insert_eq in Hun.
  - rewrite list_lookup_insert_ne in Hun by done. apply Hcov; [done|done|].
    intros Habs. apply Hne. unfold var_index. lia.
Qed.

Lemma heap_cover_weaken N lit s : heap_cover N s → heap_cover_but N lit s.
Proof. intros H l Hl Hun _. apply H; [done|done|]. destruct Hl. lia. Qed.

Lemma stack_inv_ext N F s s' lv :
  clauses s' = clauses s → sentinels s' = sentinels s →
  stack_inv N F s lv → stack_inv N F s' lv.
Proof.
  intros Hc Hs. apply stack_inv_mono. intros U _.
  apply closed_mono; [done|]. intros i w. rewrite (watchers_ext s' s) by done. auto.
Qed.

Lemma base_inv_set_queue N F Q s :
  base_inv N F s → base_inv N F (set_unit_prop_queue Q s).
Proof. intros []. split; try assumption. by apply (stack_inv_ext N F s). Qed.

Lemma settled_add lit top rest :
  settled (top :: rest) → settled (Level.add lit top :: rest).
Proof. simpl. intros [?|?]; [by left|right]. set_solver. Qed.

Section UnitProp.

Context (iter_clauses : gset nat → list nat).
Hypothesis iter_clauses_permutation : ∀ X, iter_clauses X ≡ₚ elements X.

(** Assigning the literal on top of the queue. *)
Lemma assign_queued N F s q Q :
  base_inv N F s → heap_cover N s → settled (levels s) → queue_inv N F s →
  _unit_prop_queue s = q :: Q → - q ∉ var_settings s →
  ∃ s', _assign_literal iter_clauses (set_unit_prop_queue Q s) q = Ok s'
    ∧ base_inv N F s' ∧ heap_cover N s' ∧ settled (levels s') ∧ queue_inv N F s'
    ∧ var_settings s' = {[q]} ∪ var_settings s
    ∧ (∃ new, _unit_prop_queue s' = new ++ Q ∧ ∀ o, o ∈ new → o ∉ var_settings s')
    ∧ Level.flipped <$> levels s' = Level.flipped <$> levels s
    ∧ num_decisions s' = num_decisions s
    ∧ is_unsatisfied s' = is_unsatisfied s.
Proof.
  intros Hb Hh Hset Hq HQ Hneg.
  destruct (levels s) as [|top rest] eqn:Hl; [by destruct (inv_levels _ _ _ Hb)|].
  assert (q ∈ _unit_prop_queue s) as Hin by (rewrite HQ; by left).
  assert (∀ x, x ∈ Q → x ∈ _unit_prop_queue s) as Hsub by (intros x ?; rewrite HQ; by right).
  destruct (assign_preserves iter_clauses iter_clauses_permutation N F
              (set_unit_prop_queue Q s) q top rest)
    as (s' & Hrun & Hpost & Hb' & Hq'); simpl.
  - by apply base_inv_set_queue.
  - done.
  - by apply (inv_queue_range _ _ _ Hq).
  - done.
  - pose proof (inv_queue_fresh _ _ _ Hq q Hin) as H. by rewrite Hl in H.
  - rewrite Hl. intros M HM Hag. eapply (inv_queue_implied _ _ _ Hq); [done|done|].
    by rewrite Hl.
  - intros x Hx. apply (inv_queue_range _ _ _ Hq), Hsub, Hx.
  - intros x Hx. pose proof (inv_queue_fresh _ _ _ Hq x (Hsub x Hx)) as H.
    by rewrite Hl in H.
  - rewrite Hl. intros x Hx M HM Hag.
    eapply (inv_queue_implied _ _ _ Hq); [by apply Hsub|done|]. by rewrite Hl.
  - intros i c Hc. rewrite <- HQ. apply (inv_covered _ _ _ Hq i c Hc).
  - destruct (assign_post_fields _ _ _ _ Hpost)
      as (_ & HA' & Hl' & _ & _ & _ & _ & _ & _ & _ & Hu' & Hn').
    simpl in *. rewrite Hl in Hl'. simpl in Hl'.
    exists s'. split_and!; try done.
    + eapply (heap_cover_assign N q top (set_unit_prop_queue Q s));
        [by apply (inv_queue_range _ _ _ Hq) | apply (inv_variable_set _ _ _ Hb)
        | |exact Hpost].
      by apply (heap_cover_weaken N q s).
    + rewrite Hl'. by apply settled_add.
    + destruct (assign_queue _ _ _ _ Hpost) as (new & Hnq & Hnew).
      exists new. split; [done|]. intros o Ho.
      destruct (Hnew o Ho) as (i & c & _ & _ & _ & _ & Hoc & Hunsat & _).
      rewrite HA'. intros Hin'. apply Hunsat. by exists o.
    + by rewrite Hl'.
Qed.

End UnitProp.

Lemma base_inv_flags N F Q b s :
  base_inv N F s →
  base_inv N F (set_unit_prop_queue Q (set_is_unsatisfied b s)).
Proof. intros []. split; try assumption. by apply (stack_inv_ext N F s). Qed.

Lemma conflict_refutes N F s q :
  base_inv N F s → in_range N q →
  (∀ M, models M F → agrees M (levels s) → lit_true M q) →
  - q ∈ var_settings s →
  refuted F (levels s).
Proof.
  intros Hb Hq Himp Hneg M HM Hag.
  pose proof (Himp M HM Hag) as H1.
  pose proof (inv_implied _ _ _ Hb M HM Hag (- q)) as H2.
  rewrite <- (inv_assigned _ _ _ Hb) in H2. specialize (H2 Hneg).
  apply lit_true_neg in H2; [done|]. by destruct Hq.
Qed.

Lemma unit_prop_loop_nil iter fuel res s :
  _unit_prop_queue s = [] → unit_prop_loop iter fuel res s = Ok (res, s).
Proof. intros HQ. destruct fuel; cbn [unit_prop_loop]; by rewrite HQ. Qed.

Lemma unit_prop_loop_cons iter fuel res s q Q :
  _unit_prop_queue s = q :: Q →
  unit_prop_loop iter (S fuel) res s
  = if decide (- q ∈ var_settings (set_unit_prop_queue Q s))
    then Ok (false, set_unit_prop_queue []
                      (set_is_unsatisfied true (set_unit_prop_queue Q s)))
    else _assign_literal iter (set_unit_prop_queue Q s) q
         ≫= unit_prop_loop iter fuel res.
Proof. intros HQ. cbn [unit_prop_loop]. by rewrite HQ. Qed.

Section UnitPropLoop.

Context (iter_clauses : gset nat → list nat).
Hypothesis iter_clauses_permutation : ∀ X, iter_clauses X ≡ₚ elements X.

Lemma unit_prop_empty N F s :
  base_inv N F s → heap_cover N s → settled (levels s) → queue_inv N F s →
  _unit_prop_queue s = [] → unit_prop_ends iter_clauses N F s.
Proof.
  intros Hb Hh Hset Hq HQ. exists 0%nat, s, false. intros fuel _ res. split.
  - by apply unit_prop_loop_nil.
  - by split.
Qed.

Lemma unit_prop_conflict N F s q Q :
  base_inv N F s → heap_cover N s → settled (levels s) → queue_inv N F s →
  _unit_prop_queue s = q :: Q → - q ∈ var_settings s → unit_prop_ends iter_clauses N F s.
Proof.
  intros Hb Hh Hset Hq HQ Hneg.
  exists 1%nat, (set_unit_prop_queue [] (set_is_unsatisfied true (set_unit_prop_queue Q s))), true.
  intros fuel Hfuel res. split.
  - destruct fuel as [|fuel]; [lia|]. rewrite (unit_prop_loop_cons _ _ _ _ q Q) by done.
    by rewrite decide_True by done.
  - split; try done.
    + apply base_inv_flags. by apply base_inv_set_queue.
    + split; [done|]. simpl.
      apply (conflict_refutes N F s q); [done| | |done].
      * apply (inv_queue_range _ _ _ Hq). rewrite HQ. by left.
      * apply (inv_queue_implied _ _ _ Hq). rewrite HQ. by left.
Qed.

Lemma unit_prop_continue N F s q Q s1 :
  _unit_prop_queue s = q :: Q → - q ∉ var_settings s →
  _assign_literal iter_clauses (set_unit_prop_queue Q s) q = Ok s1 →
  Level.flipped <$> levels s1 = Level.flipped <$> levels s →
  num_decisions s1 = num_decisions s →
  is_unsatisfied s1 = is_unsatisfied s →
  unit_prop_ends iter_clauses N F s1 → unit_prop_ends iter_clauses N F s.
Proof.
  intros HQ Hneg Hrun Hfl Hnd Hun (n & s' & conflict & Hn).
  exists (S n), s', conflict. intros fuel Hfuel res.
  destruct fuel as [|fuel]; [lia|]. rewrite (unit_prop_loop_cons _ _ _ _ q Q) by done.
  rewrite decide_False by done. rewrite Hrun. cbn [mbind result_bind].
  destruct (Hn fuel ltac:(lia) res) as [-> Hp]. split; [done|].
  destruct Hp as [Hp1 Hp2 Hp3 Hp4 Hp5 Hp6 Hp7]. split; try done; try congruence.
  destruct conflict; [done|]. destruct Hp7. split; [congruence|done].
Qed.

Lemma unit_prop_fresh N F s q Q :
  (∀ s1, base_inv N F s1 → heap_cover N s1 → settled (levels s1) → queue_inv N F s1 →
         (size (literals N ∖ var_settings s1) < size (literals N ∖ var_settings s))%nat →
         unit_prop_ends iter_clauses N F s1) →
  base_inv N F s → heap_cover N s → settled (levels s) → queue_inv N F s →
  _unit_prop_queue s = q :: Q → q ∉ var_settings s → unit_prop_ends iter_clauses N F s.
Proof.
  intros IH Hb Hh Hset Hq HQ Hfresh.
  destruct (decide (- q ∈ var_settings s)) as [Hneg|Hneg];
    [by eapply unit_prop_conflict|].
  destruct (assign_queued iter_clauses iter_clauses_permutation N F s q Q)
    as (s1 & Hrun & Hb1 & Hh1 & Hset1 & Hq1 & HA1 & _ & Hfl & Hnd & Hun); [done..|].
  eapply unit_prop_continue; [done..|]. apply IH; [done..|].
  apply subset_size. rewrite HA1.
  assert (q ∈ literals N) as HqL.
  { apply elem_of_literals, (inv_queue_range _ _ _ Hq). rewrite HQ. by left. }
  clear -HqL Hfresh. generalize dependent (literals N). intros L HqL.
  generalize dependent (var_settings s). intros A Hfresh.
  apply strict_spec_alt. split; [set_solver|].
  intros Heq. assert (q ∈ L ∖ A) as Hin by set_solver.
  rewrite <- Heq in Hin. set_solver.
Qed.

Lemma unit_prop_loop_ends N F s :
  base_inv N F s → heap_cover N s → settled (levels s) → queue_inv N F s →
  unit_prop_ends iter_clauses N F s.
Proof.
  remember (size (literals N ∖ var_settings s)) as m eqn:Hm.
  revert s Hm. induction (lt_wf m) as [m _ IHm]. intros s -> Hb Hh Hset Hq.
  assert (∀ s1, base_inv N F s1 → heap_cover N s1 → settled (levels s1) →
            queue_inv N F s1 →
            (size (literals N ∖ var_settings s1) < size (literals N ∖ var_settings s))%nat →
            unit_prop_ends iter_clauses N F s1) as IH.
  { intros s1 ? ? ? ? Hlt. by eapply IHm. }
  clear IHm.
  remember (length (_unit_prop_queue s)) as k eqn:Hk.
  revert s Hk Hb Hh Hset Hq IH. induction (lt_wf k) as [k _ IHk].
  intros s -> Hb Hh Hset Hq IH.
  destruct (_unit_prop_queue s) as [|q Q] eqn:HQ; [by apply unit_prop_empty|].
  destruct (decide (- q ∈ var_settings s)) as [Hneg|Hneg];
    [by eapply unit_prop_conflict|].
  destruct (decide (q ∈ var_settings s)) as [Hin|Hfresh];
    [|by eapply unit_prop_fresh].
  destruct (assign_queued iter_clauses iter_clauses_permutation N F s q Q)
    as (s1 & Hrun & Hb1 & Hh1 & Hset1 & Hq1 & HA1 & (new & Hnq & Hnew) & Hfl & Hnd & Hun);
    [done..|].
  assert (var_settings s1 = var_settings s) as HA by set_solver.
  eapply unit_prop_continue; [done..|].
  destruct new as [|o new].
  - eapply (IHk (length Q)); [simpl; lia | by rewrite Hnq | done..|].
    intros s2 ? ? ? ? Hlt. apply IH; [done..|]. by rewrite <- HA.
  - eapply (unit_prop_fresh N F s1 o (new ++ Q)); [|done..| apply Hnew; by left].
    intros s2 ? ? ? ? Hlt. apply IH; [done..|]. by rewrite <- HA.
Qed.

End UnitPropLoop.

(** * [_simplify] *)

Lemma simplify_loop_S iter rounds fuel s :
  simplify_loop iter (S rounds) fuel s
  = _unit_prop iter fuel s ≫= λ '(c1, s1),
      if false || c1 || false then simplify_loop iter rounds fuel s1 else Ok s1.
Proof. reflexivity. Qed.

Section Simplify.

Context (iter_clauses : gset nat → list nat).
Hypothesis iter_clauses_permutation : ∀ X, iter_clauses X ≡ₚ elements X.

Lemma simplify_ends N F s :
  base_inv N F s → heap_cover N s → settled (levels s) → queue_inv N F s →
  ∃ n s' conflict, ∀ fuel, (n ≤ fuel)%nat →
    _simplify iter_clauses fuel s = Ok s' ∧ propagated N F conflict s s'.
Proof.
  intros Hb Hh Hset Hq.
  destruct (unit_prop_loop_ends iter_clauses iter_clauses_permutation N F s)
    as (n & s' & conflict & Hn); [done..|].
  exists (S (S n)), s', conflict. intros fuel Hfuel.
  destruct (Hn fuel ltac:(lia) (bool_decide (0 < length (_unit_prop_queue s))%nat))
    as [Hrun Hp].
  split; [|done]. unfold _simplify.
  destruct fuel as [|[|rounds]]; [lia|lia|].
  rewrite simplify_loop_S. unfold _unit_prop at 1. rewrite Hrun.
  cbn [mbind result_bind].
  destruct (false || (if conflict then false else
              bool_decide (0 < length (_unit_prop_queue s))%nat) || false) eqn:Hc;
    [|done].
  rewrite simplify_loop_S. unfold _unit_prop.
  rewrite unit_prop_loop_nil by apply (propagated_queue _ _ _ _ _ Hp).
  cbn [mbind result_bind]. rewrite (propagated_queue _ _ _ _ _ Hp). done.
Qed.

End Simplify.

(** * The invariant and [_undo] *)

Lemma unset_loop_total ls s :
  NoDup ls →
  (∀ l, l ∈ ls →
     l ∈ var_settings s
     ∧ is_Some (lit_scores s !! Z.abs l) ∧ is_Some (lit_scores s !! (- Z.abs l))
     ∧ (var_index l < length (variable_set s))%nat) →
  ∃ s', for_each unset_literal s ls = Ok s'.
Proof.
  intros Hnd. revert s. induction Hnd as [|l ls Hl Hnd IH]; intros s Hall.
  - by exists s.
  - destruct (Hall l) as (Hin & [x Hx] & [y Hy] & Hlt); [by left|].
    assert (∃ s1, unset_literal s l = Ok s1) as [s1 Hs1].
    { unfold unset_literal. rewrite decide_True by done.
      unfold _vsids_lit_unset, score_at. simpl. rewrite Hx. simpl. rewrite Hy. simpl.
      unfold mark_variable. simpl. rewrite decide_True by done. eauto. }
    cbn [for_each]. rewrite Hs1. cbn [mbind result_bind].
    apply unset_literal_undone in Hs1 as Hun. apply IH. intros l' Hl'.
    destruct (Hall l') as (Hin' & Hx' & Hy' & Hlt'); [by right|].
    rewrite (undone_var_settings _ _ _ Hun), (undone_length _ _ _ Hun).
    assert (lit_scores s1 = lit_scores s) as -> by (by rewrite (undone_frame _ _ _ Hun)).
    split_and!; try done. simpl. set_solver.
Qed.

Lemma closed_ext s s' U :
  clauses s' = clauses s → sentinels s' = sentinels s → closed s U → closed s' U.
Proof.
  intros Hc Hs. apply closed_mono; [done|].
  intros i w. rewrite (watchers_ext s' s) by done. auto.
Qed.

Section UndoPreserves.

Context (iter_literals : gset Z → list Z).
Hypothesis iter_literals_permutation : ∀ X, iter_literals X ≡ₚ elements X.

Lemma undo_preserves N F s top low :
  base_inv N F s → levels s = top :: low → low ≠ [] →
  ∃ s', _undo iter_literals s = Ok s'
    ∧ base_inv N F s'
    ∧ levels s' = low
    ∧ (heap_cover N s → heap_cover N s')
    ∧ _unit_prop_queue s' = _unit_prop_queue s
    ∧ is_unsatisfied s' = is_unsatisfied s
    ∧ num_decisions s' = num_decisions s
    ∧ (_unit_prop_queue s = [] → queue_inv N F s').
Proof.
  intros Hb Hl Hlow.
  pose proof (inv_assigned _ _ _ Hb) as HA. rewrite Hl, assigned_cons in HA.
  pose proof (inv_stack _ _ _ Hb) as Hst. rewrite Hl in Hst.
  destruct Hst as [(Hdisj & _ & Hup) Hst].
  destruct (Hup Hlow) as (Hdr & Hd1 & Hd2 & Hsettled & Hclosed & Himplied & _).
  set (ls := iter_literals (Level.var_settings top)).
  assert (∀ l, l ∈ ls ↔ l ∈ Level.var_settings top) as Hls.
  { intros l. unfold ls. by rewrite iter_literals_permutation, elem_of_elements. }
  assert (NoDup ls) as Hnd.
  { unfold ls. rewrite iter_literals_permutation. apply NoDup_elements. }
  destruct (unset_loop_total ls s Hnd) as [s1 Hrun].
  { intros l Hin%Hls. assert (l ∈ var_settings s) as HlA by set_solver.
    pose proof (inv_range _ _ _ Hb l HlA) as Hr.
    split_and!; [done | | |].
    - apply (inv_scores _ _ _ Hb). unfold in_range in *. lia.
    - apply (inv_scores _ _ _ Hb). unfold in_range in *. lia.
    - rewrite (inv_variable_set _ _ _ Hb). by apply (in_range_index N). }
  apply for_each_unset_undone in Hrun as Hun.
  assert (s1 = set_variable_set (variable_set s1)
                 (set_lit_heap (lit_heap s1) (set_var_settings (var_settings s1) s)))
    as Hframe by apply (undone_frame _ _ _ Hun).
  exists (set_levels low s1).
  assert (list_to_set ls = Level.var_settings top) as Hset.
  { apply set_eq. intros l. by rewrite elem_of_list_to_set. }
  assert (var_settings s1 = assigned low) as HA1.
  { rewrite (undone_var_settings _ _ _ Hun), Hset, HA. set_solver. }
  assert (∀ l, in_range N l →
               marked s1 l ↔ l ∈ var_settings s1 ∨ - l ∈ var_settings s1) as Hmarked.
  { intros l Hr. unfold marked. rewrite (undone_variable_set _ _ _ Hun).
    pose proof (inv_marked _ _ _ Hb l Hr) as Hm. unfold marked in Hm.
    pose proof (inv_consistent _ _ _ Hb) as Hcons.
    destruct (decide (var_index l ∈ var_index <$> ls)) as [Hi|Hi].
    - apply list_elem_of_fmap in Hi as (l' & Heq & Hl'%Hls).
      apply var_index_eq in Heq.
      assert (l' ∈ var_settings s) as Hl'A by set_solver.
      split; [by case_decide|]. rewrite HA1. intros Hin. exfalso.
      destruct Heq as [->| ->], Hin as [Hin|Hin].
      + set_solver.
      + apply (Hcons l'); [done|]. set_solver.
      + apply (Hcons l'); [done|]. rewrite HA. set_solver.
      + rewrite Z.opp_involutive in Hin. set_solver.
    - rewrite Hm, HA1, HA.
      assert (l ∉ Level.var_settings top ∧ - l ∉ Level.var_settings top) as [??].
      { split; intros Hin%Hls; apply Hi, list_elem_of_fmap.
        - by exists l.
        - exists (- l). split; [|done]. apply var_index_eq. right. lia. }
      set_solver. }
  split_and!.
  - unfold _undo, _current_level. rewrite Hl. cbn [mbind result_bind].
    fold ls. rewrite Hrun. cbn [mbind result_bind].
    assert (levels s1 = levels s) as -> by (by rewrite Hframe).
    by rewrite Hl.
  - split; simpl.
    + rewrite Hframe. apply (inv_clauses _ _ _ Hb).
    + apply (inv_formula _ _ _ Hb).
    + rewrite (undone_length _ _ _ Hun). apply (inv_variable_set _ _ _ Hb).
    + rewrite Hframe. apply (inv_scores _ _ _ Hb).
    + rewrite Hframe. apply (inv_add_learned _ _ _ Hb).
    + rewrite Hframe. apply (inv_compute_conflict _ _ _ Hb).
    + rewrite Hframe. apply (inv_update_functions _ _ _ Hb).
    + rewrite Hframe. apply (inv_interval _ _ _ Hb).
    + intros e He. apply (undone_heap_new _ _ _ Hun) in He as [He|(l & Hin%Hls & He)].
      * by apply (inv_heap_range _ _ _ Hb).
      * assert (in_range N l) as Hr by (apply (inv_range _ _ _ Hb); set_solver).
        unfold in_range in *. destruct He as [-> | ->]; lia.
    + rewrite Hframe. apply (inv_two_watches _ _ _ Hb).
    + rewrite Hframe. apply (inv_watch_sound _ _ _ Hb).
    + done.
    + eapply (stack_inv_ext N F s); [by rewrite Hframe..|done].
    + done.
    + intros l Hin. apply (inv_range _ _ _ Hb).
      rewrite (undone_var_settings _ _ _ Hun) in Hin. set_solver.
    + intros l Hin Hneg. rewrite (undone_var_settings _ _ _ Hun) in Hin, Hneg.
      apply (inv_consistent _ _ _ Hb l); set_solver.
    + done.
    + done.
  - done.
  - intros Hh l Hr Hunm _. unfold unmarked in Hunm. simpl in Hunm.
    rewrite (undone_variable_set _ _ _ Hun) in Hunm. simpl.
    destruct (decide (var_index l ∈ var_index <$> ls)) as [Hi|Hi].
    + apply list_elem_of_fmap in Hi as (l' & Heq & Hl').
      destruct (undone_heap_pushed _ _ _ Hun l' Hl') as (x & _ & Hx & _).
      exists (x, Z.abs l'). split; [done|]. simpl. unfold var_index in Heq. lia.
    + destruct (Hh l Hr Hunm) as (e & He & Habs); [destruct Hr; lia|].
      exists e. split; [|done]. by apply (undone_heap_old _ _ _ Hun).
  - simpl. by rewrite Hframe.
  - simpl. by rewrite Hframe.
  - simpl. by rewrite Hframe.
  - intros HQ.
    assert (_unit_prop_queue s1 = []) as HQ1 by (by rewrite Hframe).
    split; simpl; rewrite ?HQ1.
    + intros q Hq. by apply elem_of_nil in Hq.
    + intros q Hq. by apply elem_of_nil in Hq.
    + intros q Hq. by apply elem_of_nil in Hq.
    + intros i c Hc. rewrite HA1.
      assert (closed (set_levels low s1) (assigned low)) as Hcl.
      { eapply (closed_ext s); [by rewrite Hframe..|done]. }
      destruct (Hcl i c) as [H1 H2].
      { simpl. rewrite Hframe. simpl. by rewrite (inv_clauses _ _ _ Hb). }
      split; [intros Hlen; left; by apply H1|].
      intros w Hw Hneg. left. by apply (H2 w).
Qed.

End UndoPreserves.

(** * Choosing a literal *)

Lemma vsids_pop_spec N (VS : list bool) heap :
  length VS = S N → (∀ e, e ∈ heap → in_range N e.2) →
  ∃ lit heap', vsids_pop VS heap = Ok (lit, heap')
    ∧ (∀ e, e ∈ heap' → e ∈ heap)
    ∧ (∀ e, e ∈ heap → e ∈ heap' ∨ VS !! var_index e.2 = Some true ∨ e.2 = lit)
    ∧ (lit ≠ 0 → in_range N lit ∧ VS !! var_index lit = Some false)
    ∧ (lit = 0 → ∀ e, e ∈ heap → VS !! var_index e.2 = Some true).
Proof.
  intros Hlen. induction heap as [|[x l] heap IH]; intros Hr.
  - exists 0, []. split_and!; try done; intros;
      match goal with H : _ ∈ [] |- _ => by apply elem_of_nil in H end.
  - assert (in_range N l) as Hl by (apply (Hr (x, l)); by left).
    destruct (lookup_lt_is_Some_2 VS (var_index l)) as [b Hb].
    { rewrite Hlen. by apply (in_range_index N). }
    simpl. rewrite Hb. destruct b.
    + destruct IH as (lit & heap' & -> & Hsub & Hall & Hlit & H0).
      { intros e He. apply Hr. by right. }
      exists lit, heap'. split_and!; try done.
      * intros e He. right. by apply Hsub.
      * intros e [->|He]%elem_of_cons; [by right; left|by apply Hall].
      * intros Hz e [->|He]%elem_of_cons; [done|by apply H0].
    + exists l, heap. split_and!; try done.
      * intros e He. by right.
      * intros e [->|He]%elem_of_cons; [by right; right|by left].
      * intros ->. by destruct Hl.
Qed.

Lemma covered_nil_cons A lit c : covered A [] c → covered A [lit] c.
Proof.
  intros [?|(o & Ho & _)]; [by left|]. by apply elem_of_nil in Ho.
Qed.

Lemma covered_nil A c : covered A [] c → satisfied_by A c.
Proof. intros [?|(o & Ho & _)]; [done|]. by apply elem_of_nil in Ho. Qed.

Lemma closed_of_queue_inv N F s :
  base_inv N F s → queue_inv N F s → _unit_prop_queue s = [] →
  closed s (var_settings s).
Proof.
  intros Hb Hq HQ i c Hc. rewrite (inv_clauses _ _ _ Hb) in Hc.
  destruct (inv_covered _ _ _ Hq i c Hc) as [H1 H2]. rewrite HQ in H1, H2.
  split; [intros Hlen; by apply covered_nil, H1|].
  intros w Hw Hneg. by apply covered_nil, (H2 w).
Qed.

(** The state in which a level for the decision [lit] has been pushed. *)
Lemma push_level_base N F s lit flip heap nd :
  base_inv N F s → queue_inv N F s → _unit_prop_queue s = [] →
  settled (levels s) →
  in_range N lit → lit ∉ var_settings s → - lit ∉ var_settings s →
  (∀ e, e ∈ heap → e ∈ lit_heap s) →
  (flip = true →
     ∀ M, models M F → agrees M (levels s) → lit_true M lit) →
  base_inv N F
    (set_levels (Level.__init__ lit flip :: levels s)
       (set_num_decisions nd (set_lit_heap heap s))).
Proof.
  intros Hb Hq HQ Hset Hlit Hno Hnoneg Hheap Hflip.
  pose proof (inv_assigned _ _ _ Hb) as HA.
  destruct Hb as [inv_clauses inv_formula inv_variable_set inv_scores
    inv_add_learned inv_compute_conflict inv_update_functions inv_interval
    inv_heap_range inv_two_watches inv_watch_sound inv_levels inv_stack
    inv_assigned inv_range inv_consistent inv_marked inv_implied].
  split; simpl; try assumption.
  - intros e He. by apply inv_heap_range, Hheap.
  - done.
  - split.
    + split_and!.
      * simpl. set_solver.
      * intros Hnil. by destruct inv_levels.
      * intros _. simpl. rewrite <- HA. split_and!; try done.
        -- eapply (closed_ext s); [done..|].
           eapply closed_of_queue_inv; [by split|done..].
    + by apply (stack_inv_ext N F s).
  - rewrite assigned_cons. simpl. rewrite <- inv_assigned. set_solver.
  - intros M HM Hag l. rewrite assigned_cons. simpl.
    apply agrees_cons in Hag as [_ Hag]. intros Hin.
    apply (inv_implied M HM Hag). set_solver.
Qed.

(** * One pass through the loop: choosing and assigning *)

Lemma run_updates_Ok N F s : base_inv N F s → run_updates s = Ok s.
Proof.
  intros Hb. unfold run_updates.
  rewrite decide_False by apply (inv_interval _ _ _ Hb).
  rewrite (inv_update_functions _ _ _ Hb). by case_decide.
Qed.

Lemma unmarked_unassigned N F s l :
  base_inv N F s → in_range N l → unmarked s l →
  l ∉ var_settings s ∧ - l ∉ var_settings s.
Proof.
  intros Hb Hl Hun. pose proof (inv_marked _ _ _ Hb l Hl) as Hm.
  unfold marked, unmarked in *. rewrite Hun in Hm.
  split; intros Hin; by assert (Some false = Some true) by (apply Hm; auto).
Qed.

(** When the heuristic answers [0], every variable is assigned. *)
Lemma all_marked_model N F s :
  base_inv N F s → heap_cover N s → queue_inv N F s → _unit_prop_queue s = [] →
  (∀ e, e ∈ lit_heap s → variable_set s !! var_index e.2 = Some true) →
  is_model N F (var_settings s).
Proof.
  intros Hb Hh Hq HQ Hall.
  assert (∀ l, in_range N l → marked s l) as Hmarked.
  { intros l Hl. unfold marked.
    destruct (lookup_lt_is_Some_2 (variable_set s) (var_index l)) as [[|] Hv]; [|done|].
    { rewrite (inv_variable_set _ _ _ Hb). by apply (in_range_index N). }
    destruct (Hh l Hl Hv) as ([x l'] & He & Habs); [destruct Hl; lia|].
    apply Hall in He. simpl in *.
    replace (var_index l') with (var_index l) in He by (unfold var_index; lia).
    congruence. }
  pose proof (closed_of_queue_inv N F s Hb Hq HQ) as Hcl.
  split.
  - intros c [i Hc]%list_elem_of_lookup_1.
    destruct (Hcl i c) as [Hunit Hwatch]; [by rewrite (inv_clauses _ _ _ Hb)|].
    destruct (well_formed_lookup N F i c (inv_formula _ _ _ Hb) Hc) as (Hne & Hnd & Hr).
    destruct c as [|x [|y c]]; [done|by apply Hunit|].
    destruct (inv_two_watches _ _ _ Hb i (x :: y :: c)) as (w1 & w2 & _ & Hw1 & _ & Hiff);
      [by rewrite (inv_clauses _ _ _ Hb) | simpl; lia |].
    destruct (proj1 (inv_marked _ _ _ Hb w1 (Hr w1 Hw1)) (Hmarked w1 (Hr w1 Hw1)))
      as [Hin|Hin].
    + by exists w1.
    + apply (Hwatch w1); [apply Hiff; auto | done].
  - intros v Hv.
    assert (in_range N v) as Hr by (unfold in_range; lia).
    pose proof (inv_consistent _ _ _ Hb) as Hcons.
    destruct (proj1 (inv_marked _ _ _ Hb v Hr) (Hmarked v Hr)) as [Hin|Hin].
    + left. split; [done|]. by apply Hcons.
    + right. split; [done|]. intros Hin'. by apply (Hcons v).
Qed.

Lemma is_model_satisfiable N F A : is_model N F A → well_formed N F → satisfiable F.
Proof.
  intros [Hsat Htot] Hwf. exists (λ v, bool_decide (v ∈ A)).
  intros c Hc. destruct (Hsat c Hc) as (t & Ht & HA). exists t. split; [done|].
  apply list_elem_of_lookup_1 in Hc as [i Hc].
  destruct (well_formed_lookup N F i c Hwf Hc) as (_ & _ & Hr).
  destruct (Hr t Ht) as [H0 Habs].
  unfold lit_true. case_decide.
  - by apply bool_decide_eq_true.
  - apply bool_decide_eq_false.
    destruct (Htot (- t)) as [[? Hno]|[? ?]]; [lia| |done].
    rewrite Z.opp_involutive in Hno. done.
Qed.

Section Decide.

Context (iter_clauses : gset nat → list nat).
Hypothesis iter_clauses_permutation : ∀ X, iter_clauses X ≡ₚ elements X.

(** The literal that [choose_literal] returns gets assigned. *)
Lemma choose_and_assign N F flip_var s :
  top_inv N F flip_var s →
  (∃ s', choose_literal flip_var s = Ok (None, s')
         ∧ flip_var = false ∧ is_model N F (var_settings s'))
  ∨ ∃ lit s1 s2,
      choose_literal flip_var s = Ok (Some lit, s1)
      ∧ _assign_literal iter_clauses s1 lit = Ok s2
      ∧ base_inv N F s2 ∧ heap_cover N s2 ∧ settled (levels s2) ∧ queue_inv N F s2
      ∧ is_unsatisfied s2 = false
      ∧ (2 ≤ length (levels s2))%nat
      ∧ Level.flipped <$> levels s2
        = if flip_var then Level.flipped <$> levels s
          else false :: (Level.flipped <$> levels s).
Proof.
  intros (Hb & Hh & Hq & HQ & Hu & Hphase). unfold choose_literal.
  destruct flip_var.
  - (* the flipped decision of the top level *)
    right. destruct Hphase as (top & low & Hl & Hlow & Hfl & Hset).
    unfold _current_level. rewrite Hl. cbn [mbind result_bind].
    pose proof (inv_stack _ _ _ Hb) as Hst. rewrite Hl in Hst.
    destruct Hst as [(_ & _ & Hup) _].
    destruct (Hup Hlow) as (Hdr & Hd1 & Hd2 & _ & _ & _ & Himp).
    pose proof (inv_assigned _ _ _ Hb) as HA. rewrite Hl, assigned_cons, Hset in HA.
    assert (var_settings s = assigned low) as HA' by (rewrite HA; set_solver).
    destruct (assign_preserves iter_clauses iter_clauses_permutation N F s
                (Level.decision top) top low)
      as (s2 & Hrun & Hpost & Hb2 & Hq2); try done.
    + by rewrite HA'.
    + rewrite Hl. intros M HM Hag. apply agrees_cons in Hag as [_ Hag]. by apply Himp.
    + rewrite HQ. intros q Hin. by apply elem_of_nil in Hin.
    + rewrite HQ. intros q Hin. by apply elem_of_nil in Hin.
    + rewrite HQ. intros q Hin. by apply elem_of_nil in Hin.
    + rewrite HQ. intros i c Hc. destruct (inv_covered _ _ _ Hq i c Hc) as [H1 H2].
      rewrite HQ in H1, H2. split; [intros; by apply covered_nil_cons, H1|].
      intros w Hw Hneg. by apply covered_nil_cons, (H2 w).
    + destruct (assign_post_fields _ _ _ _ Hpost)
        as (_ & _ & Hl2 & _ & _ & _ & _ & _ & _ & _ & Hu2 & _).
      rewrite Hl in Hl2. simpl in Hl2.
      exists (Level.decision top), s, s2. split_and!; try done.
      * eapply (heap_cover_assign N _ top s); [done| |by apply heap_cover_weaken|done].
        apply (inv_variable_set _ _ _ Hb).
      * rewrite Hl2. simpl. right. set_solver.
      * congruence.
      * rewrite Hl2. destruct low; [done|]. simpl. lia.
      * by rewrite Hl2.
  - (* a new decision *)
    destruct (vsids_pop_spec N (variable_set s) (lit_heap s))
      as (lit & heap & Hpop & Hsub & Hall & Hlit & H0).
    { apply (inv_variable_set _ _ _ Hb). }
    { apply (inv_heap_range _ _ _ Hb). }
    unfold _vsids_calculate. rewrite Hpop. cbn [mbind result_bind].
    destruct (decide (0 = lit)) as [<-|Hne].
    + left. eexists. split; [done|]. split; [done|]. simpl.
      apply (all_marked_model N F s); try done. by apply H0.
    + right. destruct Hlit as [Hr Hun]; [done|].
      destruct (unmarked_unassigned N F s lit Hb Hr Hun) as [Hno Hnoneg].
      set (s1 := set_levels (Level.__init__ lit false :: levels s)
                   (set_num_decisions (num_decisions s + 1) (set_lit_heap heap s))).
      assert (base_inv N F s1) as Hb1.
      { apply push_level_base; try done. }
      destruct (assign_preserves iter_clauses iter_clauses_permutation N F s1
                  lit (Level.__init__ lit false) (levels s))
        as (s2 & Hrun & Hpost & Hb2 & Hq2); try done.
      * by rewrite <- (inv_assigned _ _ _ Hb).
      * intros M HM Hag. apply agrees_cons in Hag as [Hag _].
        apply Hag; [done|]. simpl. by destruct Hr.
      * simpl. rewrite HQ. intros q Hin. by apply elem_of_nil in Hin.
      * simpl. rewrite HQ. intros q Hin. by apply elem_of_nil in Hin.
      * simpl. rewrite HQ. intros q Hin. by apply elem_of_nil in Hin.
      * simpl. rewrite HQ. intros i c Hc.
        destruct (inv_covered _ _ _ Hq i c Hc) as [H1 H2].
        rewrite HQ in H1, H2. split; [intros; by apply covered_nil_cons, H1|].
        intros w Hw Hneg. by apply covered_nil_cons, (H2 w).
      * destruct (assign_post_fields _ _ _ _ Hpost)
          as (_ & _ & Hl2 & _ & _ & _ & _ & _ & _ & _ & Hu2 & _).
        simpl in Hl2.
        exists lit, s1, s2. split_and!; try done.
        -- eapply (heap_cover_assign N lit _ s1); [done| | |done].
           ++ apply (inv_variable_set _ _ _ Hb).
           ++ intros l Hl Hunl Habs. simpl.
              destruct (Hh l Hl Hunl) as (e & He & Heq); [destruct Hl; lia|].
              destruct (Hall e He) as [?|[Hm|Hm]]; [by exists e| |].
              ** exfalso. unfold unmarked in Hunl. simpl in Hunl.
                 replace (var_index e.2) with (var_index l) in Hm
                   by (unfold var_index; lia).
                 congruence.
              ** exfalso. rewrite Hm in Heq. lia.
        -- rewrite Hl2. simpl. right. set_solver.
        -- rewrite Hu2. exact Hu.
        -- rewrite Hl2. pose proof (inv_levels _ _ _ Hb).
           destruct (levels s); [done|]. simpl. lia.
        -- by rewrite Hl2.
Qed.

End Decide.

(** * The measure of the search *)

Section Weight.

Local Open Scope nat_scope.

Lemma pow3_pos k : 1 ≤ 3 ^ k.
Proof. induction k; simpl; lia. Qed.

Lemma pow3_succ B m : 1 ≤ m → m ≤ B → 3 * 3 ^ (B - m) = 3 ^ (B - (m - 1)).
Proof.
  intros H1 H2. replace (B - (m - 1)) with (S (B - m)) by lia. simpl. lia.
Qed.

Lemma weight_cons B f low :
  low ≠ [] →
  weight B (f :: low) = (if f then 2 else 1) * 3 ^ (B - length low) + weight B low.
Proof. destruct low; [done|]. reflexivity. Qed.

Lemma weight_bound B flags :
  flags ≠ [] → length flags ≤ S B →
  weight B flags + 3 ^ (B - (length flags - 1)) ≤ 3 ^ B.
Proof.
  induction flags as [|f low IH]; [done|]. intros _ Hlen.
  destruct (decide (low = [])) as [->|Hlow].
  - simpl. rewrite Nat.sub_0_r. lia.
  - rewrite weight_cons by done. simpl in Hlen. simpl length.
    assert (1 ≤ length low) by (destruct low; [done|simpl; lia]).
    specialize (IH Hlow ltac:(lia)).
    replace (S (length low) - 1) with (length low) by lia.
    pose proof (pow3_succ B (length low) ltac:(lia) ltac:(lia)).
    destruct f; lia.
Qed.

Lemma weight_lt B flags : flags ≠ [] → length flags ≤ S B → weight B flags < 3 ^ B.
Proof.
  intros H1 H2. pose proof (weight_bound B flags H1 H2).
  pose proof (pow3_pos (B - (length flags - 1))). lia.
Qed.

Lemma weight_flipped B ups base :
  Forall (λ f, f = true) ups → base ≠ [] → length (ups ++ base) ≤ S B →
  weight B (ups ++ base) + 3 ^ (B - (length (ups ++ base) - 1))
  ≤ weight B base + 3 ^ (B - (length base - 1)).
Proof.
  intros Hups Hbase. induction Hups as [|f ups -> Hups IH]; intros Hlen; [done|].
  simpl app. rewrite weight_cons by (by destruct ups, base).
  simpl in Hlen. simpl length.
  assert (1 ≤ length (ups ++ base)).
  { rewrite length_app. destruct base; [done|simpl; lia]. }
  specialize (IH ltac:(lia)).
  replace (S (length (ups ++ base)) - 1) with (length (ups ++ base)) by lia.
  pose proof (pow3_succ B (length (ups ++ base)) ltac:(lia) ltac:(lia)). lia.
Qed.

(** Flipping the deepest first attempt makes the stack weigh more. *)
Lemma weight_flip B ups lowf :
  Forall (λ f, f = true) ups → lowf ≠ [] →
  length (ups ++ false :: lowf) ≤ S B →
  weight B (ups ++ false :: lowf) < weight B (true :: lowf).
Proof.
  intros Hups Hlow Hlen.
  pose proof (weight_flipped B ups (false :: lowf) Hups ltac:(done) Hlen) as H.
  rewrite !weight_cons in * by done.
  pose proof (pow3_pos (B - (length (ups ++ false :: lowf) - 1))).
  simpl length in H. replace (S (length lowf) - 1) with (length lowf) in H by lia.
  lia.
Qed.

Lemma weight_push B flags :
  flags ≠ [] → weight B flags < weight B (false :: flags).
Proof.
  intros H. rewrite weight_cons by done. pose proof (pow3_pos (B - length flags)). lia.
Qed.

(** The depth of the stack is bounded by the number of literals. *)
Lemma stack_depth N F s top low :
  stack_inv N F s (top :: low) → length low ≤ S (size (assigned low)).
Proof.
  revert top. induction low as [|L low IH]; intros top; [simpl; lia|].
  intros [(_ & _ & Hup) Hst].
  destruct (Hup ltac:(done)) as (_ & _ & _ & Hsettled & _).
  pose proof (IH L Hst) as IH'. destruct Hst as [(Hdisj & _) _].
  destruct Hsettled as [->|Hin]; [simpl; lia|].
  rewrite assigned_cons, size_union by done.
  assert (size (Level.var_settings L) ≠ 0).
  { intros Hz%size_empty_inv. set_solver. }
  simpl. lia.
Qed.

Lemma levels_depth N F s :
  base_inv N F s → length (levels s) ≤ S (depth_bound N).
Proof.
  intros Hb. pose proof (inv_stack _ _ _ Hb) as Hst.
  pose proof (inv_assigned _ _ _ Hb) as HA.
  destruct (levels s) as [|top low] eqn:Hl; [simpl; lia|].
  pose proof (stack_depth N F s top low Hst).
  assert (size (assigned low) ≤ size (literals N)).
  { apply subseteq_size. intros l Hin. apply elem_of_literals, (inv_range _ _ _ Hb).
    rewrite HA, assigned_cons. set_solver. }
  unfold depth_bound. simpl. lia.
Qed.

End Weight.

(** * Backtracking *)

Lemma refuted_root N F s :
  base_inv N F s → length (levels s) = 1%nat → refuted F (levels s) →
  ¬ satisfiable F.
Proof.
  intros Hb Hlen Href [M HM]. apply (Href M HM).
  pose proof (inv_stack _ _ _ Hb) as Hst.
  destruct (levels s) as [|root [|]]; try done.
  destruct Hst as [(_ & Hroot & _) _]. destruct (Hroot eq_refl) as [Hd _].
  intros L ->%list_elem_of_singleton _ Hne. done.
Qed.

Lemma refuted_pop F top low :
  Level.flipped top = true → refuted F (top :: low) → refuted F low.
Proof.
  intros Hfl Href M HM Hag. apply (Href M HM). apply agrees_cons.
  split; [|done]. intros Hf. congruence.
Qed.

Lemma base_inv_clear_flag N F b s :
  base_inv N F s → base_inv N F (set_is_unsatisfied b s).
Proof. intros []. split; try assumption. by apply (stack_inv_ext N F s). Qed.

Lemma unroll_flipped_stop iter fuel s top low :
  levels s = top :: low → Level.flipped top = false →
  unroll_flipped iter fuel s = Ok (false, s).
Proof.
  intros Hl Hfl. destruct fuel; cbn [unroll_flipped]; unfold _current_level;
    rewrite Hl; cbn [mbind result_bind]; by rewrite Hfl.
Qed.

Lemma unroll_flipped_step iter fuel s top low :
  levels s = top :: low → Level.flipped top = true →
  unroll_flipped iter (S fuel) s
  = _undo iter s ≫= λ s1,
      if decide (1 = length (levels s1))%nat then Ok (true, s1)
      else unroll_flipped iter fuel s1.
Proof.
  intros Hl Hfl. cbn [unroll_flipped]. unfold _current_level at 1.
  rewrite Hl. cbn [mbind result_bind]. by rewrite Hfl.
Qed.

Section Backtrack.

Context (iter_literals : gset Z → list Z).
Hypothesis iter_literals_permutation : ∀ X, iter_literals X ≡ₚ elements X.

Lemma unroll_ends N F s :
  base_inv N F s → heap_cover N s →
  _unit_prop_queue s = [] → is_unsatisfied s = false →
  refuted F (levels s) → (2 ≤ length (levels s))%nat →
  ∃ n exhausted s', ∀ fuel, (n ≤ fuel)%nat →
    unroll_flipped iter_literals fuel s = Ok (exhausted, s')
    ∧ unrolled N F s exhausted s'.
Proof.
  remember (length (levels s)) as k eqn:Hk. revert s Hk.
  induction (lt_wf k) as [k _ IH]. intros s -> Hb Hh HQ Hu Href Hlen.
  destruct (levels s) as [|top low] eqn:Hl; [simpl in Hlen; lia|].
  assert (low ≠ []) as Hlow by (destruct low; [simpl in Hlen; lia|done]).
  destruct (Level.flipped top) eqn:Hfl.
  - destruct (undo_preserves iter_literals iter_literals_permutation N F s top low)
      as (s1 & Hrun & Hb1 & Hl1 & Hh1 & HQ1 & Hu1 & _ & _); [done..|].
    pose proof (refuted_pop F top low Hfl Href) as Href1.
    destruct (decide (1 = length (levels s1))%nat) as [Hone|Hmore].
    + exists 1%nat, true, s1. intros fuel Hfuel.
      destruct fuel as [|fuel]; [lia|].
      rewrite (unroll_flipped_step _ _ _ top low) by done.
      rewrite Hrun. cbn [mbind result_bind]. rewrite decide_True by done.
      split; [done|]. simpl.
      apply (refuted_root N F s1); [done|done|by rewrite Hl1].
    + destruct (IH (length (levels s1))) with (s := s1)
        as (n & exhausted & s' & Hn); try done.
      * rewrite Hl1. simpl. lia.
      * by apply Hh1.
      * congruence.
      * congruence.
      * by rewrite Hl1.
      * rewrite Hl1 in Hmore |- *. destruct low as [|? [|]]; simpl in *; try done; lia.
      * exists (S n), exhausted, s'. intros fuel Hfuel.
        destruct fuel as [|fuel]; [lia|].
        rewrite (unroll_flipped_step _ _ _ top low) by done.
        rewrite Hrun. cbn [mbind result_bind]. rewrite decide_False by done.
        destruct (Hn fuel ltac:(lia)) as [-> Hpost]. split; [done|].
        destruct exhausted; [done|].
        destruct Hpost as (? & ? & ? & ? & ? & ? & ups & Hups & Hall).
        split_and!; try done. exists (true :: ups). split.
        -- rewrite Hl. simpl. rewrite Hfl. f_equal. by rewrite <- Hl1.
        -- by constructor.
  - exists 0%nat, false, s. intros fuel _. split.
    + by apply (unroll_flipped_stop _ _ _ top low).
    + simpl. rewrite Hl. split_and!; try done; [by exists top, low|].
      exists []. split; [done|constructor].
Qed.

(** The conflict branch either shows the formula unsatisfiable or reaches
    the top of the loop with a heavier stack. *)
Lemma backtrack_ends N F s :
  base_inv N F s → heap_cover N s → _unit_prop_queue s = [] →
  refuted F (levels s) → (2 ≤ length (levels s))%nat →
  ∃ n exhausted s', ∀ fuel, (n ≤ fuel)%nat →
    backtrack iter_literals fuel s = Ok (exhausted, s')
    ∧ if exhausted then ¬ satisfiable F
      else top_inv N F true s'
           ∧ (weight (depth_bound N) (Level.flipped <$> levels s)
              < weight (depth_bound N) (Level.flipped <$> levels s'))%nat.
Proof.
  intros Hb Hh HQ Href Hlen.
  destruct (unroll_ends N F (set_is_unsatisfied false s))
    as (n & exhausted & s1 & Hn); try done.
  { by apply base_inv_clear_flag. }
  exists n, exhausted. destruct exhausted.
  - exists s1. intros fuel Hfuel. destruct (Hn fuel Hfuel) as [Hrun Hpost].
    unfold backtrack. rewrite Hrun. cbn [mbind result_bind]. done.
  - destruct (Hn n ltac:(lia)) as [_ Hpost].
    destruct Hpost as (Hb1 & Hh1 & HQ1 & Hu1 & Href1 & (top & low & Hl1 & Hlow & Hfl)
                       & ups & Hups & Hall).
    destruct (undo_preserves iter_literals iter_literals_permutation N F s1 top low)
      as (s2 & Hrun2 & Hb2 & Hl2 & Hh2 & HQ2 & Hu2 & _ & Hq2); [done..|].
    pose proof (inv_stack _ _ _ Hb1) as Hst. rewrite Hl1 in Hst.
    destruct Hst as [(_ & _ & Hup) _].
    destruct (Hup Hlow) as (Hdr & Hd1 & Hd2 & Hsettled & _ & _ & _).
    set (flip_lit := (- Level.decision top)%Z).
    exists (set_levels (Level.__init__ flip_lit true :: levels s2) s2).
    intros fuel Hfuel. destruct (Hn fuel Hfuel) as [Hrun _]. split.
    + unfold backtrack. rewrite Hrun. cbn [mbind result_bind].
      unfold call_compute_conflict. rewrite (inv_compute_conflict _ _ _ Hb1).
      cbn [mbind result_bind].
      unfold call_add_learned_clause. rewrite (inv_add_learned _ _ _ Hb1).
      cbn [mbind result_bind].
      unfold _current_level. rewrite Hl1. cbn [mbind result_bind].
      rewrite Hrun2. cbn [mbind result_bind]. done.
    + assert (queue_inv N F s2) as Hq by (apply Hq2; congruence).
      assert (_unit_prop_queue s2 = []) as HQ2' by congruence.
      assert (var_settings s2 = assigned low) as HA2.
      { rewrite (inv_assigned _ _ _ Hb2). by rewrite Hl2. }
      pose proof (push_level_base N F s2 flip_lit true (lit_heap s2) (num_decisions s2))
        as Hpush.
      assert (set_levels (Level.__init__ flip_lit true :: levels s2)
                (set_num_decisions (num_decisions s2) (set_lit_heap (lit_heap s2) s2))
              = set_levels (Level.__init__ flip_lit true :: levels s2) s2) as Heq
        by (by destruct s2).
      rewrite Heq in Hpush.
      split.
      * split_and!.
        -- apply Hpush; try done.
           ++ by rewrite Hl2.
           ++ by apply in_range_neg in Hdr.
           ++ by rewrite HA2.
           ++ rewrite HA2. unfold flip_lit. by rewrite Z.opp_involutive.
           ++ intros _ M HM Hag. rewrite Hl2 in Hag.
              apply lit_true_neg; [by destruct Hdr|].
              intros Htrue. apply (Href1 M HM). rewrite Hl1. apply agrees_cons.
              split; [done|done].
        -- intros l Hl Hun _. apply (Hh2 Hh1 l Hl Hun). destruct Hl. lia.
        -- split; simpl; rewrite ?HQ2'.
           ++ intros q Hin; by apply elem_of_nil in Hin.
           ++ intros q Hin; by apply elem_of_nil in Hin.
           ++ intros q Hin; by apply elem_of_nil in Hin.
           ++ intros i c Hc. pose proof (inv_covered _ _ _ Hq i c Hc) as H.
              by rewrite HQ2' in H.
        -- done.
        -- simpl. congruence.
        -- exists (Level.__init__ flip_lit true), (levels s2).
           split_and!; [done|by rewrite Hl2|done|done].
      * change (levels (set_is_unsatisfied false s)) with (levels s) in Hups.
        simpl. rewrite Hl2. rewrite Hups, Hl1. simpl. rewrite Hfl.
        apply weight_flip; [done|by destruct low|].
        pose proof (levels_depth N F s Hb) as Hd.
        rewrite <- (length_fmap Level.flipped) in Hd.
        rewrite Hups, Hl1 in Hd. simpl in Hd. by rewrite Hfl in Hd.
Qed.

End Backtrack.

(** * The loop of [_find_model] *)

Section Loop.

Context (iter_clauses : gset nat → list nat) (iter_literals : gset Z → list Z).
Hypothesis iter_clauses_permutation : ∀ X, iter_clauses X ≡ₚ elements X.
Hypothesis iter_literals_permutation : ∀ X, iter_literals X ≡ₚ elements X.

Lemma loop_body_ends N F flip_var s :
  top_inv N F flip_var s →
  ∃ n p, (∀ fuel, (n ≤ fuel)%nat →
            loop_body iter_clauses iter_literals fuel flip_var s = Ok p)
         ∧ pass_ok N F flip_var s p.
Proof.
  intros Htop. pose proof Htop as (Hb & Hh & Hq & HQ & Hu & Hphase).
  assert (weight (depth_bound N) (Level.flipped <$> levels s) < 3 ^ depth_bound N)%nat
    as Hw.
  { apply weight_lt.
    - pose proof (inv_levels _ _ _ Hb). by destruct (levels s).
    - rewrite length_fmap. by apply (levels_depth N F). }
  destruct (choose_and_assign iter_clauses iter_clauses_permutation N F flip_var s Htop)
    as [(s' & Hchoose & -> & Hmodel)
       |(lit & s1 & s2 & Hchoose & Hassign & Hb2 & Hh2 & Hset2 & Hq2 & Hu2 & Hlen2 & Hfl2)].
  - exists 0%nat, (Return true s'). split; [|done]. intros fuel _.
    unfold loop_body. rewrite (run_updates_Ok N F s Hb). cbn [mbind result_bind].
    rewrite Hchoose. done.
  - destruct (simplify_ends iter_clauses iter_clauses_permutation N F s2)
      as (n1 & s3 & conflict & Hn1); [done..|].
    destruct (Hn1 n1 ltac:(lia)) as [_ Hp].
    assert (weight (depth_bound N) (Level.flipped <$> levels s)
            ≤ weight (depth_bound N) (Level.flipped <$> levels s3))%nat as Hw3.
    { rewrite (propagated_flags _ _ _ _ _ Hp), Hfl2. destruct flip_var; [done|].
      apply Nat.lt_le_incl, weight_push.
      pose proof (inv_levels _ _ _ Hb). by destruct (levels s). }
    assert (∀ fuel, (n1 ≤ fuel)%nat →
              loop_body iter_clauses iter_literals fuel flip_var s
              = (if is_unsatisfied s3 then
                   backtrack iter_literals fuel s3 ≫= λ '(exhausted, s4),
                     if (exhausted : bool) then Ok (Return false s4)
                     else Ok (Continue true s4)
                 else Ok (Continue false s3))) as Hbody.
    { intros fuel Hfuel. unfold loop_body.
      rewrite (run_updates_Ok N F s Hb). cbn [mbind result_bind].
      rewrite Hchoose. cbn [mbind result_bind]. rewrite Hassign. cbn [mbind result_bind].
      destruct (Hn1 fuel Hfuel) as [-> _]. done. }
    destruct conflict.
    + destruct (propagated_outcome _ _ _ _ _ Hp) as [Hu3 Href].
      destruct (backtrack_ends iter_literals iter_literals_permutation N F s3)
        as (n2 & exhausted & s4 & Hn2).
      * apply (propagated_base _ _ _ _ _ Hp).
      * apply (propagated_heap _ _ _ _ _ Hp).
      * apply (propagated_queue _ _ _ _ _ Hp).
      * done.
      * rewrite <- (length_fmap Level.flipped), (propagated_flags _ _ _ _ _ Hp).
        by rewrite length_fmap.
      * destruct (Hn2 n2 ltac:(lia)) as [_ Hpost].
        exists (n1 `max` n2)%nat,
          (if exhausted then Return false s4 else Continue true s4).
        split.
        -- intros fuel Hfuel. rewrite (Hbody fuel ltac:(lia)), Hu3.
           destruct (Hn2 fuel ltac:(lia)) as [-> _]. cbn [mbind result_bind].
           by destruct exhausted.
        -- destruct exhausted; [done|]. destruct Hpost as [Htop4 Hw4].
           split; [done|]. unfold search_measure. destruct flip_var; lia.
    + destruct (propagated_outcome _ _ _ _ _ Hp) as [Hu3 Hq3].
      exists n1, (Continue false s3). split.
      * intros fuel Hfuel. rewrite (Hbody fuel Hfuel), Hu3, Hu2. done.
      * split.
        -- split_and!; [apply (propagated_base _ _ _ _ _ Hp)
                       | apply (propagated_heap _ _ _ _ _ Hp) | done
                       | apply (propagated_queue _ _ _ _ _ Hp) | congruence
                       | apply (propagated_settled _ _ _ _ _ Hp)].
        -- unfold search_measure.
           rewrite (propagated_flags _ _ _ _ _ Hp), Hfl2.
           destruct flip_var; [lia|].
           pose proof (weight_push (depth_bound N) (Level.flipped <$> levels s)) as Hpush.
           assert (Level.flipped <$> levels s ≠ []) as Hne.
           { pose proof (inv_levels _ _ _ Hb). by destruct (levels s). }
           specialize (Hpush Hne). lia.
Qed.

Lemma find_model_loop_ends N F flip_var s :
  top_inv N F flip_var s →
  ∃ n answer s',
    (∀ rounds fuel, (n ≤ rounds)%nat → (n ≤ fuel)%nat →
       find_model_loop iter_clauses iter_literals rounds fuel flip_var s
       = Ok (answer, s'))
    ∧ if answer then is_model N F (var_settings s') else ¬ satisfiable F.
Proof.
  remember (search_measure N flip_var s) as m eqn:Hm. revert flip_var s Hm.
  induction (lt_wf m) as [m _ IH]. intros flip_var s -> Htop.
  destruct (loop_body_ends N F flip_var s Htop) as (n & p & Hn & Hp).
  destruct p as [answer s'|flip_var' s'].
  - exists (S n), answer, s'. split.
    + intros rounds fuel Hr Hf. destruct rounds as [|rounds]; [lia|].
      cbn [find_model_loop]. rewrite (Hn fuel ltac:(lia)). done.
    + by destruct answer.
  - destruct Hp as [Htop' Hlt].
    destruct (IH _ Hlt flip_var' s' eq_refl Htop') as (n' & answer & s'' & Hn' & Hans).
    exists (S (n `max` n')), answer, s''. split; [|done].
    intros rounds fuel Hr Hf. destruct rounds as [|rounds]; [lia|].
    cbn [find_model_loop]. rewrite (Hn fuel ltac:(lia)). cbn [mbind result_bind].
    apply Hn'; lia.
Qed.

End Loop.

(** * The invariant after construction *)

Lemma size_variables_upto N : size (variables_upto N) = N.
Proof.
  unfold variables_upto. rewrite size_list_to_set by apply NoDup_seqZ.
  rewrite length_seqZ. lia.
Qed.

Lemma vsids_init_vars vars s :
  (∀ l, is_Some (lit_scores s !! l) ∨ (∃ v, v ∈ vars ∧ (l = v ∨ l = - v)) →
        is_Some (lit_scores (foldl vsids_init_var s vars) !! l))
  ∧ (∀ e, e ∈ lit_heap (foldl vsids_init_var s vars) →
          e ∈ lit_heap s ∨ ∃ v, v ∈ vars ∧ (e.2 = v ∨ e.2 = - v))
  ∧ (∀ e, e ∈ lit_heap s → e ∈ lit_heap (foldl vsids_init_var s vars))
  ∧ (∀ v, v ∈ vars → ∃ x, (x, v) ∈ lit_heap (foldl vsids_init_var s vars)).
Proof.
  revert s. induction vars as [|v vars IH]; intros s.
  - simpl. split_and!; try done; [|auto|].
    + intros l [?|(v & Hv & _)]; [done|]. by apply elem_of_nil in Hv.
    + intros v Hv. by apply elem_of_nil in Hv.
  - cbn [foldl]. destruct (IH (vsids_init_var s v)) as (Hs & Hnew & Hold & Hin).
    assert (∀ e, e ∈ lit_heap (vsids_init_var s v)
                 ↔ e = (_nfloat (occurrences s (- v)), - v)
                   ∨ e = (_nfloat (occurrences s v), v) ∨ e ∈ lit_heap s) as Hheap.
    { intros e. unfold vsids_init_var. simpl. rewrite !elem_of_heappush. done. }
    assert (∀ l, is_Some (lit_scores (vsids_init_var s v) !! l)
                 ↔ l = - v ∨ l = v ∨ is_Some (lit_scores s !! l)) as Hsc.
    { intros l. unfold vsids_init_var. simpl.
      rewrite !lookup_insert_is_Some. destruct (decide (l = - v)), (decide (l = v));
        naive_solver. }
    split_and!.
    + intros l Hl. apply Hs. rewrite Hsc.
      destruct Hl as [?|(v' & [->|Hv']%elem_of_cons & Hl)]; [naive_solver..|].
      right. eauto.
    + intros e He. apply Hnew in He as [He|(v' & Hv' & He)].
      * apply Hheap in He as [->|[->|He]]; [right|right|by left];
          exists v; (split; [by left|]); simpl; auto.
      * right. exists v'. split; [by right|done].
    + intros e He. apply Hold, Hheap. auto.
    + intros v' [->|Hv']%elem_of_cons; [|by apply Hin].
      exists (_nfloat (occurrences s v)). apply Hold, Hheap. auto.
Qed.

Lemma last_elem_of (c : list Z) d : c ≠ [] → List.last c d ∈ c.
Proof.
  intros Hne. rewrite (app_removelast_last d Hne) at 2.
  apply elem_of_app. right. by left.
Qed.

Lemma last_cons_cons (x y : Z) c d : List.last (x :: y :: c) d = List.last (y :: c) d.
Proof. reflexivity. Qed.

Lemma ends_elem_of c l : ends c l → l ∈ c.
Proof.
  intros [Hh|[Hne <-]].
  - destruct c; [done|]. simpl in Hh. inversion Hh. by left.
  - by apply last_elem_of.
Qed.

(** The two watches that [_initialize_clauses] installs. *)
Lemma initialized_two_watches cls s s' :
  Forall NoDup cls → initialized 0 cls s s' →
  clauses s' = cls → (∀ l, watchers s l = ∅) →
  two_watches s'
  ∧ ∀ l i, i ∈ watchers s' l →
      ∃ c, cls !! i = Some c ∧ l ∈ c ∧ (2 ≤ length c)%nat.
Proof.
  intros Hnd Hinit Hcls Hempty.
  assert (∀ l i, i ∈ watchers s' l
                 ↔ ∃ c, cls !! i = Some c ∧ length c ≠ 1%nat ∧ ends c l) as Hw.
  { intros l i. rewrite (initialized_watchers _ _ _ _ Hinit), Hempty.
    rewrite Nat.sub_0_r. split.
    - intros [Hin|(c & _ & ? & ? & ?)]; [set_solver|eauto].
    - intros (c & ? & ? & ?). right. exists c. split_and!; [lia|done..]. }
  split.
  - intros i c Hc Hlen. rewrite Hcls in Hc.
    destruct c as [|x [|y c]]; [simpl in Hlen; lia..|].
    exists x, (List.last (x :: y :: c) 0).
    assert (NoDup (x :: y :: c)) as Hndc by (by eapply Forall_lookup_1 in Hnd).
    split_and!.
    + intros Heq. apply NoDup_cons in Hndc as [Hx _]. apply Hx.
      rewrite Heq at 1. rewrite last_cons_cons. by apply last_elem_of.
    + by left.
    + by apply last_elem_of.
    + intros l. rewrite Hw. unfold ends. split.
      * intros (c' & Hc' & _ & He). assert (c' = x :: y :: c) as -> by congruence.
        destruct He as [[= <-]|[_ <-]]; auto.
      * intros Hl. exists (x :: y :: c). split_and!; [done|simpl; lia|].
        destruct Hl as [->| ->]; [by left|by right].
  - intros l i (c & Hc & Hlen & He)%Hw. exists c. split_and!; [done|by apply ends_elem_of|].
    pose proof (initialized_nonempty _ _ _ _ Hinit) as Hne.
    eapply Forall_lookup_1 in Hne; [|done]. destruct c as [|? [|]]; simpl in *; try done; lia.
Qed.

Lemma init_total cls vars S I :
  Forall (λ c, c ≠ []) cls →
  ∃ s, SATSolver__init__ cls vars S "vsids" "none" I = Ok s.
Proof.
  intros Hne. unfold SATSolver__init__.
  destruct (initialize_clauses_total cls
    (_initialize_variables vars
       (mkSATSolver S "vsids" false [] [] I ∅ ∅ [] [] [] ∅ None None [] 0 0 0)) Hne)
    as [s' ->].
  cbn [mbind result_bind].
  change (String.eqb "vsids" "vsids") with true.
  change (String.eqb "simple" "none") with false.
  change (String.eqb "none" "none") with true.
  cbn [mbind result_bind]. eauto.
Qed.

Lemma vsids_init_spec N s :
  length (variable_set s) = S N →
  (∀ l, in_range N l → is_Some (lit_scores (_vsids_init s) !! l))
  ∧ (∀ e, e ∈ lit_heap (_vsids_init s) → in_range N e.2)
  ∧ (∀ l, in_range N l → ∃ e, e ∈ lit_heap (_vsids_init s) ∧ Z.abs e.2 = Z.abs l).
Proof.
  intros Hlen. unfold _vsids_init. rewrite Hlen.
  replace (Z.of_nat (S N) - 1) with (Z.of_nat N) by lia.
  destruct (vsids_init_vars (seqZ 1 (Z.of_nat N)) (set_lit_scores ∅ (set_lit_heap [] s)))
    as (Hs & Hnew & _ & Hin).
  split_and!.
  - intros l [H0 Habs]. apply Hs. right.
    destruct (decide (0 < l)).
    + exists l. rewrite elem_of_seqZ. split; [lia|auto].
    + exists (- l). rewrite elem_of_seqZ. split; [lia|]. right. lia.
  - intros e He. apply Hnew in He as [He|(v & Hv & He)].
    + simpl in He. by apply elem_of_nil in He.
    + apply elem_of_seqZ in Hv. unfold in_range. destruct He as [-> | ->]; lia.
  - intros l [H0 Habs]. destruct (Hin (Z.abs l)) as [x Hx].
    { rewrite elem_of_seqZ. lia. }
    exists (x, Z.abs l). split; [done|]. simpl. lia.
Qed.

Lemma elem_of_unit_literals cls q : q ∈ unit_literals cls ↔ [q] ∈ cls.
Proof.
  induction cls as [|c cls IH].
  - unfold unit_literals. simpl. split; intros H; by apply elem_of_nil in H.
  - rewrite unit_literals_cons, elem_of_app, IH, elem_of_cons.
    destruct (decide (length c = 1%nat)) as [Hlen|Hlen].
    + destruct c as [|x [|]]; try done. rewrite list_elem_of_singleton.
      split; intros [H|H]; auto; left; congruence.
    + split; intros [H|H]; auto; [by apply elem_of_nil in H|].
      subst c. done.
Qed.

Lemma unit_literal_clause cls q : q ∈ unit_literals cls → [q] ∈ cls.
Proof. apply elem_of_unit_literals. Qed.

Lemma clause_unit_literal cls q : [q] ∈ cls → q ∈ unit_literals cls.
Proof. apply elem_of_unit_literals. Qed.

(** Construction on a well-formed input with an empty initial assignment
    establishes the invariant. *)
Lemma init_inv N F I s0 :
  well_formed N F → I ≠ 0 →
  SATSolver__init__ F (variables_upto N) ∅ "vsids" "none" I = Ok s0 →
  base_inv N F s0 ∧ heap_cover N s0 ∧ settled (levels s0) ∧ queue_inv N F s0
  ∧ is_unsatisfied s0 = false ∧ length (levels s0) = 1%nat.
Proof.
  intros Hwf HI (s1 & Hinit & ->)%init_Ok.
  set (base := set_clauses F
                 (_initialize_variables (variables_upto N)
                    (mkSATSolver ∅ "vsids" false [] [] I ∅ ∅ [] [] [] ∅
                       None None [] 0 0 0))) in *.
  assert (length (variable_set s1) = S N) as Hlen.
  { rewrite (initialized_frame _ _ _ _ Hinit). simpl.
    by rewrite length_replicate, size_variables_upto. }
  destruct (vsids_init_spec N s1 Hlen) as (Hsc & Hhr & Hhc).
  destruct (initialized_two_watches F base s1) as [Htwo Hsound].
  { eapply Forall_impl; [exact Hwf|]. by intros c (_ & ? & _). }
  { done. }
  { by rewrite (initialized_frame _ _ _ _ Hinit). }
  { intros l. unfold watchers. simpl. by rewrite lookup_empty. }
  pose proof (initialized_queue _ _ _ _ Hinit) as HQ. simpl in HQ.
  rewrite app_nil_r in HQ.
  assert (∀ l, watchers (_vsids_init s1) l = watchers s1 l) as HW.
  { intros l. apply watchers_ext. by rewrite vsids_init_frame. }
  pose proof (vsids_init_frame s1) as HX.
  pose proof (initialized_frame _ _ _ _ Hinit) as H1.
  assert (variable_set (_vsids_init s1) = replicate (S N) false) as HVS.
  { transitivity (variable_set s1); [exact (f_equal variable_set HX)|].
    transitivity (variable_set base); [exact (f_equal variable_set H1)|].
    unfold base, _initialize_variables.
    change (variable_set _) with (replicate (S (size (variables_upto N))) false).
    by rewrite size_variables_upto. }
  assert (∀ l, ¬ marked (_vsids_init s1) l ∧
               (in_range N l → unmarked (_vsids_init s1) l)) as Hunm.
  { intros l. unfold marked, unmarked. rewrite HVS.
    split.
    - intros Hm. apply lookup_replicate in Hm as [? _]. done.
    - intros Hl. apply lookup_replicate. split; [done|].
      by apply (in_range_index N). }
  assert (clauses (_vsids_init s1) = F) as HF by (by rewrite HX, H1).
  split_and!.
  - split; simpl.
    + done.
    + done.
    + by rewrite HX.
    + done.
    + done.
    + done.
    + by rewrite HX, H1.
    + by rewrite HX, H1.
    + done.
    + intros i c Hc Hlenc. simpl in Hc. rewrite HF in Hc.
      destruct (Htwo i c) as (w1 & w2 & ? & ? & ? & Hiff);
        [by rewrite (f_equal clauses H1)|done|].
      exists w1, w2. split_and!; try done. intros l.
      rewrite <- Hiff. unfold watchers. simpl. by rewrite HX.
    + intros l i Hi. apply Hsound. unfold watchers in *. simpl in Hi.
      by rewrite HX in Hi.
    + done.
    + split; [|done]. split_and!; [set_solver|done|done].
    + rewrite HX, H1. simpl. unfold assigned. simpl. set_solver.
    + rewrite HX, H1. simpl. set_solver.
    + rewrite HX, H1. simpl. intros l Hl. set_solver.
    + intros l Hl. assert (var_settings (_vsids_init s1) = ∅) as ->
        by (by rewrite HX, H1).
      split; [|set_solver]. intros Hm. by destruct (proj1 (Hunm l)).
    + intros M HM Hag l Hl. unfold assigned in Hl. simpl in Hl. set_solver.
  - intros l Hl _ _. simpl. by apply Hhc.
  - simpl. by left.
  - assert (_unit_prop_queue (_vsids_init s1) = reverse (unit_literals F)) as HQ0
      by (by rewrite HX).
    split; simpl; rewrite ?HQ0.
    + intros q Hq%elem_of_reverse%unit_literal_clause.
      apply list_elem_of_lookup_1 in Hq as [i Hi].
      destruct (well_formed_lookup N F i [q] Hwf Hi) as (_ & _ & Hr).
      apply Hr. by left.
    + intros q _. unfold assigned. simpl. set_solver.
    + intros q Hq%elem_of_reverse%unit_literal_clause M HM _.
      destruct (HM [q] Hq) as (l & ->%list_elem_of_singleton & Hl). done.
    + intros i c Hc. split.
      * intros Hlenc. destruct c as [|q [|]]; try done.
        right. exists q. split; [|by left].
        apply elem_of_reverse, clause_unit_literal. by eapply list_elem_of_lookup_2.
      * intros w _ Hneg. exfalso.
        assert (var_settings (_vsids_init s1) = ∅) as HA by (by rewrite HX, H1).
        rewrite HA in Hneg. set_solver.
  - simpl. by rewrite HX, H1.
  - done.
Qed.

(** * More fuel does not change a result *)

Lemma bind_mono {A B : Type} (m m' : result A) (f f' : A → result B) b :
  (∀ a, m = Ok a → m' = Ok a) →
  (∀ a, f a = Ok b → f' a = Ok b) →
  m ≫= f = Ok b → m' ≫= f' = Ok b.
Proof.
  intros Hm Hf H. apply bind_Ok in H as (a & Ha & H).
  rewrite (Hm a Ha). cbn [mbind result_bind]. by apply Hf.
Qed.

Section Fuel.

Context (iter_clauses : gset nat → list nat) (iter_literals : gset Z → list Z).

Lemma unit_prop_loop_mono fuel fuel' res s r :
  (fuel ≤ fuel')%nat →
  unit_prop_loop iter_clauses fuel res s = Ok r →
  unit_prop_loop iter_clauses fuel' res s = Ok r.
Proof.
  revert fuel' s. induction fuel as [|fuel IH]; intros fuel' s Hle Hrun.
  - destruct (_unit_prop_queue s) as [|q Q] eqn:HQ.
    + rewrite (unit_prop_loop_nil _ _ _ _ HQ) in Hrun.
      by rewrite (unit_prop_loop_nil _ _ _ _ HQ).
    + cbn [unit_prop_loop] in Hrun. by rewrite HQ in Hrun.
  - destruct (_unit_prop_queue s) as [|q Q] eqn:HQ.
    + rewrite (unit_prop_loop_nil _ _ _ _ HQ) in Hrun.
      by rewrite (unit_prop_loop_nil _ _ _ _ HQ).
    + destruct fuel' as [|fuel']; [lia|].
      rewrite (unit_prop_loop_cons _ _ _ _ q Q HQ) in Hrun.
      rewrite (unit_prop_loop_cons _ _ _ _ q Q HQ).
      case_decide; [done|].
      eapply bind_mono; [| |exact Hrun]; [done|].
      intros a. apply IH. lia.
Qed.

Lemma simplify_loop_mono rounds rounds' fuel fuel' s r :
  (rounds ≤ rounds')%nat → (fuel ≤ fuel')%nat →
  simplify_loop iter_clauses rounds fuel s = Ok r →
  simplify_loop iter_clauses rounds' fuel' s = Ok r.
Proof.
  revert rounds' s. induction rounds as [|rounds IH]; intros rounds' s Hr Hf Hrun;
    [done|].
  destruct rounds' as [|rounds']; [lia|].
  rewrite simplify_loop_S in Hrun. rewrite simplify_loop_S.
  eapply bind_mono; [| |exact Hrun].
  - intros a. unfold _unit_prop. by apply unit_prop_loop_mono.
  - intros [c1 s1]. cbv beta iota. destruct (false || c1 || false); [|done].
    apply IH; lia.
Qed.

Lemma simplify_mono fuel fuel' s r :
  (fuel ≤ fuel')%nat →
  _simplify iter_clauses fuel s = Ok r → _simplify iter_clauses fuel' s = Ok r.
Proof. intros Hle. by apply simplify_loop_mono. Qed.

Lemma unroll_flipped_mono fuel fuel' s r :
  (fuel ≤ fuel')%nat →
  unroll_flipped iter_literals fuel s = Ok r →
  unroll_flipped iter_literals fuel' s = Ok r.
Proof.
  revert fuel' s. induction fuel as [|fuel IH]; intros fuel' s Hle Hrun.
  - destruct (levels s) as [|top low] eqn:Hl.
    { cbn [unroll_flipped] in Hrun. unfold _current_level in Hrun.
      by rewrite Hl in Hrun. }
    destruct (Level.flipped top) eqn:Hfl.
    + cbn [unroll_flipped] in Hrun. unfold _current_level in Hrun.
      rewrite Hl in Hrun. cbn [mbind result_bind] in Hrun.
      by rewrite Hfl in Hrun.
    + rewrite (unroll_flipped_stop _ _ _ top low Hl Hfl) in Hrun.
      by rewrite (unroll_flipped_stop _ _ _ top low Hl Hfl).
  - destruct (levels s) as [|top low] eqn:Hl.
    { cbn [unroll_flipped] in Hrun. unfold _current_level in Hrun.
      by rewrite Hl in Hrun. }
    destruct (Level.flipped top) eqn:Hfl.
    + destruct fuel' as [|fuel']; [lia|].
      rewrite (unroll_flipped_step _ _ _ top low Hl Hfl) in Hrun.
      rewrite (unroll_flipped_step _ _ _ top low Hl Hfl).
      eapply bind_mono; [| |exact Hrun]; [done|].
      intros s1. cbv beta. destruct (decide _); [done|]. apply IH. lia.
    + rewrite (unroll_flipped_stop _ _ _ top low Hl Hfl) in Hrun.
      by rewrite (unroll_flipped_stop _ _ _ top low Hl Hfl).
Qed.

Lemma backtrack_mono fuel fuel' s r :
  (fuel ≤ fuel')%nat →
  backtrack iter_literals fuel s = Ok r → backtrack iter_literals fuel' s = Ok r.
Proof.
  intros Hle Hrun. unfold backtrack in *.
  eapply bind_mono; [| |exact Hrun].
  - intros a. by apply unroll_flipped_mono.
  - done.
Qed.

Lemma loop_body_mono fuel fuel' flip_var s r :
  (fuel ≤ fuel')%nat →
  loop_body iter_clauses iter_literals fuel flip_var s = Ok r →
  loop_body iter_clauses iter_literals fuel' flip_var s = Ok r.
Proof.
  intros Hle Hrun. unfold loop_body in *.
  eapply bind_mono; [| |exact Hrun]; [done|]. intros s1 H1.
  eapply bind_mono; [| |exact H1]; [done|]. intros [choice s2] H2. cbv beta iota in H2 |- *.
  destruct choice as [lit|]; [|done].
  eapply bind_mono; [| |exact H2]; [done|]. intros s3 H3.
  eapply bind_mono; [| |exact H3].
  - intros a. by apply simplify_mono.
  - intros s4 H4. cbv beta in H4 |- *. destruct (is_unsatisfied s4); [|done].
    eapply bind_mono; [| |exact H4]; [|done].
    intros a. by apply backtrack_mono.
Qed.

Lemma find_model_loop_mono rounds rounds' fuel fuel' flip_var s r :
  (rounds ≤ rounds')%nat → (fuel ≤ fuel')%nat →
  find_model_loop iter_clauses iter_literals rounds fuel flip_var s = Ok r →
  find_model_loop iter_clauses iter_literals rounds' fuel' flip_var s = Ok r.
Proof.
  revert rounds' flip_var s.
  induction rounds as [|rounds IH]; intros rounds' flip_var s Hr Hf Hrun; [done|].
  destruct rounds' as [|rounds']; [lia|]. cbn [find_model_loop] in *.
  eapply bind_mono; [| |exact Hrun].
  - intros a. by apply loop_body_mono.
  - intros [answer s1|flip_var' s1]; cbv beta iota; [done|]. apply IH; lia.
Qed.

Lemma find_model_mono fuel fuel' s r :
  (fuel ≤ fuel')%nat →
  _find_model iter_clauses iter_literals fuel s = Ok r →
  _find_model iter_clauses iter_literals fuel' s = Ok r.
Proof.
  intros Hle Hrun. unfold _find_model in *.
  eapply bind_mono; [| |exact Hrun].
  - intros a. by apply simplify_mono.
  - intros s1. cbv beta. destruct (is_unsatisfied s1); [done|].
    by apply find_model_loop_mono.
Qed.

End Fuel.

(** * The search as a whole *)

Section FindModel.

Context (iter_clauses : gset nat → list nat) (iter_literals : gset Z → list Z).
Hypothesis iter_clauses_permutation : ∀ X, iter_clauses X ≡ₚ elements X.
Hypothesis iter_literals_permutation : ∀ X, iter_literals X ≡ₚ elements X.

(** From the state built by the constructor the search ends, with enough
    fuel, and its answer is justified either way. *)
Lemma find_model_ends N F I :
  well_formed N F → I ≠ 0 →
  ∃ s0 n answer s',
    SATSolver__init__ F (variables_upto N) ∅ "vsids" "none" I = Ok s0
    ∧ (∀ fuel, (n ≤ fuel)%nat →
         _find_model iter_clauses iter_literals fuel s0 = Ok (answer, s'))
    ∧ if answer then is_model N F (var_settings s') else ¬ satisfiable F.
Proof.
  intros Hwf HI.
  destruct (init_total F (variables_upto N) ∅ I) as [s0 Hinit].
  { eapply Forall_impl; [exact Hwf|]. by intros c [? _]. }
  destruct (init_inv N F I s0 Hwf HI Hinit) as (Hb & Hh & Hset & Hq & Hu & Hlen).
  destruct (simplify_ends iter_clauses iter_clauses_permutation N F s0
              Hb Hh Hset Hq) as (n1 & s1 & conflict & Hn1).
  destruct (Hn1 n1 ltac:(lia)) as [_ Hp].
  destruct conflict.
  - destruct (propagated_outcome _ _ _ _ _ Hp) as [Hu1 Href].
    exists s0, n1, false, s1. split; [done|]. split.
    + intros fuel Hfuel. destruct (Hn1 fuel Hfuel) as [Hrun _].
      unfold _find_model. rewrite Hrun. cbn [mbind result_bind].
      by rewrite Hu1.
    + eapply refuted_root; [exact (propagated_base _ _ _ _ _ Hp)| |done].
      rewrite <- (length_fmap Level.flipped), (propagated_flags _ _ _ _ _ Hp).
      by rewrite length_fmap.
  - destruct (propagated_outcome _ _ _ _ _ Hp) as [Hu1 Hq1].
    destruct (find_model_loop_ends iter_clauses iter_literals
                iter_clauses_permutation iter_literals_permutation N F false s1)
      as (n2 & answer & s' & Hn2 & Hans).
    { split; [exact (propagated_base _ _ _ _ _ Hp)|].
      split; [exact (propagated_heap _ _ _ _ _ Hp)|].
      split; [done|]. split; [exact (propagated_queue _ _ _ _ _ Hp)|].
      split; [congruence|]. exact (propagated_settled _ _ _ _ _ Hp). }
    exists s0, (n1 `max` n2)%nat, answer, s'. split; [done|]. split; [|done].
    intros fuel Hfuel. destruct (Hn1 fuel ltac:(lia)) as [Hrun _].
    unfold _find_model. rewrite Hrun. cbn [mbind result_bind].
    replace (is_unsatisfied s1) with false by congruence.
    apply Hn2; lia.
Qed.

(** Whatever fuel a run that returns was given, it returned the answer of
    [find_model_ends]. *)
Lemma find_model_answer N F I s0 fuel answer s' :
  well_formed N F → I ≠ 0 →
  SATSolver__init__ F (variables_upto N) ∅ "vsids" "none" I = Ok s0 →
  _find_model iter_clauses iter_literals fuel s0 = Ok (answer, s') →
  if answer then is_model N F (var_settings s') else ¬ satisfiable F.
Proof.
  intros Hwf HI Hinit Hrun.
  destruct (find_model_ends N F I Hwf HI) as (s0' & n & answer' & s'' & Hinit' & Hn & H).
  assert (s0' = s0) as -> by congruence.
  pose proof (Hn (n `max` fuel)%nat ltac:(lia)) as Hrun'.
  apply (find_model_mono _ _ fuel (n `max` fuel)%nat) in Hrun; [|lia].
  rewrite Hrun in Hrun'. by simplify_eq.
Qed.

End FindModel.

(** * The watch invariant along the search *)

Lemma watch_inv_ext s s' :
  clauses s' = clauses s → sentinels s' = sentinels s → watch_inv s → watch_inv s'.
Proof.
  intros Hc Hs [Htwo Hsound]. split.
  - intros i c Hi Hlen. rewrite Hc in Hi.
    destruct (Htwo i c Hi Hlen) as (w1 & w2 & ? & ? & ? & Hiff).
    exists w1, w2. repeat split; try done;
      rewrite (watchers_ext s' s _ Hs); apply Hiff.
  - intros l i Hi. rewrite (watchers_ext s' s _ Hs) in Hi.
    rewrite Hc. by apply Hsound.
Qed.

Lemma guarded_ext s s' :
  clauses s' = clauses s → sentinels s' = sentinels s →
  add_learned_clause s' = add_learned_clause s → guarded s → guarded s'.
Proof.
  intros Hc Hs Ha [Hw Hl]. split; [by eapply watch_inv_ext|congruence].
Qed.

Lemma visit_effect_learning lit cls s s' :
  visit_effect lit cls s s' → add_learned_clause s' = add_learned_clause s.
Proof. by destruct 1. Qed.

Lemma simple_add_learned_clause_watch_inv s c s' :
  watch_inv s → (2 ≤ length c)%nat → NoDup c →
  _simple_add_learned_clause s c = Ok s' → watch_inv s'.
Proof.
  intros [Htwo Hsound] Hlen Hnd
    (first & Hfirst & Hcls & _ & Hw)%simple_add_learned_clause_Ok.
  assert (∀ l, length (clauses s) ∉ watchers s l) as Hfresh.
  { intros l Hl. destruct (Hsound l _ Hl) as (c' & Hc' & _).
    apply lookup_lt_Some in Hc'. lia. }
  assert (first ≠ List.last c 0 ∧ first ∈ c ∧ List.last c 0 ∈ c) as (Hne & Hf & Hla).
  { destruct c as [|x c]; [done|]. simpl in Hfirst. simplify_eq.
    destruct c as [|y c]; [simpl in Hlen; lia|].
    assert (List.last (first :: y :: c) 0 ∈ y :: c) as Hin.
    { change (List.last (first :: y :: c) 0) with (List.last (y :: c) 0).
      clear. revert y. induction c as [|z c IH]; intros y; [by left|].
      right. apply IH. }
    apply NoDup_cons in Hnd as [Hnotin _].
    split; [by intros Heq; rewrite <- Heq in Hin|]. split; [by left|by right]. }
  split.
  - intros i c' Hi Hlen'. rewrite Hcls in Hi.
    destruct (decide (i = length (clauses s))) as [->|Hi'].
    + rewrite lookup_app_r, Nat.sub_diag in Hi by lia. simpl in Hi. simplify_eq.
      exists first, (List.last c' 0). repeat split; try done.
      * rewrite Hw. destruct (decide _) as [|Hno]; [done|].
        intros Hl. by apply Hfresh in Hl.
      * intros Hl. rewrite Hw. rewrite decide_True by done. set_solver.
    + assert (clauses s !! i = Some c') as Hi''.
      { apply lookup_app_Some in Hi as [|[Hge Hi]]; [done|].
        apply list_lookup_singleton_Some in Hi as [? _]. lia. }
      destruct (Htwo i c' Hi'' Hlen') as (w1 & w2 & ? & ? & ? & Hiff).
      exists w1, w2. repeat split; try done.
      * rewrite Hw. destruct (decide _); [|by apply Hiff].
        intros [?%elem_of_singleton|?]%elem_of_union; [done|by apply Hiff].
      * intros Hl%Hiff. rewrite Hw. destruct (decide _); set_solver.
  - intros l i Hi. rewrite Hw in Hi. rewrite Hcls.
    destruct (decide _) as [Hl|_].
    + apply elem_of_union in Hi as [->%elem_of_singleton|Hi].
      * exists c. split; [by rewrite lookup_app_r, Nat.sub_diag by lia|].
        by destruct Hl as [->| ->].
      * destruct (Hsound l i Hi) as (c' & Hc' & ?). exists c'.
        split; [by apply lookup_app_l_Some|done].
    + destruct (Hsound l i Hi) as (c' & Hc' & ?). exists c'.
      split; [by apply lookup_app_l_Some|done].
Qed.

Section Guarded.

Context (iter_clauses : gset nat → list nat) (iter_literals : gset Z → list Z).

Lemma assign_literal_guarded s lit s' :
  guarded s → _assign_literal iter_clauses s lit = Ok s' → guarded s'.
Proof.
  intros [Hw Hl] Hrun. split; [by eapply assign_literal_watch_inv|].
  apply assign_literal_Ok in Hrun as (top & rest & _ & _ & Hrun).
  eapply (for_each_invariant (λ s, add_learned_clause s = None));
    [| |exact Hrun]; [|done].
  intros s1 cls s2 _ H1 Hv%visit_sentinel_Ok%visit_effect_learning. congruence.
Qed.

Lemma undo_guarded s s' :
  guarded s → _undo iter_literals s = Ok s' → guarded s'.
Proof.
  intros [Hw Hl] Hrun. split; [by eapply undo_watch_inv|].
  apply undo_Ok in Hrun as (top & rest & s1 & _ & Hun & ->).
  rewrite (undone_frame _ _ _ Hun). done.
Qed.

Lemma unit_prop_loop_guarded fuel res s r :
  guarded s → unit_prop_loop iter_clauses fuel res s = Ok r → guarded r.2.
Proof.
  revert s. induction fuel as [|fuel IH]; intros s Hg Hrun;
    destruct (_unit_prop_queue s) as [|q Q] eqn:HQ.
  - rewrite (unit_prop_loop_nil _ _ _ _ HQ) in Hrun. by simplify_eq.
  - cbn [unit_prop_loop] in Hrun. by rewrite HQ in Hrun.
  - rewrite (unit_prop_loop_nil _ _ _ _ HQ) in Hrun. by simplify_eq.
  - rewrite (unit_prop_loop_cons _ _ _ _ q Q HQ) in Hrun.
    destruct (decide _); [by simplify_eq|].
    inv_bind Hrun. eapply IH; [|exact Hrun].
    eapply assign_literal_guarded; [|exact Ha]. done.
Qed.

Lemma simplify_loop_guarded rounds fuel s s' :
  guarded s → simplify_loop iter_clauses rounds fuel s = Ok s' → guarded s'.
Proof.
  revert s. induction rounds as [|rounds IH]; intros s Hg Hrun; [done|].
  rewrite simplify_loop_S in Hrun. inv_bind Hrun. destruct a as [c1 s1].
  apply unit_prop_loop_guarded in Ha; [|done]. cbv beta iota in Hrun.
  destruct (false || c1 || false); [by eapply IH|by simplify_eq].
Qed.

Lemma unroll_flipped_guarded fuel s r :
  guarded s → unroll_flipped iter_literals fuel s = Ok r → guarded r.2.
Proof.
  revert s. induction fuel as [|fuel IH]; intros s Hg Hrun;
    (destruct (levels s) as [|top low] eqn:Hl;
     [cbn [unroll_flipped] in Hrun; unfold _current_level in Hrun;
      by rewrite Hl in Hrun|]);
    destruct (Level.flipped top) eqn:Hfl.
  - cbn [unroll_flipped] in Hrun. unfold _current_level in Hrun.
    rewrite Hl in Hrun. cbn [mbind result_bind] in Hrun. by rewrite Hfl in Hrun.
  - rewrite (unroll_flipped_stop _ _ _ top low Hl Hfl) in Hrun. by simplify_eq.
  - rewrite (unroll_flipped_step _ _ _ top low Hl Hfl) in Hrun.
    inv_bind Hrun. apply undo_guarded in Ha; [|done].
    destruct (decide _); [by simplify_eq|by eapply IH].
  - rewrite (unroll_flipped_stop _ _ _ top low Hl Hfl) in Hrun. by simplify_eq.
Qed.

Lemma backtrack_guarded fuel s r :
  guarded s → backtrack iter_literals fuel s = Ok r → guarded r.2.
Proof.
  intros Hg Hrun. unfold backtrack in Hrun. inv_bind Hrun.
  destruct a as [exhausted s1].
  apply unroll_flipped_guarded in Ha; [|done]. cbv beta iota in Hrun.
  destruct exhausted; [by simplify_eq|].
  inv_bind Hrun. inv_bind Hrun. inv_bind Hrun. inv_bind Hrun. simplify_eq.
  unfold call_add_learned_clause in Ha1.
  destruct Ha as [Hw Hlearn]. simpl in Hlearn. rewrite Hlearn in Ha1.
  simplify_eq. eapply undo_guarded in Ha3; [|by split]. done.
Qed.

Lemma run_updates_guarded s s' : guarded s → run_updates s = Ok s' → guarded s'.
Proof.
  unfold run_updates. intros Hg Hrun.
  destruct (decide _); [done|]. destruct (decide _); [|by simplify_eq].
  eapply (for_each_invariant guarded); [| |exact Hrun]; [|done].
  intros s1 m s2 _ H1 Hm. unfold call_update, _simple_clean_clauses in Hm.
  destruct m; by simplify_eq.
Qed.

Lemma loop_body_guarded fuel flip_var s flip_var' s' :
  guarded s →
  loop_body iter_clauses iter_literals fuel flip_var s = Ok (Continue flip_var' s') →
  guarded s'.
Proof.
  intros Hg Hrun. unfold loop_body in Hrun. inv_bind Hrun.
  apply run_updates_guarded in Ha; [|done].
  inv_bind Hrun. destruct a0 as [choice s2]. cbv beta iota in Hrun.
  assert (guarded s2) as Hg2.
  { unfold choose_literal in Ha0. destruct flip_var.
    - inv_bind Ha0. by simplify_eq.
    - inv_bind Ha0. destruct a0 as [lit s1]. cbv beta iota in Ha0.
      unfold _vsids_calculate in Ha1. inv_bind Ha1. destruct a0 as [lit' heap].
      cbv beta iota in Ha1. simplify_eq.
      destruct (decide _); by simplify_eq. }
  destruct choice as [lit|]; [|done].
  inv_bind Hrun. apply assign_literal_guarded in Ha1; [|done].
  inv_bind Hrun. apply simplify_loop_guarded in Ha2; [|done].
  destruct (is_unsatisfied a1); [|by simplify_eq].
  inv_bind Hrun. destruct a2 as [exhausted s5].
  apply backtrack_guarded in Ha3; [|done]. cbv beta iota in Hrun.
  destruct exhausted; by simplify_eq.
Qed.

Lemma top_of_loop_guarded s0 flip_var s :
  guarded s0 → top_of_loop iter_clauses iter_literals s0 flip_var s → guarded s.
Proof.
  intros Hg. induction 1 as [fuel s Hrun _|fuel flip_var s flip_var' s' _ IH Hrun].
  - by eapply simplify_loop_guarded.
  - by eapply loop_body_guarded.
Qed.

End Guarded.

Lemma init_guarded cls vars S I s0 :
  Forall NoDup cls →
  SATSolver__init__ cls vars S "vsids" "none" I = Ok s0 → guarded s0.
Proof.
  intros Hnd (s1 & Hinit & ->)%init_Ok.
  destruct (initialized_two_watches cls _ s1 Hnd Hinit) as [Htwo Hsound].
  - rewrite (initialized_frame _ _ _ _ Hinit). done.
  - done.
  - split; [|by rewrite vsids_init_frame].
    apply (watch_inv_ext s1); [by rewrite vsids_init_frame..|].
    split; [done|]. intros l i Hi. destruct (Hsound l i Hi) as (c & Hc & Hl & _).
    exists c. split; [|done]. rewrite (initialized_frame _ _ _ _ Hinit). done.
Qed.

(** * Checking that an input is well formed *)

#[global] Instance in_range_dec N l : Decision (in_range N l).
Proof. unfold in_range. apply _. Defined.

Lemma well_formed_alt N F :
  well_formed N F
  ↔ Forall (λ c, c ≠ [] ∧ NoDup c ∧ Forall (in_range N) c
                 ∧ Forall (λ l, - l ∉ c) c) F.
Proof.
  unfold well_formed. apply Forall_proper; [|done]. intros c.
  by rewrite (Forall_forall (λ l, - l ∉ c)).
Qed.

#[global] Instance well_formed_dec N F : Decision (well_formed N F).
Proof.
  refine (cast_if (decide (Forall (λ c, c ≠ [] ∧ NoDup c ∧ Forall (in_range N) c
                                         ∧ Forall (λ l, - l ∉ c) c) F)));
    by rewrite well_formed_alt.
Defined.

Section Correctness.

Context (iter_clauses : gset nat → list nat) (iter_literals : gset Z → list Z).
Hypothesis iter_clauses_permutation : ∀ X, iter_clauses X ≡ₚ elements X.
Hypothesis iter_literals_permutation : ∀ X, iter_literals X ≡ₚ elements X.

(** C1.  For a well-formed input (clauses that are non-empty sets of non-zero
    literals within [1..N], none holding a literal and its negation), an empty
    initial assignment, the default selectors and a non-zero [INTERVAL],
    the constructor succeeds and [_find_model] terminates: some amount of fuel
    suffices, and every run that returns, whatever its fuel, returns the same
    answer.  That answer is [True] exactly when the clauses are satisfiable
    and [False] exactly when they are not.  This holds whatever the order in
    which Python enumerates its sets. *)
Theorem find_model_complete N F I :
  well_formed N F → I ≠ 0 →
  ∃ s0 n answer s',
    SATSolver__init__ F (variables_upto N) ∅ "vsids" "none" I = Ok s0
    ∧ (∀ fuel, (n ≤ fuel)%nat →
         _find_model iter_clauses iter_literals fuel s0 = Ok (answer, s'))
    ∧ (∀ fuel r, _find_model iter_clauses iter_literals fuel s0 = Ok r →
         r = (answer, s'))
    ∧ (answer = true ↔ satisfiable F)
    ∧ (answer = false ↔ ¬ satisfiable F).
Proof.
  intros Hwf HI.
  destruct (find_model_ends iter_clauses iter_literals iter_clauses_permutation
              iter_literals_permutation N F I Hwf HI)
    as (s0 & n & answer & s' & Hinit & Hn & Hans).
  exists s0, n, answer, s'. split; [done|]. split; [done|]. split.
  { intros fuel r Hrun.
    apply (find_model_mono _ _ fuel (n `max` fuel)%nat) in Hrun; [|lia].
    rewrite (Hn (n `max` fuel)%nat) in Hrun by lia. congruence. }
  destruct answer.
  - assert (satisfiable F) by by eapply is_model_satisfiable.
    split; [done|]. split; [done|]. by intros Hno.
  - split; [|done]. split; [done|]. intros Hsat. by destruct Hans.
Qed.

(** C2, for the inputs of C1.  Whenever [_find_model] returns [True] on a
    solver built from a well-formed input with an empty initial assignment,
    every input clause holds a literal of the final [var_settings]. *)
Theorem find_model_sound N F I s0 fuel s' :
  well_formed N F → I ≠ 0 →
  SATSolver__init__ F (variables_upto N) ∅ "vsids" "none" I = Ok s0 →
  _find_model iter_clauses iter_literals fuel s0 = Ok (true, s') →
  ∀ c, c ∈ F → ∃ l, l ∈ c ∧ l ∈ var_settings s'.
Proof.
  intros Hwf HI Hinit Hrun.
  exact (proj1 (find_model_answer iter_clauses iter_literals
                  iter_clauses_permutation iter_literals_permutation
                  N F I s0 fuel true s' Hwf HI Hinit Hrun)).
Qed.

(** C3, for the inputs of C1.  Whenever [_find_model] returns [True] on a
    solver built from a well-formed input with an empty initial assignment,
    the final [var_settings] holds exactly one of [v] and [-v] for every
    variable [v] of [1..N]. *)
Theorem find_model_total N F I s0 fuel s' :
  well_formed N F → I ≠ 0 →
  SATSolver__init__ F (variables_upto N) ∅ "vsids" "none" I = Ok s0 →
  _find_model iter_clauses iter_literals fuel s0 = Ok (true, s') →
  ∀ v, 1 ≤ v ≤ Z.of_nat N →
    (v ∈ var_settings s' ∧ - v ∉ var_settings s')
    ∨ (- v ∈ var_settings s' ∧ v ∉ var_settings s').
Proof.
  intros Hwf HI Hinit Hrun.
  exact (proj2 (find_model_answer iter_clauses iter_literals
                  iter_clauses_permutation iter_literals_permutation
                  N F I s0 fuel true s' Hwf HI Hinit Hrun)).
Qed.

End Correctness.

(** The fourth scenario of the specification: no model. *)
Lemma find_model_complete_witness :
  ∃ s0 n answer s',
    SATSolver__init__ [[1; 2]; [-1; 2]; [1; -2]; [-1; -2]] (variables_upto 2) ∅
      "vsids" "none" 500 = Ok s0
    ∧ (∀ fuel, (n ≤ fuel)%nat →
         _find_model elements elements fuel s0 = Ok (answer, s'))
    ∧ (∀ fuel r, _find_model elements elements fuel s0 = Ok r → r = (answer, s'))
    ∧ (answer = true ↔ satisfiable [[1; 2]; [-1; 2]; [1; -2]; [-1; -2]])
    ∧ (answer = false ↔ ¬ satisfiable [[1; 2]; [-1; 2]; [1; -2]; [-1; -2]]).
Proof.
  apply (find_model_complete elements elements (λ X, reflexivity _)
           (λ X, reflexivity _)); [|lia].
  apply (bool_decide_unpack _). vm_compute. exact I.
Defined.

(** The fifth scenario of the specification. *)
Lemma find_model_sound_witness :
  ∃ s0 s',
    SATSolver__init__ [[1; 2; 3]; [-1; -2; -3]] (variables_upto 3) ∅
      "vsids" "none" 500 = Ok s0
    ∧ _find_model elements elements 10 s0 = Ok (true, s')
    ∧ ∀ c, c ∈ [[1; 2; 3]; [-1; -2; -3]] → ∃ l, l ∈ c ∧ l ∈ var_settings s'.
Proof.
  eexists _, _. split; [vm_compute; reflexivity|]. split; [vm_compute; reflexivity|].
  eapply (find_model_sound elements elements (λ X, reflexivity _)
            (λ X, reflexivity _) 3 _ 500 _ 10); [|lia| |].
  - apply (bool_decide_unpack _). vm_compute. exact I.
  - vm_compute. reflexivity.
  - vm_compute. reflexivity.
Defined.

(** With the initial assignment [{2}] the solver answers [True] and leaves
    the clause [[1; 2; 3]] without a literal in [var_settings]. *)
Lemma find_model_unsound_initial_assignment :
  ∃ s0 s',
    SATSolver__init__ [[-1]; [-3]; [1; 2; 3]; [2; 5]; [2; 6]; [-2; 4]; [-2; -4]]
      (variables_upto 6) {[2]} "vsids" "none" 500 = Ok s0
    ∧ _find_model elements elements 20 s0 = Ok (true, s')
    ∧ [1; 2; 3] ∈ [[-1]; [-3]; [1; 2; 3]; [2; 5]; [2; 6]; [-2; 4]; [-2; -4]]
    ∧ 1 ∉ var_settings s' ∧ 2 ∉ var_settings s' ∧ 3 ∉ var_settings s'.
Proof.
  eexists _, _. split; [vm_compute; reflexivity|]. split; [vm_compute; reflexivity|].
  split; [set_solver|]. split_and!; by vm_compute.
Qed.

(** The second scenario of the specification. *)
Lemma find_model_total_witness :
  ∃ s0 s',
    SATSolver__init__ [[1]; [-2]] (variables_upto 3) ∅ "vsids" "none" 500 = Ok s0
    ∧ _find_model elements elements 10 s0 = Ok (true, s')
    ∧ ∀ v, 1 ≤ v ≤ Z.of_nat 3 →
        (v ∈ var_settings s' ∧ - v ∉ var_settings s')
        ∨ (- v ∈ var_settings s' ∧ v ∉ var_settings s').
Proof.
  eexists _, _. split; [vm_compute; reflexivity|]. split; [vm_compute; reflexivity|].
  eapply (find_model_total elements elements (λ X, reflexivity _)
            (λ X, reflexivity _) 3 [[1]; [-2]] 500 _ 10); [|lia| |].
  - apply (bool_decide_unpack _). vm_compute. exact I.
  - vm_compute. reflexivity.
  - vm_compute. reflexivity.
Defined.

(** The sixth scenario of the specification: with the initial assignment
    [{-1}] the solver answers [True] with both [1] and [-1] in
    [var_settings]. *)
Lemma find_model_both_signs_initial_assignment :
  ∃ s0 s',
    SATSolver__init__ [[1; 2]] (variables_upto 2) {[-1]} "vsids" "none" 500 = Ok s0
    ∧ _find_model elements elements 10 s0 = Ok (true, s')
    ∧ 1 ∈ var_settings s' ∧ - 1 ∈ var_settings s'.
Proof.
  eexists _, _. split; [vm_compute; reflexivity|]. split; [vm_compute; reflexivity|].
  split; by vm_compute.
Qed.

(** * The constructor *)

Lemma init_unknown_heuristic cls vars S h l I :
  Forall (λ c, c ≠ []) cls → h ≠ "vsids"%string →
  SATSolver__init__ cls vars S h l I = Raise NotImplementedError.
Proof.
  intros Hne Hh. unfold SATSolver__init__.
  destruct (initialize_clauses_total cls
    (_initialize_variables vars
       (mkSATSolver S h false [] [] I ∅ ∅ [] [] [] ∅ None None [] 0 0 0)) Hne)
    as [s' ->].
  cbn [mbind result_bind].
  replace (String.eqb "vsids" h) with false; [done|].
  symmetry. apply String.eqb_neq. congruence.
Qed.

Lemma init_unknown_learning cls vars S l I :
  Forall (λ c, c ≠ []) cls → l ≠ "none"%string → l ≠ "simple"%string →
  SATSolver__init__ cls vars S "vsids" l I = Raise NotImplementedError.
Proof.
  intros Hne Hn Hs. unfold SATSolver__init__.
  destruct (initialize_clauses_total cls
    (_initialize_variables vars
       (mkSATSolver S "vsids" false [] [] I ∅ ∅ [] [] [] ∅ None None [] 0 0 0)) Hne)
    as [s' ->].
  cbn [mbind result_bind].
  change (String.eqb "vsids" "vsids") with true.
  cbn [mbind result_bind].
  replace (String.eqb "simple" l) with false
    by (symmetry; apply String.eqb_neq; congruence).
  replace (String.eqb "none" l) with false
    by (symmetry; apply String.eqb_neq; congruence).
  done.
Qed.

(** C4.  What the constructor does with its selectors, once the clauses are
    stored (none of them empty): ["vsids"] with ["none"] is accepted; an
    unknown heuristic and an unknown learning policy raise
    [NotImplementedError]; but ["vsids"] with ["simple"] is not accepted:
    the constructor looks up [self.simple_compute_conflict], a name the class
    does not define, and raises [AttributeError]. *)
Theorem init_selectors cls vars S I :
  Forall (λ c, c ≠ []) cls →
  (∃ s, SATSolver__init__ cls vars S "vsids" "none" I = Ok s)
  ∧ SATSolver__init__ cls vars S "vsids" "simple" I = Raise AttributeError
  ∧ (∀ h l, h ≠ "vsids"%string →
       SATSolver__init__ cls vars S h l I = Raise NotImplementedError)
  ∧ (∀ l, l ≠ "none"%string → l ≠ "simple"%string →
       SATSolver__init__ cls vars S "vsids" l I = Raise NotImplementedError).
Proof.
  intros Hne. split; [by apply init_total|]. split; [by apply init_simple_learning_raises|].
  split; [intros; by apply init_unknown_heuristic|].
  intros; by apply init_unknown_learning.
Qed.

Lemma init_selectors_witness :
  (∃ s, SATSolver__init__ [[1; 2]] {[1; 2]} ∅ "vsids" "none" 500 = Ok s)
  ∧ SATSolver__init__ [[1; 2]] {[1; 2]} ∅ "vsids" "simple" 500
    = Raise AttributeError
  ∧ (∀ h l, h ≠ "vsids"%string →
       SATSolver__init__ [[1; 2]] {[1; 2]} ∅ h l 500 = Raise NotImplementedError)
  ∧ (∀ l, l ≠ "none"%string → l ≠ "simple"%string →
       SATSolver__init__ [[1; 2]] {[1; 2]} ∅ "vsids" l 500
       = Raise NotImplementedError).
Proof. apply (init_selectors [[1; 2]] {[1; 2]} ∅ 500). by repeat constructor. Defined.

Lemma init_var_settings cls vars S I s :
  SATSolver__init__ cls vars S "vsids" "none" I = Ok s → var_settings s = S.
Proof.
  intros (s1 & Hinit & ->)%init_Ok.
  change (var_settings _) with (var_settings (_vsids_init s1)).
  rewrite vsids_init_frame. rewrite (initialized_frame _ _ _ _ Hinit). done.
Qed.

(** C5.  What the constructor leaves in [levels]: one level with decision
    [0], not flipped, whose set [var_settings] is empty; the initial
    assignment [S] is stored under the attribute [varsettings], which nothing
    reads, and in the solver's [var_settings].  So the union of the levels'
    sets equals the global assignment only when [S] is empty. *)
Theorem init_root_level cls vars S I s :
  SATSolver__init__ cls vars S "vsids" "none" I = Ok s →
  ∃ root, levels s = [root]
    ∧ Level.decision root = 0 ∧ Level.flipped root = false
    ∧ Level.var_settings root = ∅ ∧ Level.varsettings root = Some S
    ∧ var_settings s = S
    ∧ (assigned (levels s) = var_settings s ↔ S = ∅).
Proof.
  intros Hinit. pose proof (init_var_settings _ _ _ _ _ Hinit) as HS.
  apply init_Ok in Hinit as (s1 & _ & ->).
  exists (Level.mk 0 ∅ false (Some S)). split_and!; try done.
  rewrite HS. change (assigned _) with (⋃ [(∅ : gset Z)]). simpl.
  rewrite (right_id_L ∅ (∪)). done.
Qed.

Lemma init_root_level_witness :
  ∃ s, SATSolver__init__ [[1; 2]] (variables_upto 2) {[-1]} "vsids" "none" 500 = Ok s
    ∧ ∃ root, levels s = [root]
        ∧ Level.decision root = 0 ∧ Level.flipped root = false
        ∧ Level.var_settings root = ∅ ∧ Level.varsettings root = Some {[-1]}
        ∧ var_settings s = {[-1]}
        ∧ (assigned (levels s) = var_settings s ↔ ({[-1]} : gset Z) = ∅).
Proof.
  eexists. split; [vm_compute; reflexivity|].
  eapply (init_root_level [[1; 2]] (variables_upto 2) {[-1]} 500).
  vm_compute. reflexivity.
Defined.

(** C6.  A run in which [_undo] leaves [var_settings] different from the
    union of the levels' sets: the four clauses over two variables with the
    initial assignment [{-1}].  The first decision runs into a conflict; after
    the [_undo] that follows, [var_settings] is [{-1}] again while the only
    level left, the root, holds no literal. *)
Theorem undo_forgets_initial_assignment :
  ∃ s0 s1 lit s2 s3 s4 s5,
    SATSolver__init__ [[1; 2]; [1; -2]; [-1; 2]; [-1; -2]] (variables_upto 2)
      {[-1]} "vsids" "none" 500 = Ok s0
    ∧ _simplify elements 10 s0 = Ok s1
    ∧ choose_literal false s1 = Ok (Some lit, s2)
    ∧ _assign_literal elements s2 lit = Ok s3
    ∧ _simplify elements 10 s3 = Ok s4
    ∧ is_unsatisfied s4 = true
    ∧ _undo elements (set_is_unsatisfied false s4) = Ok s5
    ∧ var_settings s5 = {[-1]}
    ∧ assigned (levels s5) = ∅.
Proof.
  eexists _, _, _, _, _, _, _.
  split; [vm_compute; reflexivity|]. split; [vm_compute; reflexivity|].
  split; [vm_compute; reflexivity|]. split; [vm_compute; reflexivity|].
  split; [vm_compute; reflexivity|]. split; [vm_compute; reflexivity|].
  split; [vm_compute; reflexivity|]. split; vm_compute; reflexivity.
Qed.

Section Watches.

Context (iter_clauses : gset nat → list nat) (iter_literals : gset Z → list Z).

(** C7.  Every clause with two literals or more is watched by exactly two
    distinct literals, both its own ([two_watches], the first half of
    [watch_inv]; the second half says that the watch sets hold nothing
    else).  For clauses without a repeated literal this holds of the solver
    that the constructor returns and of every state in which [_find_model]
    stands at the top of its loop; and it is kept by every [_assign_literal],
    by every [_undo] and by every [_simple_add_learned_clause] of a clause
    with two literals or more, none repeated. *)
Theorem two_watches_invariant cls vars S I s0 :
  Forall NoDup cls →
  SATSolver__init__ cls vars S "vsids" "none" I = Ok s0 →
  watch_inv s0
  ∧ (∀ flip_var s, top_of_loop iter_clauses iter_literals s0 flip_var s →
       watch_inv s)
  ∧ (∀ s lit s', watch_inv s → _assign_literal iter_clauses s lit = Ok s' →
       watch_inv s')
  ∧ (∀ s s', watch_inv s → _undo iter_literals s = Ok s' → watch_inv s')
  ∧ (∀ s c s', watch_inv s → (2 ≤ length c)%nat → NoDup c →
       _simple_add_learned_clause s c = Ok s' → watch_inv s').
Proof.
  intros Hnd Hinit. pose proof (init_guarded _ _ _ _ _ Hnd Hinit) as Hg.
  split; [by destruct Hg|]. split.
  { intros flip_var s Htop.
    by destruct (top_of_loop_guarded _ _ _ _ _ Hg Htop). }
  split; [intros; by eapply assign_literal_watch_inv|].
  split; [intros; by eapply undo_watch_inv|].
  intros; by eapply simple_add_learned_clause_watch_inv.
Qed.

End Watches.

Lemma two_watches_invariant_witness :
  ∃ s0,
    SATSolver__init__ [[2; -3]; [1]; [3; -3]; [2; -2]; [3; -2]] (variables_upto 3)
      ∅ "vsids" "none" 500 = Ok s0
    ∧ watch_inv s0
    ∧ (∀ flip_var s, top_of_loop elements elements s0 flip_var s → watch_inv s)
    ∧ (∀ s lit s', watch_inv s → _assign_literal elements s lit = Ok s' →
         watch_inv s')
    ∧ (∀ s s', watch_inv s → _undo elements s = Ok s' → watch_inv s')
    ∧ (∀ s c s', watch_inv s → (2 ≤ length c)%nat → NoDup c →
         _simple_add_learned_clause s c = Ok s' → watch_inv s').
Proof.
  eexists. split; [vm_compute; reflexivity|].
  eapply (two_watches_invariant elements elements
            [[2; -3]; [1]; [3; -3]; [2; -2]; [3; -2]] (variables_upto 3) ∅ 500).
  - apply (bool_decide_unpack _). vm_compute. exact I.
  - vm_compute. reflexivity.
Defined.

Lemma assign_literal_frame_witness :
  ∃ s0 s',
    SATSolver__init__ [[1; 2]; [-1; 2]] (variables_upto 2) ∅ "vsids" "none" 500
    = Ok s0
    ∧ _assign_literal elements s0 (-2) = Ok s'
    ∧ clauses s' = clauses s0
    ∧ ∀ l, l ≠ - -2 → watchers s0 l ⊆ watchers s' l.
Proof.
  eexists _, _. split; [vm_compute; reflexivity|]. split; [vm_compute; reflexivity|].
  eapply (assign_literal_frame elements). vm_compute. reflexivity.
Defined.

Lemma learned_unit_clause_not_queued_witness :
  ∃ s s',
    SATSolver__init__ [[1; 2]; [-1; 2]] (variables_upto 2) ∅ "vsids" "none" 500
    = Ok s
    ∧ _simple_add_learned_clause s [-2] = Ok s'
    ∧ clauses s' = clauses s ++ [[-2]]
    ∧ (∀ l, length (clauses s) ∈ watchers s' l
            ↔ l = -2 ∨ length (clauses s) ∈ watchers s l)
    ∧ watchers s' (-2) = {[length (clauses s)]} ∪ watchers s (-2)
    ∧ (∀ l, l ≠ -2 → watchers s' l = watchers s l)
    ∧ _unit_prop_queue s' = _unit_prop_queue s
    ∧ ∀ s0 i, ∃ s1, initialize_clause s0 (i, [-2]) = Ok s1
                    ∧ _unit_prop_queue s1 = -2 :: _unit_prop_queue s0
                    ∧ sentinels s1 = sentinels s0.
Proof.
  eexists _, _. split; [vm_compute; reflexivity|]. split; [vm_compute; reflexivity|].
  eapply learned_unit_clause_not_queued. vm_compute. reflexivity.
Defined.

(** * More on the constructor *)

Lemma for_each_raises {S A : Type} (body : S → A → result S) l1 y l2 e :
  (∀ s x, x ∈ l1 → ∃ s', body s x = Ok s') →
  (∀ s, body s y = Raise e) →
  ∀ s, for_each body s (l1 ++ y :: l2) = Raise e.
Proof.
  intros Hok Hy. induction l1 as [|x l1 IH]; intros s; simpl.
  - by rewrite Hy.
  - destruct (Hok s x) as [s' ->]; [by left|]. simpl.
    apply IH. intros s1 x1 Hx1. apply Hok. by right.
Qed.

Lemma first_empty_clause (cls : list (list Z)) :
  [] ∈ cls → ∃ l1 l2, cls = l1 ++ [] :: l2 ∧ Forall (λ c, c ≠ []) l1.
Proof.
  induction cls as [|c cls IH]; intros Hin; [by apply elem_of_nil in Hin|].
  destruct c as [|x c].
  - by exists [], cls.
  - apply elem_of_cons in Hin as [|Hin]; [done|].
    destruct (IH Hin) as (l1 & l2 & -> & Hne).
    exists ((x :: c) :: l1), l2. split; [done|]. by constructor.
Qed.

Lemma initialize_clauses_empty_clause cls s :
  [] ∈ cls → _initialize_clauses cls s = Raise IndexError.
Proof.
  intros (l1 & l2 & -> & Hne)%first_empty_clause. unfold _initialize_clauses.
  rewrite imap_app, imap_cons. apply for_each_raises; [|done].
  intros s1 [i c] (k & c' & [= -> ->] & Hk)%elem_of_lookup_imap_1.
  apply initialize_clause_total. by eapply Forall_lookup_1 in Hne.
Qed.

(** An empty clause among the input makes the constructor raise [IndexError],
    whatever the selectors: [_initialize_clauses] reads the first literal of
    every clause that is not a unit clause. *)
Theorem init_empty_clause cls vars S h l I :
  [] ∈ cls → SATSolver__init__ cls vars S h l I = Raise IndexError.
Proof.
  intros Hin. unfold SATSolver__init__.
  by rewrite (initialize_clauses_empty_clause cls _ Hin).
Qed.

Lemma init_empty_clause_witness :
  SATSolver__init__ [[1; 2]; []; [-1]] {[1; 2]} ∅ "vsids" "none" 500
  = Raise IndexError.
Proof. apply init_empty_clause. right. left. Defined.

(** What the constructor sets up from the clauses, whatever the initial
    assignment: the clause store holds the clauses as given; the propagation
    queue holds the literals of the one-literal clauses, the last clause to be
    popped first; a clause is watched by a literal exactly when the clause is
    not a one-literal clause and the literal is its first or its last one;
    no variable is marked as set; nothing has been decided or learned. *)
Theorem init_state cls vars S0 I s :
  SATSolver__init__ cls vars S0 "vsids" "none" I = Ok s →
  clauses s = cls
  ∧ _unit_prop_queue s = reverse (unit_literals cls)
  ∧ (∀ l i, i ∈ watchers s l
            ↔ ∃ c, cls !! i = Some c ∧ length c ≠ 1%nat ∧ ends c l)
  ∧ variable_set s = replicate (S (size vars)) false
  ∧ is_unsatisfied s = false
  ∧ num_decisions s = 0 ∧ num_learned_clauses s = 0
  ∧ original_num_clauses s = length cls
  ∧ INTERVAL s = I.
Proof.
  intros (s1 & Hinit & ->)%init_Ok.
  pose proof (vsids_init_frame s1) as HX.
  pose proof (initialized_frame _ _ _ _ Hinit) as H1.
  split_and!.
  - transitivity (clauses s1); [exact (f_equal clauses HX)|].
    exact (f_equal clauses H1).
  - transitivity (_unit_prop_queue s1); [exact (f_equal _unit_prop_queue HX)|].
    rewrite (initialized_queue _ _ _ _ Hinit). apply app_nil_r.
  - intros l i. change (watchers _ l) with (watchers (_vsids_init s1) l).
    rewrite (watchers_ext _ s1 l (f_equal sentinels HX)).
    rewrite (initialized_watchers _ _ _ _ Hinit).
    change (watchers _ l) with (∅ : gset nat). rewrite Nat.sub_0_r. split.
    + intros [Hi|(c & _ & Hc)]; [set_solver|by exists c].
    + intros (c & Hc). right. exists c. split; [lia|done].
  - transitivity (variable_set s1); [exact (f_equal variable_set HX)|].
    exact (f_equal variable_set H1).
  - transitivity (is_unsatisfied s1); [exact (f_equal is_unsatisfied HX)|].
    exact (f_equal is_unsatisfied H1).
  - transitivity (num_decisions s1); [exact (f_equal num_decisions HX)|].
    exact (f_equal num_decisions H1).
  - transitivity (num_learned_clauses s1);
      [exact (f_equal num_learned_clauses HX)|].
    exact (f_equal num_learned_clauses H1).
  - done.
  - transitivity (INTERVAL s1); [exact (f_equal INTERVAL HX)|].
    exact (f_equal INTERVAL H1).
Qed.

Lemma init_state_witness :
  ∃ s,
    SATSolver__init__ [[2; -3]; [1]; [3; -3]; [2; -2]; [3; -2]] {[1; 2; 3]} ∅
      "vsids" "none" 500 = Ok s
    ∧ clauses s = [[2; -3]; [1]; [3; -3]; [2; -2]; [3; -2]]
    ∧ _unit_prop_queue s
      = reverse (unit_literals [[2; -3]; [1]; [3; -3]; [2; -2]; [3; -2]])
    ∧ (∀ l i, i ∈ watchers s l
              ↔ ∃ c, [[2; -3]; [1]; [3; -3]; [2; -2]; [3; -2]] !! i = Some c
                     ∧ length c ≠ 1%nat ∧ ends c l)
    ∧ variable_set s = replicate (S (size ({[1; 2; 3]} : gset Z))) false
    ∧ is_unsatisfied s = false
    ∧ num_decisions s = 0 ∧ num_learned_clauses s = 0
    ∧ original_num_clauses s
      = length [[2; -3]; [1]; [3; -3]; [2; -2]; [3; -2]]
    ∧ INTERVAL s = 500.
Proof.
  eexists. split; [vm_compute; reflexivity|].
  eapply (init_state _ {[1; 2; 3]} ∅ 500). vm_compute. reflexivity.
Defined.

(** * The VSIDS heuristic *)

Lemma nfloat_opp a : _nfloat a = - a.
Proof. unfold _nfloat. case_decide; lia. Qed.

Lemma vsids_init_var_scores s v l :
  lit_scores (vsids_init_var s v) !! l
  = if decide (l = - v) then Some (- occurrences s (- v))
    else if decide (l = v) then Some (- occurrences s v)
    else lit_scores s !! l.
Proof.
  unfold vsids_init_var. cbn [lit_scores set_lit_heap set_lit_scores].
  change (occurrences (set_lit_scores _ s) (- v)) with (occurrences s (- v)).
  rewrite !nfloat_opp.
  destruct (decide (l = - v)) as [->|Hl]; [by rewrite lookup_insert_eq|].
  rewrite lookup_insert_ne by done.
  destruct (decide (l = v)) as [->|Hl']; [by rewrite lookup_insert_eq|].
  by rewrite lookup_insert_ne.
Qed.

Lemma vsids_init_var_heap s v e :
  e ∈ lit_heap (vsids_init_var s v)
  ↔ e = (- occurrences s (- v), - v) ∨ e = (- occurrences s v, v) ∨ e ∈ lit_heap s.
Proof.
  unfold vsids_init_var. cbn [lit_heap set_lit_heap set_lit_scores].
  rewrite !elem_of_heappush.
  change (occurrences (set_lit_heap _ _) (- v)) with (occurrences s (- v)).
  change (occurrences (set_lit_scores _ _) v) with (occurrences s v).
  by rewrite !nfloat_opp.
Qed.

Lemma vsids_init_var_occurrences s v l :
  occurrences (vsids_init_var s v) l = occurrences s l.
Proof. reflexivity. Qed.

Lemma vsids_init_vars_scores vars s l :
  lit_scores (foldl vsids_init_var s vars) !! l
  = if decide (l ∈ vars ∨ - l ∈ vars) then Some (- occurrences s l)
    else lit_scores s !! l.
Proof.
  revert s. induction vars as [|v vars IH]; intros s; cbn [foldl].
  - rewrite decide_False; [done|]. rewrite !elem_of_nil. tauto.
  - rewrite IH, vsids_init_var_occurrences, vsids_init_var_scores.
    destruct (decide (l ∈ vars ∨ - l ∈ vars)) as [Hin|Hno].
    + rewrite decide_True; [done|]. rewrite !elem_of_cons. tauto.
    + destruct (decide (l = - v)) as [->|Hl].
      * rewrite decide_True; [done|]. rewrite !elem_of_cons. right. left. lia.
      * destruct (decide (l = v)) as [->|Hl'].
        -- rewrite decide_True; [done|]. rewrite !elem_of_cons. by left; left.
        -- rewrite decide_False; [done|]. rewrite !elem_of_cons.
           intros [[?|?]|[?|?]]; try tauto; lia.
Qed.

Lemma vsids_init_vars_heap vars s e :
  e ∈ lit_heap (foldl vsids_init_var s vars)
  ↔ e ∈ lit_heap s
    ∨ ((e.2 ∈ vars ∨ - e.2 ∈ vars) ∧ e.1 = - occurrences s e.2).
Proof.
  revert s. induction vars as [|v vars IH]; intros s; cbn [foldl].
  - rewrite !elem_of_nil. tauto.
  - rewrite IH, vsids_init_var_heap, !elem_of_cons.
    destruct e as [x l]. cbn [fst snd]. split.
    + intros [[[= -> ->]|[[= -> ->]|?]]|[[?|?] ?]].
      * right. split; [|done]. right. left. lia.
      * right. split; [|done]. by left; left.
      * by left.
      * right. split; [|done]. by left; right.
      * right. split; [|done]. by right; right.
    + intros [?|[[[->|?]|[Hl|?]] ->]].
      * by left; right; right.
      * left. by right; left.
      * right. split; [|done]. by left.
      * assert (l = - v) as -> by lia. left. by left.
      * right. split; [|done]. by right.
Qed.

Lemma literal_of_range (n : nat) l :
  l ∈ seqZ 1 (Z.of_nat n) ∨ - l ∈ seqZ 1 (Z.of_nat n)
  ↔ l ≠ 0 ∧ Z.abs l ≤ Z.of_nat n.
Proof. rewrite !elem_of_seqZ. lia. Qed.

Lemma init_scores_heap cls vars S0 I s :
  SATSolver__init__ cls vars S0 "vsids" "none" I = Ok s →
  (∀ l, lit_scores s !! l
        = if decide (l ≠ 0 ∧ Z.abs l ≤ Z.of_nat (size vars))
          then Some (- occurrences s l) else None)
  ∧ (∀ x l, (x, l) ∈ lit_heap s
            ↔ (l ≠ 0 ∧ Z.abs l ≤ Z.of_nat (size vars)) ∧ x = - occurrences s l).
Proof.
  intros (s1 & Hinit & ->)%init_Ok.
  assert (variable_set s1 = replicate (S (size vars)) false) as HVS
    by exact (f_equal variable_set (initialized_frame _ _ _ _ Hinit)).
  assert (Z.of_nat (length (variable_set s1)) - 1 = Z.of_nat (size vars)) as Hn.
  { rewrite HVS, length_replicate. lia. }
  assert (∀ l, occurrences (_vsids_init s1) l = occurrences s1 l) as Hocc.
  { intros l. unfold occurrences. by rewrite vsids_init_occurrence_count. }
  split.
  - intros l. change (lit_scores _) with (lit_scores (_vsids_init s1)).
    change (occurrences _ l) with (occurrences (_vsids_init s1) l).
    rewrite Hocc. unfold _vsids_init. rewrite Hn, vsids_init_vars_scores.
    change (occurrences (set_lit_scores _ _) l) with (occurrences s1 l).
    destruct (decide (l ∈ _ ∨ _)) as [Hl|Hl]; rewrite literal_of_range in Hl.
    + by rewrite decide_True.
    + by rewrite decide_False.
  - intros x l. change (lit_heap _) with (lit_heap (_vsids_init s1)).
    change (occurrences _ l) with (occurrences (_vsids_init s1) l).
    rewrite Hocc. unfold _vsids_init. rewrite Hn, vsids_init_vars_heap.
    cbn [fst snd]. rewrite literal_of_range.
    change (occurrences (set_lit_scores _ _) l) with (occurrences s1 l).
    change (lit_heap (set_lit_scores _ _)) with (@nil (Z * Z)).
    rewrite elem_of_nil. tauto.
Qed.



(** * What an assignment and its undoing change *)

Lemma visit_effect_frame lit cls s s' :
  visit_effect lit cls s s' →
  s' = set_sentinels (sentinels s') (set_unit_prop_queue (_unit_prop_queue s') s)
  ∧ ∃ new, _unit_prop_queue s' = new ++ _unit_prop_queue s.
Proof.
  destruct 1 as [| | c o |].
  - split; [by destruct s|by exists []].
  - split; [by destruct s|by exists []].
  - split; [by destruct s|by exists [o]].
  - split; [by destruct s|by exists []].
Qed.

Section Effects.

Context (iter_clauses : gset nat → list nat) (iter_literals : gset Z → list Z).

Lemma assign_literal_changes s lit s' :
  _assign_literal iter_clauses s lit = Ok s' →
  ∃ top rest new,
    levels s = top :: rest
    ∧ (var_index lit < length (variable_set s))%nat
    ∧ _unit_prop_queue s' = new ++ _unit_prop_queue s
    ∧ s' = set_sentinels (sentinels s')
             (set_unit_prop_queue (_unit_prop_queue s') (record_literal lit top s)).
Proof.
  intros (top & rest & Hl & Hlt & Hrun)%assign_literal_Ok.
  exists top, rest.
  cut (s' = set_sentinels (sentinels s')
              (set_unit_prop_queue (_unit_prop_queue s') (record_literal lit top s))
       ∧ ∃ new, _unit_prop_queue s' = new ++ _unit_prop_queue s).
  { intros [Hfr [new Hnew]]. by exists new. }
  eapply (for_each_invariant
            (λ s1, s1 = set_sentinels (sentinels s1)
                          (set_unit_prop_queue (_unit_prop_queue s1)
                             (record_literal lit top s))
                   ∧ ∃ new, _unit_prop_queue s1 = new ++ _unit_prop_queue s));
    [| |exact Hrun].
  - intros s1 cls s2 _ [Hfr [new Hnew]] [Hfr2 [new2 Hnew2]]%visit_sentinel_Ok%visit_effect_frame.
    split.
    + rewrite Hfr2 at 1. rewrite Hfr at 1. done.
    + exists (new2 ++ new). by rewrite Hnew2, Hnew, app_assoc.
  - split; [done|by exists []].
Qed.


Hypothesis iter_literals_permutation : ∀ X, iter_literals X ≡ₚ elements X.



(** Deciding a literal and undoing the decision: if the literal is not
    assigned, its variable not marked, and both its literals have a score,
    then after pushing a level for it and assigning it, [_undo] returns and
    gives back the assignment, the marks and the levels there were; the
    clauses are untouched. *)
Theorem assign_undo_round_trip s lit flip s1 :
  lit ∉ var_settings s → unmarked s lit →
  is_Some (lit_scores s !! Z.abs lit) →
  is_Some (lit_scores s !! (- Z.abs lit)) →
  _assign_literal iter_clauses
    (set_levels (Level.__init__ lit flip :: levels s) s) lit = Ok s1 →
  ∃ s2, _undo iter_literals s1 = Ok s2
    ∧ var_settings s2 = var_settings s
    ∧ variable_set s2 = variable_set s
    ∧ levels s2 = levels s
    ∧ clauses s2 = clauses s.
Proof.
  intros Hfresh Hun [x Hx] [y Hy]
    (top & rest & new & Hl & Hlt & Hnew & Hfr)%assign_literal_changes.
  cbn in Hl. injection Hl as <- <-. cbn in Hlt.
  assert (levels s1 = Level.add lit (Level.__init__ lit flip) :: levels s) as Hl1
    by exact (f_equal levels Hfr).
  assert (var_settings s1 = {[lit]} ∪ var_settings s) as HV
    by exact (f_equal var_settings Hfr).
  assert (variable_set s1 = <[var_index lit := true]> (variable_set s)) as HVS
    by exact (f_equal variable_set Hfr).
  assert (lit_scores s1 = lit_scores s) as HS by exact (f_equal lit_scores Hfr).
  assert (clauses s1 = clauses s) as HC by exact (f_equal clauses Hfr).
  assert (iter_literals ({[lit]} ∪ ∅) = [lit]) as Hit.
  { apply Permutation_singleton_r. rewrite iter_literals_permutation.
    by rewrite (right_id_L ∅ (∪)), elements_singleton. }
  unfold _undo, _current_level. rewrite Hl1. cbn [mbind result_bind].
  cbn [Level.var_settings Level.add Level.__init__]. rewrite Hit.
  cbn [for_each]. unfold unset_literal.
  rewrite decide_True by (rewrite HV; set_solver).
  unfold _vsids_lit_unset, score_at. cbn [lit_scores set_var_settings set_lit_heap].
  rewrite HS, Hx. cbn [mbind result_bind]. rewrite Hy. cbn [mbind result_bind].
  unfold mark_variable. cbn [variable_set set_lit_heap set_var_settings].
  rewrite decide_True by (rewrite HVS, length_insert; done).
  cbn [mbind result_bind levels set_variable_set set_lit_heap set_var_settings].
  rewrite Hl1. eexists. split; [done|]. cbn. split_and!; try done.
  - rewrite HV. set_solver.
  - rewrite HVS, list_insert_insert_eq. by apply list_insert_id.
Qed.

End Effects.



Lemma assign_undo_round_trip_witness :
  ∃ s s1,
    SATSolver__init__ [[1; 2]; [-1; 2]] (variables_upto 2) ∅ "vsids" "none" 500
    = Ok s
    ∧ _assign_literal elements
        (set_levels (Level.__init__ (-2) false :: levels s) s) (-2) = Ok s1
    ∧ ∃ s2, _undo elements s1 = Ok s2
        ∧ var_settings s2 = var_settings s
        ∧ variable_set s2 = variable_set s
        ∧ levels s2 = levels s
        ∧ clauses s2 = clauses s.
Proof.
  eexists _, _. split; [vm_compute; reflexivity|]. split; [vm_compute; reflexivity|].
  eapply (assign_undo_round_trip elements elements (λ X, reflexivity _) _ (-2) false).
  - apply (bool_decide_unpack _). vm_compute. exact I.
  - vm_compute. reflexivity.
  - eexists. vm_compute. reflexivity.
  - eexists. vm_compute. reflexivity.
  - vm_compute. reflexivity.
Defined.

(** * Properties kept along the search *)

Lemma vsids_calculate_frame s lit s' :
  _vsids_calculate s = Ok (lit, s') → s' = set_lit_heap (lit_heap s') s.
Proof.
  unfold _vsids_calculate. intros Hrun. inv_bind Hrun. destruct a as [l h].
  cbv beta iota in Hrun. by simplify_eq.
Qed.

Section SearchInvariant.

Context (iter_clauses : gset nat → list nat) (iter_literals : gset Z → list Z).

(** A property of the solver that the steps of the search keep, in a solver
    that learns no clause. *)
Variable P : SATSolver → Prop.
Hypothesis P_learning : ∀ s, P s → add_learned_clause s = None.
Hypothesis P_queue : ∀ Q s, P s → P (set_unit_prop_queue Q s).
Hypothesis P_unsat : ∀ b s, P s → P (set_is_unsatisfied b s).
Hypothesis P_levels : ∀ L s, P s → P (set_levels L s).
Hypothesis P_decisions : ∀ n s, P s → P (set_num_decisions n s).
Hypothesis P_assign : ∀ s lit s',
  P s → _assign_literal iter_clauses s lit = Ok s' → P s'.
Hypothesis P_undo : ∀ s s', P s → _undo iter_literals s = Ok s' → P s'.
Hypothesis P_calculate : ∀ s lit s',
  P s → _vsids_calculate s = Ok (lit, s') → P s'.

Lemma unit_prop_loop_keeps fuel res s r :
  P s → unit_prop_loop iter_clauses fuel res s = Ok r → P r.2.
Proof.
  revert s. induction fuel as [|fuel IH]; intros s HP Hrun;
    destruct (_unit_prop_queue s) as [|q Q] eqn:HQ.
  - rewrite (unit_prop_loop_nil _ _ _ _ HQ) in Hrun. by simplify_eq.
  - cbn [unit_prop_loop] in Hrun. by rewrite HQ in Hrun.
  - rewrite (unit_prop_loop_nil _ _ _ _ HQ) in Hrun. by simplify_eq.
  - rewrite (unit_prop_loop_cons _ _ _ _ q Q HQ) in Hrun.
    destruct (decide _).
    + simplify_eq. cbn. by apply P_queue, P_unsat, P_queue.
    + inv_bind Hrun. eapply IH; [|exact Hrun].
      eapply P_assign; [|exact Ha]. by apply P_queue.
Qed.

Lemma simplify_loop_keeps rounds fuel s s' :
  P s → simplify_loop iter_clauses rounds fuel s = Ok s' → P s'.
Proof.
  revert s. induction rounds as [|rounds IH]; intros s HP Hrun; [done|].
  rewrite simplify_loop_S in Hrun. inv_bind Hrun. destruct a as [c1 s1].
  apply unit_prop_loop_keeps in Ha; [|done]. cbv beta iota in Hrun.
  destruct (false || c1 || false); [by eapply IH|by simplify_eq].
Qed.

Lemma unroll_flipped_keeps fuel s r :
  P s → unroll_flipped iter_literals fuel s = Ok r → P r.2.
Proof.
  revert s. induction fuel as [|fuel IH]; intros s HP Hrun;
    (destruct (levels s) as [|top low] eqn:Hl;
     [cbn [unroll_flipped] in Hrun; unfold _current_level in Hrun;
      by rewrite Hl in Hrun|]);
    destruct (Level.flipped top) eqn:Hfl.
  - cbn [unroll_flipped] in Hrun. unfold _current_level in Hrun.
    rewrite Hl in Hrun. cbn [mbind result_bind] in Hrun. by rewrite Hfl in Hrun.
  - rewrite (unroll_flipped_stop _ _ _ top low Hl Hfl) in Hrun. by simplify_eq.
  - rewrite (unroll_flipped_step _ _ _ top low Hl Hfl) in Hrun.
    inv_bind Hrun. apply P_undo in Ha; [|done].
    destruct (decide _); [by simplify_eq|by eapply IH].
  - rewrite (unroll_flipped_stop _ _ _ top low Hl Hfl) in Hrun. by simplify_eq.
Qed.

Lemma backtrack_keeps fuel s r :
  P s → backtrack iter_literals fuel s = Ok r → P r.2.
Proof.
  intros HP Hrun. unfold backtrack in Hrun. inv_bind Hrun.
  destruct a as [exhausted s1].
  apply unroll_flipped_keeps in Ha; [|by apply P_unsat]. cbv beta iota in Hrun.
  destruct exhausted; [by simplify_eq|].
  inv_bind Hrun. inv_bind Hrun. inv_bind Hrun. inv_bind Hrun. simplify_eq.
  unfold call_add_learned_clause in Ha1. cbn [snd] in Ha.
  rewrite (P_learning _ Ha) in Ha1. simplify_eq.
  eapply P_undo in Ha3; [|exact Ha]. cbn. by apply P_levels.
Qed.

Lemma run_updates_keeps s s' : P s → run_updates s = Ok s' → P s'.
Proof.
  unfold run_updates. intros HP Hrun.
  destruct (decide _); [done|]. destruct (decide _); [|by simplify_eq].
  eapply (for_each_invariant P); [| |exact Hrun]; [|done].
  intros s1 m s2 _ H1 Hm. unfold call_update, _simple_clean_clauses in Hm.
  destruct m; by simplify_eq.
Qed.

Lemma choose_literal_keeps flip_var s choice s' :
  P s → choose_literal flip_var s = Ok (choice, s') → P s'.
Proof.
  intros HP Hrun. unfold choose_literal in Hrun. destruct flip_var.
  - inv_bind Hrun. by simplify_eq.
  - inv_bind Hrun. destruct a as [lit s1]. cbv beta iota in Hrun.
    apply P_calculate in Ha; [|done].
    destruct (decide _); simplify_eq; [by apply P_decisions|].
    by apply P_levels, P_decisions.
Qed.

Lemma loop_body_keeps fuel flip_var s p :
  P s → loop_body iter_clauses iter_literals fuel flip_var s = Ok p →
  P (pass_state p).
Proof.
  intros HP Hrun. unfold loop_body in Hrun. inv_bind Hrun.
  apply run_updates_keeps in Ha; [|done].
  inv_bind Hrun. destruct a0 as [choice s2]. cbv beta iota in Hrun.
  apply choose_literal_keeps in Ha0; [|done].
  destruct choice as [lit|]; [|by simplify_eq].
  inv_bind Hrun. apply P_assign in Ha1; [|done].
  inv_bind Hrun. apply simplify_loop_keeps in Ha2; [|done].
  destruct (is_unsatisfied a1); [|by simplify_eq].
  inv_bind Hrun. destruct a2 as [exhausted s5].
  apply backtrack_keeps in Ha3; [|done]. cbv beta iota in Hrun.
  destruct exhausted; by simplify_eq.
Qed.

Lemma find_model_loop_keeps rounds fuel flip_var s r :
  P s →
  find_model_loop iter_clauses iter_literals rounds fuel flip_var s = Ok r →
  P r.2.
Proof.
  revert flip_var s. induction rounds as [|rounds IH]; intros flip_var s HP Hrun;
    [done|].
  cbn [find_model_loop] in Hrun. inv_bind Hrun.
  apply loop_body_keeps in Ha; [|done].
  destruct a as [answer s1|flip_var' s1]; cbv beta iota in Hrun.
  - by simplify_eq.
  - by eapply IH.
Qed.

Lemma find_model_keeps fuel s r :
  P s → _find_model iter_clauses iter_literals fuel s = Ok r → P r.2.
Proof.
  intros HP Hrun. unfold _find_model in Hrun. inv_bind Hrun.
  apply simplify_loop_keeps in Ha; [|done].
  destruct (is_unsatisfied a); [by simplify_eq|].
  by eapply find_model_loop_keeps.
Qed.

Lemma top_of_loop_keeps s0 flip_var s :
  P s0 → top_of_loop iter_clauses iter_literals s0 flip_var s → P s.
Proof.
  intros HP. induction 1 as [fuel s Hrun _|fuel flip_var s flip_var' s' _ IH Hrun].
  - by eapply simplify_loop_keeps.
  - by apply loop_body_keeps in Hrun.
Qed.

End SearchInvariant.

(** * What the search never changes *)

Section Frame.

Context (iter_clauses : gset nat → list nat) (iter_literals : gset Z → list Z).

Lemma search_frame_refl s : add_learned_clause s = None → search_frame s s.
Proof. by intros; repeat split. Qed.

Lemma search_frame_assign s s1 lit s2 :
  search_frame s s1 → _assign_literal iter_clauses s1 lit = Ok s2 →
  search_frame s s2.
Proof.
  intros (H1 & H2 & H3 & H4 & H5 & H6 & H7 & H8 & H9)
    (top & rest & new & Hl & Hlt & Hnew & Hfr)%assign_literal_changes.
  split_and!.
  - by rewrite (f_equal add_learned_clause Hfr).
  - by rewrite (f_equal clauses Hfr).
  - by rewrite (f_equal lit_scores Hfr).
  - by rewrite (f_equal occurrence_count Hfr).
  - rewrite (f_equal variable_set Hfr). cbn. by rewrite length_insert.
  - by rewrite (f_equal INTERVAL Hfr).
  - by rewrite (f_equal update_functions Hfr).
  - by rewrite (f_equal num_learned_clauses Hfr).
  - by rewrite (f_equal original_num_clauses Hfr).
Qed.

Lemma search_frame_undo s s1 s2 :
  search_frame s s1 → _undo iter_literals s1 = Ok s2 → search_frame s s2.
Proof.
  intros (H1 & H2 & H3 & H4 & H5 & H6 & H7 & H8 & H9)
    (top & rest & s3 & Hl & Hun & ->)%undo_Ok.
  pose proof (undone_frame _ _ _ Hun) as Hfr.
  split_and!; cbn.
  - by rewrite (f_equal add_learned_clause Hfr).
  - by rewrite (f_equal clauses Hfr).
  - by rewrite (f_equal lit_scores Hfr).
  - by rewrite (f_equal occurrence_count Hfr).
  - by rewrite (undone_length _ _ _ Hun).
  - by rewrite (f_equal INTERVAL Hfr).
  - by rewrite (f_equal update_functions Hfr).
  - by rewrite (f_equal num_learned_clauses Hfr).
  - by rewrite (f_equal original_num_clauses Hfr).
Qed.

Lemma search_frame_calculate s s1 lit s2 :
  search_frame s s1 → _vsids_calculate s1 = Ok (lit, s2) → search_frame s s2.
Proof. intros H ->%vsids_calculate_frame. exact H. Qed.

(** The search leaves the problem as it is: when [_find_model] returns, in a
    solver that learns no clause, the clause store, the scores, the occurrence
    counts, the number of variables, [INTERVAL], the update functions and the
    counters of clauses are what they were. *)
Theorem find_model_frame fuel s answer s' :
  add_learned_clause s = None →
  _find_model iter_clauses iter_literals fuel s = Ok (answer, s') →
  clauses s' = clauses s
  ∧ lit_scores s' = lit_scores s
  ∧ occurrence_count s' = occurrence_count s
  ∧ length (variable_set s') = length (variable_set s)
  ∧ INTERVAL s' = INTERVAL s
  ∧ update_functions s' = update_functions s
  ∧ num_learned_clauses s' = num_learned_clauses s
  ∧ original_num_clauses s' = original_num_clauses s.
Proof.
  intros Hlearn Hrun.
  apply (find_model_keeps iter_clauses iter_literals (search_frame s)) in Hrun.
  - by destruct Hrun as [_ Hrun].
  - by intros s1 [? _].
  - intros Q s1 H. exact H.
  - intros b s1 H. exact H.
  - intros L s1 H. exact H.
  - intros n s1 H. exact H.
  - intros s1 lit s2. apply search_frame_assign.
  - intros s1 s2. apply search_frame_undo.
  - intros s1 lit s2. apply search_frame_calculate.
  - by apply search_frame_refl.
Qed.

End Frame.

Lemma find_model_frame_witness :
  ∃ s s',
    SATSolver__init__ [[2; -3]; [1]; [3; -3]; [2; -2]; [3; -2]] (variables_upto 3)
      ∅ "vsids" "none" 500 = Ok s
    ∧ _find_model elements elements 10 s = Ok (true, s')
    ∧ clauses s' = clauses s
    ∧ lit_scores s' = lit_scores s
    ∧ occurrence_count s' = occurrence_count s
    ∧ length (variable_set s') = length (variable_set s)
    ∧ INTERVAL s' = INTERVAL s
    ∧ update_functions s' = update_functions s
    ∧ num_learned_clauses s' = num_learned_clauses s
    ∧ original_num_clauses s' = original_num_clauses s.
Proof.
  eexists _, _. split; [vm_compute; reflexivity|]. split; [vm_compute; reflexivity|].
  eapply (find_model_frame elements elements 10 _ true).
  - vm_compute. reflexivity.
  - vm_compute. reflexivity.
Defined.

(** * The heap *)

Lemma entry_lt_false a b : entry_lt a b = false → entry_le b a.
Proof.
  unfold entry_lt, entry_le.
  intros [H1 H2]%orb_false_iff. apply Z.ltb_ge in H1.
  apply andb_false_iff in H2 as [H2%Z.eqb_neq|H2%Z.ltb_ge]; lia.
Qed.

Lemma entry_lt_true a b : entry_lt a b = true → entry_le a b.
Proof.
  unfold entry_lt, entry_le.
  intros [H1%Z.ltb_lt|[H1%Z.eqb_eq H2%Z.ltb_lt]%andb_true_iff]%orb_true_iff; lia.
Qed.

Lemma entry_le_trans a b c : entry_le a b → entry_le b c → entry_le a c.
Proof. unfold entry_le. lia. Qed.

Lemma heappush_sorted h x :
  StronglySorted entry_le h → StronglySorted entry_le (heappush h x).
Proof.
  induction h as [|y h IH]; intros Hs; cbn [heappush].
  - by repeat constructor.
  - apply StronglySorted_cons in Hs as [Hall Hs].
    destruct (entry_lt y x) eqn:Hyx.
    + apply StronglySorted_cons. split; [|by apply IH].
      apply Forall_forall. intros e [->|He]%elem_of_heappush.
      * by apply entry_lt_true.
      * by eapply Forall_forall in Hall.
    + apply entry_lt_false in Hyx. apply StronglySorted_cons. split.
      * constructor; [done|]. eapply Forall_impl; [exact Hall|].
        intros e He. by eapply entry_le_trans.
      * by apply StronglySorted_cons.
Qed.

Lemma vsids_pop_Ok VS heap lit heap' :
  vsids_pop VS heap = Ok (lit, heap') →
  ∃ discarded,
    Forall (λ e, VS !! var_index e.2 = Some true) discarded
    ∧ ((lit = 0 ∧ heap = discarded ∧ heap' = [])
       ∨ ∃ x, heap = discarded ++ (x, lit) :: heap'
              ∧ VS !! var_index lit = Some false).
Proof.
  induction heap as [|[x l] heap IH]; cbn [vsids_pop].
  - intros [= <- <-]. exists []. split; [done|]. by left.
  - destruct (VS !! var_index l) as [[]|] eqn:Hl; [| |done].
    + intros (d & Hd & Hcase)%IH. exists ((x, l) :: d). split; [by constructor|].
      destruct Hcase as [(-> & -> & ->)|(y & -> & Hy)]; [by left|].
      right. by exists y.
    + intros [= <- <-]. exists []. split; [done|]. right. by exists x.
Qed.

(** The heap is emptied lazily: [_vsids_calculate], when it returns, has
    taken from the front of the heap a run of entries whose variables all are
    marked as set, and then either found the heap empty and answered [0], or
    taken one more entry, whose variable is not marked, and answered its
    literal.  Nothing but the heap has changed. *)
Theorem vsids_calculate_lazy s lit s' :
  _vsids_calculate s = Ok (lit, s') →
  s' = set_lit_heap (lit_heap s') s
  ∧ ∃ discarded,
      Forall (λ e, marked s e.2) discarded
      ∧ ((lit = 0 ∧ lit_heap s = discarded ∧ lit_heap s' = [])
         ∨ ∃ x, lit_heap s = discarded ++ (x, lit) :: lit_heap s'
                ∧ unmarked s lit).
Proof.
  intros Hrun. split; [by eapply vsids_calculate_frame|].
  unfold _vsids_calculate in Hrun. inv_bind Hrun. destruct a as [l h].
  cbv beta iota in Hrun. simplify_eq. by apply vsids_pop_Ok.
Qed.

Lemma vsids_calculate_lazy_witness :
  ∃ s0 s lit s',
    SATSolver__init__ [[2; -3]; [1]; [3; -3]; [2; -2]; [3; -2]] (variables_upto 3)
      ∅ "vsids" "none" 500 = Ok s0
    ∧ _assign_literal elements s0 (-3) = Ok s
    ∧ _vsids_calculate s = Ok (lit, s')
    ∧ s' = set_lit_heap (lit_heap s') s
    ∧ ∃ discarded,
        Forall (λ e, marked s e.2) discarded
        ∧ ((lit = 0 ∧ lit_heap s = discarded ∧ lit_heap s' = [])
           ∨ ∃ x, lit_heap s = discarded ++ (x, lit) :: lit_heap s'
                  ∧ unmarked s lit).
Proof.
  eexists _, _, _, _. split; [vm_compute; reflexivity|].
  split; [vm_compute; reflexivity|]. split; [vm_compute; reflexivity|].
  eapply vsids_calculate_lazy. vm_compute. reflexivity.
Defined.

(** ** The heap along the search *)

Lemma heap_kept_push s x l :
  heap_kept s → lit_scores s !! l = Some x →
  heap_kept (set_lit_heap (heappush (lit_heap s) (x, l)) s).
Proof.
  intros (Hl & Hs & Hsc) Hx. split_and!; [done| |].
  - by apply heappush_sorted.
  - intros y k [[= -> ->]|Hin]%elem_of_heappush; [done|by apply Hsc].
Qed.

Lemma heap_kept_ext s s' :
  add_learned_clause s' = add_learned_clause s →
  lit_heap s' = lit_heap s → lit_scores s' = lit_scores s →
  heap_kept s → heap_kept s'.
Proof.
  intros H1 H2 H3 (Hl & Hs & Hsc). unfold heap_kept, heap_sorted, heap_scored.
  rewrite H1, H2, H3. done.
Qed.

Lemma unset_literal_heap_kept s lit s' :
  heap_kept s → unset_literal s lit = Ok s' → heap_kept s'.
Proof.
  unfold unset_literal. intros Hk Hrun. case_decide; [|done].
  inv_bind Hrun. apply vsids_lit_unset_Ok in Ha as (x & y & Hx & Hy & ->).
  apply mark_variable_Ok in Hrun as [_ ->].
  apply (heap_kept_ext (set_lit_heap
           (heappush (heappush (lit_heap s) (x, Z.abs lit)) (y, - Z.abs lit)) s));
    [done..|].
  apply (heap_kept_push (set_lit_heap (heappush (lit_heap s) (x, Z.abs lit)) s));
    [|done].
  by apply heap_kept_push.
Qed.

Section HeapKept.

Context (iter_clauses : gset nat → list nat) (iter_literals : gset Z → list Z).

Lemma undo_heap_kept s s' :
  heap_kept s → _undo iter_literals s = Ok s' → heap_kept s'.
Proof.
  unfold _undo. intros Hk Hrun. inv_bind Hrun. inv_bind Hrun.
  assert (heap_kept a0) as Hk0.
  { eapply (for_each_invariant heap_kept); [| |exact Ha0]; [|done].
    intros s1 l s2 _ H1 H2. by eapply unset_literal_heap_kept. }
  destruct (levels a0); [done|]. by simplify_eq.
Qed.

Lemma assign_literal_heap_kept s lit s' :
  heap_kept s → _assign_literal iter_clauses s lit = Ok s' → heap_kept s'.
Proof.
  intros Hk (top & rest & new & Hl & Hlt & Hnew & Hfr)%assign_literal_changes.
  apply (heap_kept_ext s); [| | |done].
  - exact (f_equal add_learned_clause Hfr).
  - exact (f_equal lit_heap Hfr).
  - exact (f_equal lit_scores Hfr).
Qed.

Lemma vsids_calculate_heap_kept s lit s' :
  heap_kept s → _vsids_calculate s = Ok (lit, s') → heap_kept s'.
Proof.
  intros (Hl & Hs & Hsc) Hrun.
  pose proof (vsids_calculate_frame _ _ _ Hrun) as Hfr.
  unfold _vsids_calculate in Hrun. inv_bind Hrun. destruct a as [l h].
  cbv beta iota in Hrun. simplify_eq.
  apply vsids_pop_Ok in Ha as (d & Hd & Hcase).
  split_and!; [done| |].
  - unfold heap_sorted in *. cbn.
    destruct Hcase as [(_ & _ & ->)|(x & Hh & _)]; [constructor|].
    rewrite Hh in Hs. apply StronglySorted_app_1_r in Hs.
    by apply StronglySorted_cons in Hs as [_ Hs].
  - intros x k Hin. cbn in Hin. apply Hsc.
    destruct Hcase as [(_ & _ & ->)|(y & -> & _)];
      [by apply elem_of_nil in Hin|].
    apply elem_of_app. right. by right.
Qed.

Lemma top_of_loop_heap_kept s0 flip_var s :
  heap_kept s0 → top_of_loop iter_clauses iter_literals s0 flip_var s →
  heap_kept s.
Proof.
  intros Hk Htop.
  eapply (top_of_loop_keeps iter_clauses iter_literals heap_kept);
    [| | | | | | | |exact Hk|exact Htop].
  - by intros s1 [? _].
  - intros Q s1 H. exact H.
  - intros b s1 H. exact H.
  - intros L s1 H. exact H.
  - intros n s1 H. exact H.
  - intros s1 lit s2. apply assign_literal_heap_kept.
  - intros s1 s2. apply undo_heap_kept.
  - intros s1 lit s2. apply vsids_calculate_heap_kept.
Qed.

End HeapKept.

Lemma vsids_init_vars_sorted vars s :
  StronglySorted entry_le (lit_heap s) →
  StronglySorted entry_le (lit_heap (foldl vsids_init_var s vars)).
Proof.
  revert s. induction vars as [|v vars IH]; intros s Hs; cbn [foldl]; [done|].
  apply IH. unfold vsids_init_var. cbn [lit_heap set_lit_heap set_lit_scores].
  by do 2 apply heappush_sorted.
Qed.

Lemma init_heap_kept cls vars S0 I s :
  SATSolver__init__ cls vars S0 "vsids" "none" I = Ok s → heap_kept s.
Proof.
  intros Hinit. destruct (init_scores_heap _ _ _ _ _ Hinit) as [Hsc Hh].
  apply init_Ok in Hinit as (s1 & Hinit & ->).
  split_and!; [done| |].
  - unfold heap_sorted. change (lit_heap _) with (lit_heap (_vsids_init s1)).
    unfold _vsids_init. apply vsids_init_vars_sorted. constructor.
  - intros x l Hin. apply Hh in Hin as [Hl ->]. rewrite Hsc.
    by rewrite decide_True.
Qed.

(** * The decisions *)

Section Decisions.

Context (iter_clauses : gset nat → list nat) (iter_literals : gset Z → list Z).

Lemma top_of_loop_search_frame s0 flip_var s :
  add_learned_clause s0 = None →
  top_of_loop iter_clauses iter_literals s0 flip_var s → search_frame s0 s.
Proof.
  intros Hlearn Htop.
  eapply (top_of_loop_keeps iter_clauses iter_literals (search_frame s0));
    [| | | | | | | | |exact Htop].
  - by intros s1 [? _].
  - intros Q s1 H. exact H.
  - intros b s1 H. exact H.
  - intros L s1 H. exact H.
  - intros n s1 H. exact H.
  - intros s1 lit s2. apply search_frame_assign.
  - intros s1 s2. apply search_frame_undo.
  - intros s1 lit s2. apply search_frame_calculate.
  - by apply search_frame_refl.
Qed.

(** Which literal the search decides on.  At the top of the loop, in a solver
    built with the default selectors, a literal other than [0] that
    [_vsids_calculate] returns is not marked as set, and among the heap's
    literals that are not marked none occurs in more clauses; among those that
    occur in as many, it is the least integer. *)
Theorem decision_is_best cls vars S0 I s0 flip_var s lit s' :
  SATSolver__init__ cls vars S0 "vsids" "none" I = Ok s0 →
  top_of_loop iter_clauses iter_literals s0 flip_var s →
  _vsids_calculate s = Ok (lit, s') → lit ≠ 0 →
  unmarked s lit
  ∧ ∀ x l, (x, l) ∈ lit_heap s → unmarked s l →
      occurrences s l < occurrences s lit
      ∨ (occurrences s l = occurrences s lit ∧ lit ≤ l).
Proof.
  intros Hinit Htop Hrun Hlit.
  pose proof (init_heap_kept _ _ _ _ _ Hinit) as Hk0.
  pose proof (top_of_loop_heap_kept _ _ _ _ _ Hk0 Htop) as (_ & Hs & Hsc).
  destruct Hk0 as (Hlearn & _ & _).
  destruct (top_of_loop_search_frame _ _ _ Hlearn Htop)
    as (_ & _ & Hscores & Hocc & _).
  destruct (init_scores_heap _ _ _ _ _ Hinit) as [Hsc0 _].
  assert (∀ x l, (x, l) ∈ lit_heap s → x = - occurrences s l) as Hval.
  { intros x l Hin. apply Hsc in Hin. rewrite Hscores, Hsc0 in Hin.
    unfold occurrences. rewrite Hocc. fold (occurrences s0 l).
    destruct (decide _); by simplify_eq. }
  unfold _vsids_calculate in Hrun. inv_bind Hrun. destruct a as [l h].
  cbv beta iota in Hrun. simplify_eq.
  apply vsids_pop_Ok in Ha as (d & Hd & [(-> & _)|(y & Hh & Hun)]); [done|].
  split; [done|]. intros x l Hin Hunl.
  assert ((y, lit) ∈ lit_heap s) as Hy.
  { rewrite Hh. apply elem_of_app. right. by left. }
  apply Hval in Hy. pose proof (Hval _ _ Hin) as Hx.
  unfold heap_sorted in Hs. rewrite Hh in Hs, Hin.
  apply StronglySorted_app_1_r, StronglySorted_cons in Hs as [Hall _].
  assert (entry_le (y, lit) (x, l)) as Hle.
  { apply elem_of_app in Hin as [Hin|[[= -> ->]|Hin]%elem_of_cons].
    - eapply Forall_forall in Hd; [|exact Hin]. unfold unmarked in Hunl.
      cbn in Hd. congruence.
    - unfold entry_le. lia.
    - by eapply Forall_forall in Hall. }
  unfold entry_le in Hle. cbn in Hle. lia.
Qed.

End Decisions.

Lemma decision_is_best_witness :
  ∃ s0 s lit s',
    SATSolver__init__ [[2; -3]; [1]; [3; -3]; [2; -2]; [3; -2]] (variables_upto 3)
      ∅ "vsids" "none" 500 = Ok s0
    ∧ _simplify elements 10 s0 = Ok s
    ∧ _vsids_calculate s = Ok (lit, s')
    ∧ unmarked s lit
    ∧ ∀ x l, (x, l) ∈ lit_heap s → unmarked s l →
        occurrences s l < occurrences s lit
        ∨ (occurrences s l = occurrences s lit ∧ lit ≤ l).
Proof.
  eexists _, _, _, _. split; [vm_compute; reflexivity|].
  split; [vm_compute; reflexivity|]. split; [vm_compute; reflexivity|].
  eapply (decision_is_best elements elements
            [[2; -3]; [1]; [3; -3]; [2; -2]; [3; -2]] (variables_upto 3) ∅ 500
            _ false).
  - vm_compute. reflexivity.
  - eapply (top_first _ _ _ 10%nat); vm_compute; reflexivity.
  - vm_compute. reflexivity.
  - vm_compute. discriminate.
Defined.

(** * Propagation *)

Section Propagation.

Context (iter_clauses : gset nat → list nat).

Lemma unit_prop_loop_post fuel res s r s' :
  unit_prop_loop iter_clauses fuel res s = Ok (r, s') →
  _unit_prop_queue s' = []
  ∧ ((r = res ∧ is_unsatisfied s' = is_unsatisfied s)
     ∨ (r = false ∧ is_unsatisfied s' = true)).
Proof.
  revert s. induction fuel as [|fuel IH]; intros s Hrun;
    destruct (_unit_prop_queue s) as [|q Q] eqn:HQ.
  - rewrite (unit_prop_loop_nil _ _ _ _ HQ) in Hrun. simplify_eq. auto.
  - cbn [unit_prop_loop] in Hrun. by rewrite HQ in Hrun.
  - rewrite (unit_prop_loop_nil _ _ _ _ HQ) in Hrun. simplify_eq. auto.
  - rewrite (unit_prop_loop_cons _ _ _ _ q Q HQ) in Hrun.
    destruct (decide _); [simplify_eq; auto|].
    inv_bind Hrun. apply IH in Hrun as [HQ' Hcase]. split; [done|].
    apply assign_literal_changes in Ha
      as (top & rest & new & _ & _ & _ & Hfr).
    rewrite (f_equal is_unsatisfied Hfr) in Hcase. exact Hcase.
Qed.

Lemma simplify_loop_post rounds fuel s s' :
  simplify_loop iter_clauses rounds fuel s = Ok s' →
  _unit_prop_queue s' = []
  ∧ (is_unsatisfied s' = is_unsatisfied s ∨ is_unsatisfied s' = true).
Proof.
  revert s. induction rounds as [|rounds IH]; intros s Hrun; [done|].
  rewrite simplify_loop_S in Hrun. inv_bind Hrun. destruct a as [c1 s1].
  apply unit_prop_loop_post in Ha as [HQ Hcase]. cbv beta iota in Hrun.
  destruct (false || c1 || false).
  - apply IH in Hrun as [HQ' Hcase']. split; [done|].
    destruct Hcase as [[_ <-]|[_ H1]]; [done|].
    destruct Hcase' as [H2|H2]; [|by right]. right. congruence.
  - simplify_eq. split; [done|]. destruct Hcase as [[_ ->]|[_ ->]]; auto.
Qed.

(** What [_simplify] leaves when it returns: the propagation queue is empty;
    the conflict flag is as it was or has been raised; the assignment has only
    grown; the clauses, the number of levels and the heap are as before. *)
Theorem simplify_post fuel s s' :
  _simplify iter_clauses fuel s = Ok s' →
  _unit_prop_queue s' = []
  ∧ (is_unsatisfied s' = is_unsatisfied s ∨ is_unsatisfied s' = true)
  ∧ var_settings s ⊆ var_settings s'
  ∧ clauses s' = clauses s
  ∧ length (levels s') = length (levels s)
  ∧ lit_heap s' = lit_heap s.
Proof.
  intros Hrun. destruct (simplify_loop_post _ _ _ _ Hrun) as [HQ Hu].
  split; [done|]. split; [done|].
  eapply (simplify_loop_keeps iter_clauses
            (λ s1, var_settings s ⊆ var_settings s1
                   ∧ clauses s1 = clauses s
                   ∧ length (levels s1) = length (levels s)
                   ∧ lit_heap s1 = lit_heap s)); [| | | |exact Hrun].
  - intros Q s1 H. exact H.
  - intros b s1 H. exact H.
  - intros s1 lit s2 (H1 & H2 & H3 & H4)
      (top & rest & new & Hl & _ & _ & Hfr)%assign_literal_changes.
    split_and!.
    + rewrite (f_equal var_settings Hfr). cbn. set_solver.
    + by rewrite (f_equal clauses Hfr).
    + rewrite (f_equal levels Hfr). cbn. by rewrite <- H3, Hl.
    + by rewrite (f_equal lit_heap Hfr).
  - done.
Qed.

End Propagation.

Lemma simplify_post_witness :
  ∃ s s',
    SATSolver__init__ [[2; -3]; [1]; [3; -3]; [2; -2]; [3; -2]] (variables_upto 3)
      ∅ "vsids" "none" 500 = Ok s
    ∧ _simplify elements 10 s = Ok s'
    ∧ _unit_prop_queue s' = []
    ∧ (is_unsatisfied s' = is_unsatisfied s ∨ is_unsatisfied s' = true)
    ∧ var_settings s ⊆ var_settings s'
    ∧ clauses s' = clauses s
    ∧ length (levels s') = length (levels s)
    ∧ lit_heap s' = lit_heap s.
Proof.
  eexists _, _. split; [vm_compute; reflexivity|]. split; [vm_compute; reflexivity|].
  eapply (simplify_post elements 10). vm_compute. reflexivity.
Defined.

(** * A zero [INTERVAL] *)

Section Interval.

Context (iter_clauses : gset nat → list nat) (iter_literals : gset Z → list Z).

(** With [INTERVAL] zero, [_find_model] raises [ZeroDivisionError] as soon as
    the first propagation has found no conflict: the loop starts with
    [self.num_decisions % self.INTERVAL]. *)
Theorem find_model_zero_interval fuel s s1 :
  INTERVAL s = 0 →
  _simplify iter_clauses fuel s = Ok s1 → is_unsatisfied s1 = false →
  _find_model iter_clauses iter_literals fuel s = Raise ZeroDivisionError.
Proof.
  intros HI Hrun Hu. unfold _find_model. rewrite Hrun. cbn [mbind result_bind].
  rewrite Hu. destruct fuel as [|fuel]; [done|].
  assert (INTERVAL s1 = 0) as HI1.
  { eapply (simplify_loop_keeps iter_clauses (λ s2, INTERVAL s2 = 0));
      [| | | |exact Hrun]; [by intros..| |done].
    intros s2 lit s3 H (top & rest & new & _ & _ & _ & Hfr)%assign_literal_changes.
    by rewrite (f_equal INTERVAL Hfr). }
  cbn [find_model_loop]. unfold loop_body, run_updates.
  by rewrite decide_True.
Qed.

End Interval.

Lemma find_model_zero_interval_witness :
  ∃ s s1,
    SATSolver__init__ [[1; 2]; [-1; 2]] (variables_upto 2) ∅ "vsids" "none" 0 = Ok s
    ∧ _simplify elements 10 s = Ok s1
    ∧ _find_model elements elements 10 s = Raise ZeroDivisionError.
Proof.
  eexists _, _. split; [vm_compute; reflexivity|]. split; [vm_compute; reflexivity|].
  eapply (find_model_zero_interval elements elements 10).
  - vm_compute. reflexivity.
  - vm_compute. reflexivity.
  - vm_compute. reflexivity.
Defined.

(** * The state at the top of the loop *)

Section TopOfLoop.

Context (iter_clauses : gset nat → list nat) (iter_literals : gset Z → list Z).
Hypothesis iter_clauses_permutation : ∀ X, iter_clauses X ≡ₚ elements X.
Hypothesis iter_literals_permutation : ∀ X, iter_literals X ≡ₚ elements X.

Lemma top_of_loop_top_inv N F I s0 flip_var s :
  well_formed N F → I ≠ 0 →
  SATSolver__init__ F (variables_upto N) ∅ "vsids" "none" I = Ok s0 →
  top_of_loop iter_clauses iter_literals s0 flip_var s →
  top_inv N F flip_var s.
Proof.
  intros Hwf HI Hinit.
  induction 1 as [fuel s Hrun Hu|fuel flip_var s flip_var' s' _ IH Hrun].
  - destruct (init_inv N F I s0 Hwf HI Hinit) as (Hb & Hh & Hset & Hq & _ & _).
    destruct (simplify_ends iter_clauses iter_clauses_permutation N F s0
                Hb Hh Hset Hq) as (n & s1 & conflict & Hn).
    destruct (Hn (n `max` fuel)%nat ltac:(lia)) as [Hrun' Hp].
    apply (simplify_mono _ fuel (n `max` fuel)%nat) in Hrun; [|lia].
    assert (s1 = s) as -> by congruence.
    destruct conflict.
    + destruct (propagated_outcome _ _ _ _ _ Hp) as [Hu1 _]. congruence.
    + destruct (propagated_outcome _ _ _ _ _ Hp) as [_ Hq1].
      split; [exact (propagated_base _ _ _ _ _ Hp)|].
      split; [exact (propagated_heap _ _ _ _ _ Hp)|].
      split; [done|]. split; [exact (propagated_queue _ _ _ _ _ Hp)|].
      split; [done|]. exact (propagated_settled _ _ _ _ _ Hp).
  - destruct (loop_body_ends iter_clauses iter_literals iter_clauses_permutation
                iter_literals_permutation N F flip_var s IH) as (n & p & Hn & Hp).
    apply (loop_body_mono _ _ fuel (n `max` fuel)%nat) in Hrun; [|lia].
    rewrite (Hn (n `max` fuel)%nat) in Hrun by lia. simplify_eq.
    by destruct Hp.
Qed.

(** The state in which [_find_model] stands at the top of its loop, for a
    well-formed input and an empty initial assignment: [var_settings] is the
    union of the sets of the levels; it holds no literal together with its
    negation, and only literals of the variables [1..N]; a variable is marked
    as set exactly when one of its literals is assigned; every assigned
    literal is true in every model of the clauses that agrees with the
    first-attempt decisions; the propagation queue is empty and no conflict is
    pending; and every variable that is not set still has an entry on the
    heap. *)
Theorem top_of_loop_invariants N F I s0 flip_var s :
  well_formed N F → I ≠ 0 →
  SATSolver__init__ F (variables_upto N) ∅ "vsids" "none" I = Ok s0 →
  top_of_loop iter_clauses iter_literals s0 flip_var s →
  levels s ≠ []
  ∧ var_settings s = assigned (levels s)
  ∧ consistent (var_settings s)
  ∧ (∀ l, l ∈ var_settings s → in_range N l)
  ∧ (∀ l, in_range N l →
       (marked s l ↔ l ∈ var_settings s ∨ - l ∈ var_settings s))
  ∧ implied F (levels s)
  ∧ _unit_prop_queue s = []
  ∧ is_unsatisfied s = false
  ∧ heap_cover N s.
Proof.
  intros Hwf HI Hinit Htop.
  destruct (top_of_loop_top_inv N F I s0 flip_var s Hwf HI Hinit Htop)
    as (Hb & Hh & _ & HQ & Hu & _).
  split_and!; try done.
  - exact (inv_levels _ _ _ Hb).
  - exact (inv_assigned _ _ _ Hb).
  - exact (inv_consistent _ _ _ Hb).
  - exact (inv_range _ _ _ Hb).
  - exact (inv_marked _ _ _ Hb).
  - exact (inv_implied _ _ _ Hb).
Qed.

End TopOfLoop.

Lemma top_of_loop_invariants_witness :
  ∃ s0 s,
    SATSolver__init__ [[1; 2; 3]; [-1; -2; -3]; [1]] (variables_upto 3)
      ∅ "vsids" "none" 500 = Ok s0
    ∧ _simplify elements 10 s0 = Ok s
    ∧ levels s ≠ []
    ∧ var_settings s = assigned (levels s)
    ∧ consistent (var_settings s)
    ∧ (∀ l, l ∈ var_settings s → in_range 3 l)
    ∧ (∀ l, in_range 3 l →
         (marked s l ↔ l ∈ var_settings s ∨ - l ∈ var_settings s))
    ∧ implied [[1; 2; 3]; [-1; -2; -3]; [1]] (levels s)
    ∧ _unit_prop_queue s = []
    ∧ is_unsatisfied s = false
    ∧ heap_cover 3 s.
Proof.
  eexists _, _. split; [vm_compute; reflexivity|]. split; [vm_compute; reflexivity|].
  eapply (top_of_loop_invariants elements elements (λ X, reflexivity _)
            (λ X, reflexivity _) 3 [[1; 2; 3]; [-1; -2; -3]; [1]] 500
            _ false).
  - apply (bool_decide_unpack _). vm_compute. exact I.
  - lia.
  - vm_compute. reflexivity.
  - eapply (top_first _ _ _ 10%nat); vm_compute; reflexivity.
Defined.

(** * The levels left by an exhausted search *)

Section Exhausted.

Context (iter_clauses : gset nat → list nat) (iter_literals : gset Z → list Z).

Lemma unroll_flipped_exhausted fuel s s' :
  unroll_flipped iter_literals fuel s = Ok (true, s') →
  length (levels s') = 1%nat.
Proof.
  revert s. induction fuel as [|fuel IH]; intros s Hrun;
    (destruct (levels s) as [|top low] eqn:Hl;
     [cbn [unroll_flipped] in Hrun; unfold _current_level in Hrun;
      by rewrite Hl in Hrun|]);
    destruct (Level.flipped top) eqn:Hfl.
  - cbn [unroll_flipped] in Hrun. unfold _current_level in Hrun.
    rewrite Hl in Hrun. cbn [mbind result_bind] in Hrun. by rewrite Hfl in Hrun.
  - by rewrite (unroll_flipped_stop _ _ _ top low Hl Hfl) in Hrun.
  - rewrite (unroll_flipped_step _ _ _ top low Hl Hfl) in Hrun.
    inv_bind Hrun. destruct (decide _); [by simplify_eq|by eapply IH].
  - by rewrite (unroll_flipped_stop _ _ _ top low Hl Hfl) in Hrun.
Qed.

Lemma loop_body_false fuel flip_var s s' :
  loop_body iter_clauses iter_literals fuel flip_var s = Ok (Return false s') →
  length (levels s') = 1%nat.
Proof.
  intros Hrun. unfold loop_body in Hrun. inv_bind Hrun. inv_bind Hrun.
  destruct a0 as [choice s2]. cbv beta iota in Hrun.
  destruct choice as [lit|]; [|done].
  inv_bind Hrun. inv_bind Hrun.
  destruct (is_unsatisfied a1); [|done].
  inv_bind Hrun. destruct a2 as [exhausted s5]. cbv beta iota in Hrun.
  destruct exhausted; [|done]. simplify_eq.
  unfold backtrack in Ha3. inv_bind Ha3. destruct a2 as [exhausted s6].
  cbv beta iota in Ha3. destruct exhausted.
  - simplify_eq. by eapply unroll_flipped_exhausted.
  - inv_bind Ha3. inv_bind Ha3. inv_bind Ha3. inv_bind Ha3. done.
Qed.

Lemma find_model_loop_false rounds fuel flip_var s s' :
  find_model_loop iter_clauses iter_literals rounds fuel flip_var s
  = Ok (false, s') →
  length (levels s') = 1%nat.
Proof.
  revert flip_var s. induction rounds as [|rounds IH]; intros flip_var s Hrun;
    [done|].
  cbn [find_model_loop] in Hrun. inv_bind Hrun.
  destruct a as [answer s1|flip_var' s1]; cbv beta iota in Hrun.
  - simplify_eq. by eapply loop_body_false.
  - by eapply IH.
Qed.

(** When [_find_model], called on a solver with its root level only, answers
    [False], the root level is the only one left: every level that the
    search pushed has been undone. *)
Theorem find_model_false_levels fuel s s' :
  length (levels s) = 1%nat →
  _find_model iter_clauses iter_literals fuel s = Ok (false, s') →
  length (levels s') = 1%nat.
Proof.
  intros Hlen Hrun. unfold _find_model in Hrun. inv_bind Hrun.
  destruct (is_unsatisfied a) eqn:Hu.
  - simplify_eq.
    eapply (simplify_loop_keeps iter_clauses
              (λ s1, length (levels s1) = 1%nat)); [| | | |exact Ha];
      [by intros..| |done].
    intros s1 lit s2 H (top & rest & new & Hl & _ & _ & Hfr)%assign_literal_changes.
    rewrite (f_equal levels Hfr). cbn. by rewrite <- H, Hl.
  - by eapply find_model_loop_false.
Qed.

End Exhausted.

Lemma find_model_false_levels_witness :
  ∃ s s',
    SATSolver__init__ [[1; 2]; [-1; 2]; [1; -2]; [-1; -2]] (variables_upto 2) ∅
      "vsids" "none" 500 = Ok s
    ∧ _find_model elements elements 10 s = Ok (false, s')
    ∧ length (levels s') = 1%nat.
Proof.
  eexists _, _. split; [vm_compute; reflexivity|].
  lazymatch goal with
  | |- _find_model _ _ _ ?s = _ ∧ _ =>
      split; [vm_compute; reflexivity|];
      eapply (find_model_false_levels elements elements 10 s);
      vm_compute; reflexivity
  end.
Defined.

(** * Adding a learned clause *)

Lemma times_cons l x c :
  times l (x :: c) = if decide (x = l) then 1 + times l c else times l c.
Proof.
  unfold times. rewrite filter_cons. destruct (decide (x = l)); cbn [length]; lia.
Qed.

Lemma vsids_bump_Ok s lit s' :
  vsids_bump s lit = Ok s' →
  ∃ x, lit_scores s !! lit = Some x
       ∧ s' = set_lit_scores (<[lit := x + 1]> (lit_scores s)) s.
Proof.
  unfold vsids_bump, score_at. destruct (lit_scores s !! lit) as [x|]; [|done].
  cbn. intros [= <-]. by exists x.
Qed.

Lemma for_each_bump c s s' :
  for_each vsids_bump s c = Ok s' →
  (∀ l, l ∈ c → is_Some (lit_scores s !! l))
  ∧ ∀ l, lit_scores s' !! l = (λ x, x + times l c) <$> lit_scores s !! l.
Proof.
  revert s. induction c as [|a c IH]; intros s Hrun; cbn [for_each] in Hrun.
  - simplify_eq. split; [by intros l Hl%elem_of_nil|].
    intros l. unfold times. cbn. destruct (lit_scores s' !! l); cbn; [|done].
    f_equal. lia.
  - inv_bind Hrun. apply vsids_bump_Ok in Ha as (x & Hx & ->).
    apply IH in Hrun as [Hsome Hval]. cbn in Hsome, Hval. split.
    + intros l [->|Hl]%elem_of_cons; [done|].
      specialize (Hsome l Hl). destruct (decide (l = a)) as [->|Hne]; [done|].
      by rewrite lookup_insert_ne in Hsome.
    + intros l. rewrite Hval, times_cons. destruct (decide (a = l)) as [->|Hne].
      * rewrite lookup_insert_eq, Hx. cbn. f_equal. lia.
      * by rewrite lookup_insert_ne.
Qed.

(** What [_simple_add_learned_clause] does when it returns, which it does
    only for a clause that is not empty and whose literals all have a score:
    the clause is appended to the store and watched by its first and its last
    literal; for every literal, [occurrence_count] and the score grow by the
    number of times it occurs in the clause; [num_learned_clauses] grows by
    one; the assignment, the levels, the marks, the heap and the propagation
    queue are left alone. *)
Theorem learned_clause_effect s cls s' :
  _simple_add_learned_clause s cls = Ok s' →
  cls ≠ []
  ∧ (∀ l, l ∈ cls → is_Some (lit_scores s !! l))
  ∧ clauses s' = clauses s ++ [cls]
  ∧ (∀ l, watchers s' l
          = if decide (head cls = Some l ∨ List.last cls 0 = l)
            then {[length (clauses s)]} ∪ watchers s l else watchers s l)
  ∧ (∀ l, occurrences s' l = occurrences s l + times l cls)
  ∧ (∀ l, lit_scores s' !! l = (λ x, x + times l cls) <$> lit_scores s !! l)
  ∧ num_learned_clauses s' = num_learned_clauses s + 1
  ∧ var_settings s' = var_settings s
  ∧ levels s' = levels s
  ∧ variable_set s' = variable_set s
  ∧ lit_heap s' = lit_heap s
  ∧ _unit_prop_queue s' = _unit_prop_queue s.
Proof.
  intros Hrun.
  destruct (simple_add_learned_clause_Ok _ _ _ Hrun) as (first & Hfirst & Hc & HQ & Hw).
  assert (cls ≠ []) as Hne by (intros ->; done).
  revert Hrun. unfold _simple_add_learned_clause.
  destruct cls as [|a rest] eqn:Hcls; [done|]. rewrite <- Hcls.
  set (s0 := foldl count_occurrence (set_clauses (clauses s ++ [cls]) s) cls).
  set (s1 := sentinel_add a (length (clauses s)) s0).
  set (s2 := sentinel_add (List.last cls 0) (length (clauses s)) s1).
  intros Hrun.
  pose proof (vsids_clause_added_frame _ _ _ Hrun) as Hfr.
  assert (s0 = set_occurrence_count (occurrence_count s0)
                 (set_clauses (clauses s ++ [cls]) s)) as Hs0
    by apply foldl_count_frame.
  unfold _vsids_clause_added in Hrun.
  assert (num_learned_clauses s' = num_learned_clauses s + 1) as Hnum.
  { eapply (for_each_invariant
              (λ s3, num_learned_clauses s3 = num_learned_clauses s + 1));
      [| |exact Hrun].
    - intros s3 l s4 _ H (x & _ & ->)%vsids_bump_Ok. exact H.
    - cbn. by rewrite Hs0. }
  apply for_each_bump in Hrun as [Hsome Hval]. cbn in Hsome, Hval.
  assert (lit_scores s0 = lit_scores s) as Hsc by (by rewrite Hs0).
  rewrite Hsc in Hsome, Hval.
  rewrite <- Hcls in Hw, Hfirst, Hc.
  split_and!.
  - by rewrite Hcls.
  - exact Hsome.
  - exact Hc.
  - intros l. rewrite Hw. rewrite Hfirst.
    destruct (decide (l = first ∨ l = List.last cls 0)) as [Hl|Hl].
    + rewrite decide_True; [done|]. destruct Hl as [Hl|Hl]; [left|right];
        congruence.
    + rewrite decide_False; [done|]. intros [Hh|Hla]; apply Hl; [left|right];
        congruence.
  - intros l. unfold occurrences at 1. rewrite (f_equal occurrence_count Hfr).
    cbn. fold (occurrences s0 l). unfold s0. rewrite occurrences_foldl. done.
  - exact Hval.
  - exact Hnum.
  - rewrite (f_equal var_settings Hfr). cbn. by rewrite Hs0.
  - rewrite (f_equal levels Hfr). cbn. by rewrite Hs0.
  - rewrite (f_equal variable_set Hfr). cbn. by rewrite Hs0.
  - rewrite (f_equal lit_heap Hfr). cbn. by rewrite Hs0.
  - done.
Qed.

Lemma learned_clause_effect_witness :
  ∃ s s',
    SATSolver__init__ [[2; -3]; [1]; [3; -3]; [2; -2]; [3; -2]] (variables_upto 3)
      ∅ "vsids" "none" 500 = Ok s
    ∧ _simple_add_learned_clause s [2; -3] = Ok s'
    ∧ [2; -3] ≠ []
    ∧ (∀ l, l ∈ [2; -3] → is_Some (lit_scores s !! l))
    ∧ clauses s' = clauses s ++ [[2; -3]]
    ∧ (∀ l, watchers s' l
            = if decide (head [2; -3] = Some l ∨ List.last [2; -3] 0 = l)
              then {[length (clauses s)]} ∪ watchers s l else watchers s l)
    ∧ (∀ l, occurrences s' l = occurrences s l + times l [2; -3])
    ∧ (∀ l, lit_scores s' !! l
            = (λ x, x + times l [2; -3]) <$> lit_scores s !! l)
    ∧ num_learned_clauses s' = num_learned_clauses s + 1
    ∧ var_settings s' = var_settings s
    ∧ levels s' = levels s
    ∧ variable_set s' = variable_set s
    ∧ lit_heap s' = lit_heap s
    ∧ _unit_prop_queue s' = _unit_prop_queue s.
Proof.
  eexists _, _. split; [vm_compute; reflexivity|]. split; [vm_compute; reflexivity|].
  eapply learned_clause_effect. vm_compute. reflexivity.
Defined.

(** * Propagation carried to its end *)

Section Propagated.

Context (iter_clauses : gset nat → list nat) (iter_literals : gset Z → list Z).
Hypothesis iter_clauses_permutation : ∀ X, iter_clauses X ≡ₚ elements X.
Hypothesis iter_literals_permutation : ∀ X, iter_literals X ≡ₚ elements X.

(** At the top of the loop of [_find_model], for a well-formed input and an
    empty initial assignment, unit propagation has nothing left to do: every
    clause holds an assigned literal, or two different literals neither of
    which is false.  No clause is falsified and none is a unit clause under
    the assignment. *)
Theorem top_of_loop_propagated N F I s0 flip_var s :
  well_formed N F → I ≠ 0 →
  SATSolver__init__ F (variables_upto N) ∅ "vsids" "none" I = Ok s0 →
  top_of_loop iter_clauses iter_literals s0 flip_var s →
  ∀ c, c ∈ F →
    satisfied_by (var_settings s) c
    ∨ ∃ l1 l2, l1 ≠ l2 ∧ l1 ∈ c ∧ l2 ∈ c
               ∧ - l1 ∉ var_settings s ∧ - l2 ∉ var_settings s.
Proof.
  intros Hwf HI Hinit Htop c Hc.
  destruct (top_of_loop_top_inv iter_clauses iter_literals
              iter_clauses_permutation iter_literals_permutation
              N F I s0 flip_var s Hwf HI Hinit Htop)
    as (Hb & _ & Hq & HQ & _ & _).
  pose proof (closed_of_queue_inv N F s Hb Hq HQ) as Hcl.
  apply list_elem_of_lookup_1 in Hc as [i Hi].
  destruct (well_formed_lookup N F i c Hwf Hi) as (Hne & _).
  rewrite <- (inv_clauses _ _ _ Hb) in Hi.
  destruct (Hcl i c Hi) as [Hunit Hwatch].
  destruct (decide (length c = 1%nat)) as [Hlen|Hlen]; [left; by apply Hunit|].
  assert (2 ≤ length c)%nat as Hlen2.
  { destruct c as [|x [|y c]]; [done|done|cbn; lia]. }
  destruct (inv_two_watches _ _ _ Hb i c Hi Hlen2)
    as (w1 & w2 & Hw12 & Hw1 & Hw2 & Hiff).
  destruct (decide (- w1 ∈ var_settings s)) as [H1|H1].
  { left. apply (Hwatch w1); [|done]. apply Hiff. by left. }
  destruct (decide (- w2 ∈ var_settings s)) as [H2|H2].
  { left. apply (Hwatch w2); [|done]. apply Hiff. by right. }
  right. by exists w1, w2.
Qed.

End Propagated.

Lemma top_of_loop_propagated_witness :
  ∃ s0 s,
    SATSolver__init__ [[1; 2; 3]; [-1; -2; -3]; [1]] (variables_upto 3)
      ∅ "vsids" "none" 500 = Ok s0
    ∧ _simplify elements 10 s0 = Ok s
    ∧ ∀ c, c ∈ [[1; 2; 3]; [-1; -2; -3]; [1]] →
        satisfied_by (var_settings s) c
        ∨ ∃ l1 l2, l1 ≠ l2 ∧ l1 ∈ c ∧ l2 ∈ c
                   ∧ - l1 ∉ var_settings s ∧ - l2 ∉ var_settings s.
Proof.
  eexists _, _. split; [vm_compute; reflexivity|]. split; [vm_compute; reflexivity|].
  eapply (top_of_loop_propagated elements elements (λ X, reflexivity _)
            (λ X, reflexivity _) 3 [[1; 2; 3]; [-1; -2; -3]; [1]] 500 _ false).
  - apply (bool_decide_unpack _). vm_compute. exact I.
  - lia.
  - vm_compute. reflexivity.
  - eapply (top_first _ _ _ 10%nat); vm_compute; reflexivity.
Defined.

(** * The naive conflict clause *)

Lemma decisions_assigned N F s lv :
  stack_inv N F s lv → settled lv →
  ∀ L, L ∈ removelast lv → Level.decision L ∈ Level.var_settings L.
Proof.
  induction lv as [|top low IH]; intros Hst Hset L HL;
    [by apply elem_of_nil in HL|].
  destruct low as [|next low]; [by apply elem_of_nil in HL|].
  change (removelast (top :: next :: low))
    with (top :: removelast (next :: low)) in HL.
  destruct Hst as [(_ & _ & Hlow) Hst].
  apply elem_of_cons in HL as [->|HL].
  - by destruct Hset.
  - destruct Hlow as (_ & _ & _ & Hset' & _); [done|]. by apply IH.
Qed.

Lemma elem_of_removelast {A : Type} (x : A) l : x ∈ removelast l → x ∈ l.
Proof.
  induction l as [|y [|z l] IH]; [done|by intros ?%elem_of_nil|].
  change (removelast (y :: z :: l)) with (y :: removelast (z :: l)).
  intros [->|H]%elem_of_cons; [by left|]. right. by apply IH.
Qed.

Lemma removelast_shorter {A : Type} (l : list A) :
  length (removelast l) = (length l - 1)%nat.
Proof.
  induction l as [|y [|z l] IH]; [done|done|].
  change (removelast (y :: z :: l)) with (y :: removelast (z :: l)).
  cbn [length] in *. lia.
Qed.

Section Conflict.

Context (iter_clauses : gset nat → list nat) (iter_literals : gset Z → list Z).
Hypothesis iter_clauses_permutation : ∀ X, iter_clauses X ≡ₚ elements X.
Hypothesis iter_literals_permutation : ∀ X, iter_literals X ≡ₚ elements X.

(** The clause that [_simple_compute_conflict] builds holds one literal for
    every level but the root.  At the top of the loop of [_find_model], when
    no flipped decision waits to be assigned, for a well-formed input and an
    empty initial assignment, every one of its literals is false: the
    decisions it negates all are in [var_settings]. *)
Theorem compute_conflict_falsified N F I s0 s :
  well_formed N F → I ≠ 0 →
  SATSolver__init__ F (variables_upto N) ∅ "vsids" "none" I = Ok s0 →
  top_of_loop iter_clauses iter_literals s0 false s →
  length (_simple_compute_conflict s) = (length (levels s) - 1)%nat
  ∧ ∀ l, l ∈ _simple_compute_conflict s → - l ∈ var_settings s.
Proof.
  intros Hwf HI Hinit Htop.
  destruct (top_of_loop_top_inv iter_clauses iter_literals
              iter_clauses_permutation iter_literals_permutation
              N F I s0 false s Hwf HI Hinit Htop)
    as (Hb & _ & _ & _ & _ & Hset).
  unfold _simple_compute_conflict. split.
  - rewrite length_fmap, length_reverse. apply removelast_shorter.
  - intros l (L & -> & HL)%list_elem_of_fmap. rewrite elem_of_reverse in HL.
    rewrite Z.opp_involutive, (inv_assigned _ _ _ Hb).
    apply elem_of_union_list. exists (Level.var_settings L). split.
    + apply list_elem_of_fmap. exists L. split; [done|].
      by apply elem_of_removelast.
    + by eapply decisions_assigned; [exact (inv_stack _ _ _ Hb)| |].
Qed.

End Conflict.

Lemma compute_conflict_falsified_witness :
  ∃ s0 s1 s,
    SATSolver__init__ [[1; 2; 3]; [-1; -2; -3]; [1]] (variables_upto 3)
      ∅ "vsids" "none" 500 = Ok s0
    ∧ _simplify elements 10 s0 = Ok s1
    ∧ loop_body elements elements 10 false s1 = Ok (Continue false s)
    ∧ length (_simple_compute_conflict s) = (length (levels s) - 1)%nat
    ∧ ∀ l, l ∈ _simple_compute_conflict s → - l ∈ var_settings s.
Proof.
  eexists _, _, _. split; [vm_compute; reflexivity|].
  split; [vm_compute; reflexivity|]. split; [vm_compute; reflexivity|].
  eapply (compute_conflict_falsified elements elements (λ X, reflexivity _)
            (λ X, reflexivity _) 3 [[1; 2; 3]; [-1; -2; -3]; [1]] 500).
  - apply (bool_decide_unpack _). vm_compute. exact I.
  - lia.
  - vm_compute. reflexivity.
  - eapply (top_again _ _ _ 10%nat false _ false).
    + eapply (top_first _ _ _ 10%nat); vm_compute; reflexivity.
    + vm_compute. reflexivity.
Defined.
